(** * spot_ros2: robot-state assembly, message conversions and joint ordering

    A shallow embedding of
    - [spot_driver_cpp/src/api/default_robot_state_client.cpp],
    - [spot_driver_cpp/src/conversions/common_conversions.cpp],
    - [spot_ros2_control/hardware/include/spot_ros2_control/spot_joint_map.hpp],
    followed by the properties the specification states about them. *)

From Stdlib Require Import ZArith Lia.
From stdpp Require Import base option list strings gmap fin_maps.

Local Open Scope string_scope.
Local Open Scope list_scope.
Local Open Scope stdpp_scope.

(** ** Machine integers

    The protobuf and ROS time types use fixed-width fields; a conversion
    between two widths is the usual reduction modulo [2^w]. *)
Module MachineInt.

Definition to_unsigned (w : Z) (z : Z) : Z := (z mod 2 ^ w)%Z.

Definition to_signed (w : Z) (z : Z) : Z :=
  let u := (z mod 2 ^ w)%Z in
  if decide (u < 2 ^ (w - 1))%Z then u else (u - 2 ^ w)%Z.

Definition int32_range (z : Z) : Prop := (- 2 ^ 31 <= z < 2 ^ 31)%Z.
Definition uint32_range (z : Z) : Prop := (0 <= z < 2 ^ 32)%Z.

Definition to_int32 : Z → Z := to_signed 32.
Definition to_int64 : Z → Z := to_signed 64.
Definition to_uint32 : Z → Z := to_unsigned 32.

End MachineInt.

(** A [double] is only ever copied by the code below, never computed with; it
    is carried as its 64-bit pattern. *)
Definition double : Type := Z.
(** The pattern of [+0.0], the proto3 default and the value [resize] fills with. *)
Definition double_zero : double := 0%Z.

(** ** ROS messages (the fields the conversions touch) *)
Module Msg.

(** builtin_interfaces/Time: [int32 sec], [uint32 nanosec]. *)
Record Time := mkTime { sec : Z; nanosec : Z }.

Definition wf_Time (t : Time) : Prop :=
  MachineInt.int32_range (sec t) ∧ MachineInt.uint32_range (nanosec t).

Record Vector3 := mkVector3 { vector3_x : double; vector3_y : double; vector3_z : double }.
Record Point := mkPoint { point_x : double; point_y : double; point_z : double }.
Record Quaternion := mkQuaternion
  { quat_x : double; quat_y : double; quat_z : double; quat_w : double }.
Record Pose := mkPose { position : Point; orientation : Quaternion }.
Record Twist := mkTwist { linear : Vector3; angular : Vector3 }.

Record RequestHeader := mkRequestHeader
  { request_timestamp : Time;
    request_timestamp_is_set : bool;
    client_name : string;
    disable_rpc_logging : bool }.

Record CommonError := mkCommonError { code_value : Z; message : string }.

Record ResponseHeader := mkResponseHeader
  { request_header : RequestHeader;
    request_header_is_set : bool;
    request_received_timestamp : Time;
    request_received_timestamp_is_set : bool;
    response_timestamp : Time;
    response_timestamp_is_set : bool;
    error : CommonError;
    error_is_set : bool }.

Record ArmJointPosition := mkArmJointPosition
  { sh0 : double; sh0_is_set : bool;
    sh1 : double; sh1_is_set : bool;
    el0 : double; el0_is_set : bool;
    el1 : double; el1_is_set : bool;
    wr0 : double; wr0_is_set : bool;
    wr1 : double; wr1_is_set : bool }.

End Msg.

(** ** Protobuf messages

    A sub-message field is optional: [None] is a cleared has-bit.  The plain
    accessor of an absent field yields the default instance, [mutable_f]
    creates the field when it is absent and hands it out for writing. *)
Module Proto.

(** google.protobuf.Timestamp: [int64 seconds], [int32 nanos]. *)
Record Timestamp := mkTimestamp { seconds : Z; nanos : Z }.
Definition Timestamp_default : Timestamp := mkTimestamp 0%Z 0%Z.
Definition set_seconds (v : Z) (p : Timestamp) : Timestamp :=
  mkTimestamp (MachineInt.to_int64 v) (nanos p).
Definition set_nanos (v : Z) (p : Timestamp) : Timestamp :=
  mkTimestamp (seconds p) (MachineInt.to_int32 v).

Record Vec3 := mkVec3 { x : double; y : double; z : double }.
Definition Vec3_default : Vec3 := mkVec3 double_zero double_zero double_zero.
Definition set_x (v : double) (p : Vec3) : Vec3 := mkVec3 v (y p) (z p).
Definition set_y (v : double) (p : Vec3) : Vec3 := mkVec3 (x p) v (z p).
Definition set_z (v : double) (p : Vec3) : Vec3 := mkVec3 (x p) (y p) v.

Record Quaternion := mkQuaternion { qx : double; qy : double; qz : double; qw : double }.
(** The proto3 default of every scalar is zero, also for [w]. *)
Definition Quaternion_default : Quaternion := mkQuaternion double_zero double_zero double_zero double_zero.
Definition set_qw (v : double) (p : Quaternion) : Quaternion :=
  mkQuaternion (qx p) (qy p) (qz p) v.
Definition set_qx (v : double) (p : Quaternion) : Quaternion :=
  mkQuaternion v (qy p) (qz p) (qw p).
Definition set_qy (v : double) (p : Quaternion) : Quaternion :=
  mkQuaternion (qx p) v (qz p) (qw p).
Definition set_qz (v : double) (p : Quaternion) : Quaternion :=
  mkQuaternion (qx p) (qy p) v (qw p).

Record SE3Pose := mkSE3Pose { position : option Vec3; rotation : option Quaternion }.
Definition SE3Pose_default : SE3Pose := mkSE3Pose None None.
Definition get_position (p : SE3Pose) : Vec3 := default Vec3_default (position p).
Definition get_rotation (p : SE3Pose) : Quaternion :=
  default Quaternion_default (rotation p).
Definition mutable_position (f : Vec3 → Vec3) (p : SE3Pose) : SE3Pose :=
  mkSE3Pose (Some (f (get_position p))) (rotation p).
Definition mutable_rotation (f : Quaternion → Quaternion) (p : SE3Pose) : SE3Pose :=
  mkSE3Pose (position p) (Some (f (get_rotation p))).

Record SE3Velocity := mkSE3Velocity { linear : option Vec3; angular : option Vec3 }.
Definition get_linear (p : SE3Velocity) : Vec3 := default Vec3_default (linear p).
Definition get_angular (p : SE3Velocity) : Vec3 := default Vec3_default (angular p).

(** google.protobuf.DoubleValue *)
Record DoubleValue := mkDoubleValue { value : double }.
Definition DoubleValue_default : DoubleValue := mkDoubleValue double_zero.
Definition set_value (v : double) (p : DoubleValue) : DoubleValue := mkDoubleValue v.

Record ArmJointPosition := mkArmJointPosition
  { sh0 : option DoubleValue; sh1 : option DoubleValue;
    el0 : option DoubleValue; el1 : option DoubleValue;
    wr0 : option DoubleValue; wr1 : option DoubleValue }.
Definition ArmJointPosition_default : ArmJointPosition :=
  mkArmJointPosition None None None None None None.
Definition mutable_sh0 (f : DoubleValue → DoubleValue) (p : ArmJointPosition) :=
  mkArmJointPosition (Some (f (default DoubleValue_default (sh0 p))))
                     (sh1 p) (el0 p) (el1 p) (wr0 p) (wr1 p).
Definition mutable_sh1 (f : DoubleValue → DoubleValue) (p : ArmJointPosition) :=
  mkArmJointPosition (sh0 p) (Some (f (default DoubleValue_default (sh1 p))))
                     (el0 p) (el1 p) (wr0 p) (wr1 p).
Definition mutable_el0 (f : DoubleValue → DoubleValue) (p : ArmJointPosition) :=
  mkArmJointPosition (sh0 p) (sh1 p)
                     (Some (f (default DoubleValue_default (el0 p))))
                     (el1 p) (wr0 p) (wr1 p).
Definition mutable_el1 (f : DoubleValue → DoubleValue) (p : ArmJointPosition) :=
  mkArmJointPosition (sh0 p) (sh1 p) (el0 p)
                     (Some (f (default DoubleValue_default (el1 p))))
                     (wr0 p) (wr1 p).
Definition mutable_wr0 (f : DoubleValue → DoubleValue) (p : ArmJointPosition) :=
  mkArmJointPosition (sh0 p) (sh1 p) (el0 p) (el1 p)
                     (Some (f (default DoubleValue_default (wr0 p))))
                     (wr1 p).
Definition mutable_wr1 (f : DoubleValue → DoubleValue) (p : ArmJointPosition) :=
  mkArmJointPosition (sh0 p) (sh1 p) (el0 p) (el1 p) (wr0 p)
                     (Some (f (default DoubleValue_default (wr1 p)))).

Record RequestHeader := mkRequestHeader
  { request_timestamp : option Timestamp;
    client_name : string;
    disable_rpc_logging : bool }.
Definition RequestHeader_default : RequestHeader := mkRequestHeader None "" false.
Definition get_request_timestamp (p : RequestHeader) : Timestamp :=
  default Timestamp_default (request_timestamp p).
Definition has_request_timestamp (p : RequestHeader) : bool :=
  bool_decide (is_Some (request_timestamp p)).
Definition mutable_request_timestamp (f : Timestamp → Timestamp) (p : RequestHeader) :=
  mkRequestHeader (Some (f (get_request_timestamp p)))
                  (client_name p) (disable_rpc_logging p).
Definition set_client_name (v : string) (p : RequestHeader) :=
  mkRequestHeader (request_timestamp p) v (disable_rpc_logging p).
Definition set_disable_rpc_logging (v : bool) (p : RequestHeader) :=
  mkRequestHeader (request_timestamp p) (client_name p) v.

(** bosdyn.api.CommonError: the [code] enum is carried as its number. *)
Record CommonError := mkCommonError { code : Z; message : string }.
Definition CommonError_default : CommonError := mkCommonError 0%Z "".

Record ResponseHeader := mkResponseHeader
  { request_header : option RequestHeader;
    request_received_timestamp : option Timestamp;
    response_timestamp : option Timestamp;
    error : option CommonError }.
Definition get_request_header (p : ResponseHeader) : RequestHeader :=
  default RequestHeader_default (request_header p).
Definition has_request_header (p : ResponseHeader) : bool :=
  bool_decide (is_Some (request_header p)).
Definition get_request_received_timestamp (p : ResponseHeader) : Timestamp :=
  default Timestamp_default (request_received_timestamp p).
Definition has_request_received_timestamp (p : ResponseHeader) : bool :=
  bool_decide (is_Some (request_received_timestamp p)).
Definition get_response_timestamp (p : ResponseHeader) : Timestamp :=
  default Timestamp_default (response_timestamp p).
Definition has_response_timestamp (p : ResponseHeader) : bool :=
  bool_decide (is_Some (response_timestamp p)).
Definition get_error (p : ResponseHeader) : CommonError :=
  default CommonError_default (error p).
Definition has_error (p : ResponseHeader) : bool :=
  bool_decide (is_Some (error p)).

End Proto.

(** ** common_conversions.cpp

    Every conversion writes into a destination it is handed by reference; the
    destination is an argument here and the written message is the result. *)
Module CommonConversions.

(** *** ROS to Protobuf *)

Definition convertBuiltinInterfacesTimeToProto
    (ros_msg : Msg.Time) (proto : Proto.Timestamp) : Proto.Timestamp :=
  let proto := Proto.set_seconds (Msg.sec ros_msg) proto in
  let proto := Proto.set_nanos (Msg.nanosec ros_msg) proto in
  proto.

Definition convertBosdynMsgsRequestHeaderToProto
    (ros_msg : Msg.RequestHeader) (proto : Proto.RequestHeader) : Proto.RequestHeader :=
  let proto :=
    if Msg.request_timestamp_is_set ros_msg then
      Proto.mutable_request_timestamp
        (convertBuiltinInterfacesTimeToProto (Msg.request_timestamp ros_msg)) proto
    else proto in
  let proto := Proto.set_client_name (Msg.client_name ros_msg) proto in
  let proto := Proto.set_disable_rpc_logging (Msg.disable_rpc_logging ros_msg) proto in
  proto.

Definition convertGeometryMsgsVector3ToProto
    (ros_msg : Msg.Vector3) (proto : Proto.Vec3) : Proto.Vec3 :=
  let proto := Proto.set_x (Msg.vector3_x ros_msg) proto in
  let proto := Proto.set_y (Msg.vector3_y ros_msg) proto in
  let proto := Proto.set_z (Msg.vector3_z ros_msg) proto in
  proto.

Definition convertGeometryMsgsPointToProto
    (ros_msg : Msg.Point) (proto : Proto.Vec3) : Proto.Vec3 :=
  let proto := Proto.set_x (Msg.point_x ros_msg) proto in
  let proto := Proto.set_y (Msg.point_y ros_msg) proto in
  let proto := Proto.set_z (Msg.point_z ros_msg) proto in
  proto.

Definition convertGeometryMsgsQuaternionToProto
    (ros_msg : Msg.Quaternion) (proto : Proto.Quaternion) : Proto.Quaternion :=
  let proto := Proto.set_qw (Msg.quat_w ros_msg) proto in
  let proto := Proto.set_qx (Msg.quat_x ros_msg) proto in
  let proto := Proto.set_qy (Msg.quat_y ros_msg) proto in
  let proto := Proto.set_qz (Msg.quat_z ros_msg) proto in
  proto.

Definition convertGeometryMsgsPoseToProto
    (ros_msg : Msg.Pose) (proto : Proto.SE3Pose) : Proto.SE3Pose :=
  let proto :=
    Proto.mutable_position (convertGeometryMsgsPointToProto (Msg.position ros_msg)) proto in
  let proto :=
    Proto.mutable_rotation
      (convertGeometryMsgsQuaternionToProto (Msg.orientation ros_msg)) proto in
  proto.

Definition convertGloat64ToProto
    (ros_msg : double) (proto : Proto.DoubleValue) : Proto.DoubleValue :=
  Proto.set_value ros_msg proto.

Definition convertBosdynMsgsArmJointPositionToProto
    (ros_msg : Msg.ArmJointPosition) (proto : Proto.ArmJointPosition)
  : Proto.ArmJointPosition :=
  let proto :=
    if Msg.sh0_is_set ros_msg
    then Proto.mutable_sh0 (convertGloat64ToProto (Msg.sh0 ros_msg)) proto else proto in
  let proto :=
    if Msg.sh1_is_set ros_msg
    then Proto.mutable_sh1 (convertGloat64ToProto (Msg.sh1 ros_msg)) proto else proto in
  let proto :=
    if Msg.el0_is_set ros_msg
    then Proto.mutable_el0 (convertGloat64ToProto (Msg.el0 ros_msg)) proto else proto in
  let proto :=
    if Msg.el1_is_set ros_msg
    then Proto.mutable_el1 (convertGloat64ToProto (Msg.el1 ros_msg)) proto else proto in
  let proto :=
    if Msg.wr0_is_set ros_msg
    then Proto.mutable_wr0 (convertGloat64ToProto (Msg.wr0 ros_msg)) proto else proto in
  let proto :=
    if Msg.wr1_is_set ros_msg
    then Proto.mutable_wr1 (convertGloat64ToProto (Msg.wr1 ros_msg)) proto else proto in
  proto.

(** *** Protobuf to ROS *)

Definition convertProtoToBuiltinInterfacesTime
    (proto : Proto.Timestamp) (ros_msg : Msg.Time) : Msg.Time :=
  let ros_msg := Msg.mkTime (MachineInt.to_int32 (Proto.seconds proto)) (Msg.nanosec ros_msg) in
  let ros_msg := Msg.mkTime (Msg.sec ros_msg) (MachineInt.to_uint32 (Proto.nanos proto)) in
  ros_msg.

Definition convertProtoToBosdynMsgsRequestHeader
    (proto : Proto.RequestHeader) (ros_msg : Msg.RequestHeader) : Msg.RequestHeader :=
  Msg.mkRequestHeader
    (convertProtoToBuiltinInterfacesTime
       (Proto.get_request_timestamp proto) (Msg.request_timestamp ros_msg))
    (Proto.has_request_timestamp proto)
    (Proto.client_name proto)
    (Proto.disable_rpc_logging proto).

Definition convertProtoToBosdynMsgsCommonError
    (proto : Proto.CommonError) (ros_msg : Msg.CommonError) : Msg.CommonError :=
  Msg.mkCommonError (Proto.code proto) (Proto.message proto).

Definition convertProtoToBosdynMsgsResponseHeader
    (proto : Proto.ResponseHeader) (ros_msg : Msg.ResponseHeader) : Msg.ResponseHeader :=
  Msg.mkResponseHeader
    (convertProtoToBosdynMsgsRequestHeader
       (Proto.get_request_header proto) (Msg.request_header ros_msg))
    (Proto.has_request_header proto)
    (convertProtoToBuiltinInterfacesTime
       (Proto.get_request_received_timestamp proto) (Msg.request_received_timestamp ros_msg))
    (Proto.has_request_received_timestamp proto)
    (convertProtoToBuiltinInterfacesTime
       (Proto.get_response_timestamp proto) (Msg.response_timestamp ros_msg))
    (Proto.has_response_timestamp proto)
    (convertProtoToBosdynMsgsCommonError (Proto.get_error proto) (Msg.error ros_msg))
    (Proto.has_error proto).

Definition convertProtoToGeometryMsgsVector3
    (proto : Proto.Vec3) (ros_msg : Msg.Vector3) : Msg.Vector3 :=
  Msg.mkVector3 (Proto.x proto) (Proto.y proto) (Proto.z proto).

(** The overload of [convertProtoToGeometryMsgsVector3] that writes a Point. *)
Definition convertProtoToGeometryMsgsVector3_Point
    (proto : Proto.Vec3) (ros_msg : Msg.Point) : Msg.Point :=
  Msg.mkPoint (Proto.x proto) (Proto.y proto) (Proto.z proto).

Definition convertProtoToGeometryMsgsQuaternion
    (proto : Proto.Quaternion) (ros_msg : Msg.Quaternion) : Msg.Quaternion :=
  let ros_msg := Msg.mkQuaternion (Msg.quat_x ros_msg) (Msg.quat_y ros_msg)
                                  (Msg.quat_z ros_msg) (Proto.qw proto) in
  let ros_msg := Msg.mkQuaternion (Proto.qx proto) (Msg.quat_y ros_msg)
                                  (Msg.quat_z ros_msg) (Msg.quat_w ros_msg) in
  let ros_msg := Msg.mkQuaternion (Msg.quat_x ros_msg) (Proto.qy proto)
                                  (Msg.quat_z ros_msg) (Msg.quat_w ros_msg) in
  let ros_msg := Msg.mkQuaternion (Msg.quat_x ros_msg) (Msg.quat_y ros_msg)
                                  (Proto.qz proto) (Msg.quat_w ros_msg) in
  ros_msg.

Definition convertProtoToGeometryMsgsPose
    (proto : Proto.SE3Pose) (ros_msg : Msg.Pose) : Msg.Pose :=
  Msg.mkPose
    (convertProtoToGeometryMsgsVector3_Point (Proto.get_position proto) (Msg.position ros_msg))
    (convertProtoToGeometryMsgsQuaternion (Proto.get_rotation proto) (Msg.orientation ros_msg)).

Definition convertProtoToGeometryMsgsTwist
    (proto : Proto.SE3Velocity) (ros_msg : Msg.Twist) : Msg.Twist :=
  Msg.mkTwist
    (convertProtoToGeometryMsgsVector3 (Proto.get_linear proto) (Msg.linear ros_msg))
    (convertProtoToGeometryMsgsVector3 (Proto.get_angular proto) (Msg.angular ros_msg)).

(** The six joint fields of an arm joint position, to speak of "every field". *)
Inductive ArmJoint := Sh0 | Sh1 | El0 | El1 | Wr0 | Wr1.

Definition ros_joint_value (f : ArmJoint) (m : Msg.ArmJointPosition) : double :=
  match f with
  | Sh0 => Msg.sh0 m | Sh1 => Msg.sh1 m | El0 => Msg.el0 m
  | El1 => Msg.el1 m | Wr0 => Msg.wr0 m | Wr1 => Msg.wr1 m
  end.

Definition ros_joint_is_set (f : ArmJoint) (m : Msg.ArmJointPosition) : bool :=
  match f with
  | Sh0 => Msg.sh0_is_set m | Sh1 => Msg.sh1_is_set m | El0 => Msg.el0_is_set m
  | El1 => Msg.el1_is_set m | Wr0 => Msg.wr0_is_set m | Wr1 => Msg.wr1_is_set m
  end.

Definition proto_joint_field (f : ArmJoint) (p : Proto.ArmJointPosition)
  : option Proto.DoubleValue :=
  match f with
  | Sh0 => Proto.sh0 p | Sh1 => Proto.sh1 p | El0 => Proto.el0 p
  | El1 => Proto.el1 p | Wr0 => Proto.wr0 p | Wr1 => Proto.wr1 p
  end.

(** [has_f()] of the protobuf message. *)
Definition proto_joint_has (f : ArmJoint) (p : Proto.ArmJointPosition) : bool :=
  bool_decide (is_Some (proto_joint_field f p)).

(** *** Sample messages *)

(** An arm joint position that sets the first elbow joint alone. *)
Definition elbow_only : Msg.ArmJointPosition :=
  Msg.mkArmJointPosition 11%Z false 22%Z false 33%Z true 44%Z false 55%Z false 66%Z false.

(** A time before the epoch whose nanoseconds use the top bit of the field. *)
Definition late_time : Msg.Time := Msg.mkTime (-5)%Z 4294967295%Z.

(** A response header that carries a response timestamp and nothing else. *)
Definition bare_response : Proto.ResponseHeader :=
  Proto.mkResponseHeader None None (Some (Proto.mkTimestamp 7 9)) None.

(** A ROS response header with every field filled in, to be overwritten. *)
Definition stale_response_msg : Msg.ResponseHeader :=
  Msg.mkResponseHeader
    (Msg.mkRequestHeader (Msg.mkTime 1 2) true "old client" true) true
    (Msg.mkTime 3 4) true (Msg.mkTime 5 6) true (Msg.mkCommonError 2 "old error") true.

End CommonConversions.

(** ** spot_joint_map.hpp *)
Module SpotJointMap.

Definition kNjointsArm : nat := 19.
Definition kNjointsNoArm : nat := 12.

Definition kJointNameToIndexWithArm : gmap string nat :=
  list_to_map
    [ ("front_left_hip_x", 0); ("front_left_hip_y", 1); ("front_left_knee", 2);
      ("front_right_hip_x", 3); ("front_right_hip_y", 4); ("front_right_knee", 5);
      ("rear_left_hip_x", 6); ("rear_left_hip_y", 7); ("rear_left_knee", 8);
      ("rear_right_hip_x", 9); ("rear_right_hip_y", 10); ("rear_right_knee", 11);
      ("arm_sh0", 12); ("arm_sh1", 13); ("arm_el0", 14); ("arm_el1", 15);
      ("arm_wr0", 16); ("arm_wr1", 17); ("arm_f1x", 18) ].

Definition kJointNameToIndexWithoutArm : gmap string nat :=
  list_to_map
    [ ("front_left_hip_x", 0); ("front_left_hip_y", 1); ("front_left_knee", 2);
      ("front_right_hip_x", 3); ("front_right_hip_y", 4); ("front_right_knee", 5);
      ("rear_left_hip_x", 6); ("rear_left_hip_y", 7); ("rear_left_knee", 8);
      ("rear_right_hip_x", 9); ("rear_right_hip_y", 10); ("rear_right_knee", 11) ].

(** The map [get_namespaced_joint_map] starts from. *)
Definition default_joint_map (has_arm : bool) : gmap string nat :=
  if has_arm then kJointNameToIndexWithArm else kJointNameToIndexWithoutArm.

(** The loop over [default_map] stores every pair under its prefixed key. *)
Definition get_namespaced_joint_map (spot_name : string) (has_arm : bool)
  : gmap string nat :=
  let default_map :=
    if has_arm then kJointNameToIndexWithArm else kJointNameToIndexWithoutArm in
  if decide (spot_name = "") then default_map
  else
    let joint_prefix := spot_name +:+ "/" in
    map_fold (λ first second namespaced_map,
                <[joint_prefix +:+ first := second]> namespaced_map)
             ∅ default_map.

(** sensor_msgs/JointState, without the header the function leaves alone. *)
Record JointState := mkJointState
  { name : list string;
    position : list double;
    velocity : list double;
    effort : list double }.

(** How a call ends: it returns a boolean, or a [std::out_of_range] leaves it. *)
Inductive outcome := Returned (b : bool) | Thrown.

(** [v.at(i) = x]: the write of a checked access, [None] when it throws. *)
Definition at_assign {A} (v : list A) (i : nat) (x : A) : option (list A) :=
  if decide (i < length v) then Some (<[i := x]> v) else None.

(** The body of the [try] block for input joint [i].  The boolean tells
    whether the block ran to its end ([false]: the handler was entered); the
    message is the output as the block left it. *)
Definition try_block (joint_map : gmap string nat) (input_joint_states : JointState)
    (i : nat) (joint_name : string) (output_joint_states : JointState)
  : bool * JointState :=
  let out := output_joint_states in
  match joint_map !! joint_name with
  | None => (false, out)
  | Some joint_index =>
    match at_assign (name out) joint_index joint_name with
    | None => (false, out)
    | Some names =>
      let out := mkJointState names (position out) (velocity out) (effort out) in
      match position input_joint_states !! i with
      | None => (false, out)
      | Some p =>
        match at_assign (position out) joint_index p with
        | None => (false, out)
        | Some positions =>
          let out := mkJointState (name out) positions (velocity out) (effort out) in
          match velocity input_joint_states !! i with
          | None => (false, out)
          | Some v =>
            match at_assign (velocity out) joint_index v with
            | None => (false, out)
            | Some velocities =>
              let out := mkJointState (name out) (position out) velocities (effort out) in
              match effort input_joint_states !! i with
              | None => (false, out)
              | Some e =>
                match at_assign (effort out) joint_index e with
                | None => (false, out)
                | Some efforts =>
                  (true, mkJointState (name out) (position out) (velocity out) efforts)
                end
              end
            end
          end
        end
      end
    end
  end.

(** The [for] loop from index [i] on, with [remaining = njoints - i] rounds
    to go.  [name.at(i)] stands before the [try]: its exception is not caught. *)
Fixpoint order_loop (joint_map : gmap string nat) (input_joint_states : JointState)
    (remaining i : nat) (output_joint_states : JointState) : outcome * JointState :=
  match remaining with
  | 0 => (Returned true, output_joint_states)
  | S remaining' =>
    match name input_joint_states !! i with
    | None => (Thrown, output_joint_states)
    | Some joint_name =>
      match try_block joint_map input_joint_states i joint_name output_joint_states with
      | (true, out) => order_loop joint_map input_joint_states remaining' (S i) out
      | (false, out) => (Returned false, out)
      end
    end
  end.

Definition order_joint_states (spot_name : string) (input_joint_states : JointState)
    (output_joint_states : JointState) : outcome * JointState :=
  let njoints := length (position input_joint_states) in
  let has_arm :=
    if decide (njoints = kNjointsArm) then Some true
    else if decide (njoints = kNjointsNoArm) then Some false
    else None in
  match has_arm with
  | None => (Returned false, output_joint_states)
  | Some has_arm =>
    let out :=
      mkJointState (resize njoints "" (name output_joint_states))
                   (resize njoints double_zero (position output_joint_states))
                   (resize njoints double_zero (velocity output_joint_states))
                   (resize njoints double_zero (effort output_joint_states)) in
    let joint_map := get_namespaced_joint_map spot_name has_arm in
    order_loop joint_map input_joint_states njoints 0 out
  end.

(** The condition under which no checked read of the input can throw. *)
Definition arrays_cover_positions (input : JointState) : Prop :=
  (length (position input) ≤ length (name input))%nat ∧
  (length (position input) ≤ length (velocity input))%nat ∧
  (length (position input) ≤ length (effort input))%nat.

(** The entries of a joint state at one index. *)
Definition joint_row (js : JointState) (k : nat)
  : option string * option double * option double * option double :=
  (name js !! k, position js !! k, velocity js !! k, effort js !! k).

(** All four arrays of a joint state have [n] entries. *)
Definition sized (n : nat) (js : JointState) : Prop :=
  length (name js) = n ∧ length (position js) = n ∧
  length (velocity js) = n ∧ length (effort js) = n.

(** No input joint from position [i] on is stored at index [idx]. *)
Definition untouched_from (jm : gmap string nat) (input : JointState) (i idx : nat)
  : Prop :=
  ∀ k nm, i ≤ k < length (position input) → name input !! k = Some nm →
          jm !! nm ≠ Some idx.

(** A legged robot's twelve joints, in the map's order. *)
Definition leg_joint_names : list string :=
  [ "front_left_hip_x"; "front_left_hip_y"; "front_left_knee";
    "front_right_hip_x"; "front_right_hip_y"; "front_right_knee";
    "rear_left_hip_x"; "rear_left_hip_y"; "rear_left_knee";
    "rear_right_hip_x"; "rear_right_hip_y"; "rear_right_knee" ].

(** The base names by index: the table of the maps read backwards. *)
Definition joint_names_by_index : list string :=
  leg_joint_names
  ++ [ "arm_sh0"; "arm_sh1"; "arm_el0"; "arm_el1"; "arm_wr0"; "arm_wr1"; "arm_f1x" ].

(** The twelve leg joints in the map's own order, with distinct data. *)
Definition ordered_legs : JointState :=
  mkJointState leg_joint_names
               (Z.of_nat <$> seq 1 12) (Z.of_nat <$> seq 21 12) (Z.of_nat <$> seq 41 12).

(** Twelve joints and, behind their names, a thirteenth name no map knows. *)
Definition surplus_name_input : JointState :=
  mkJointState (leg_joint_names ++ ["tail"])
               (Z.of_nat <$> seq 1 12) (Z.of_nat <$> seq 21 12) (Z.of_nat <$> seq 41 12).

Definition empty_JointState : JointState := mkJointState [] [] [] [].

(** Twelve joints that all carry the name of joint 0, with data 1..12. *)
Definition repeated_name_input : JointState :=
  mkJointState (replicate 12 "front_left_hip_x")
               (Z.of_nat <$> seq 1 12) (Z.of_nat <$> seq 1 12) (Z.of_nat <$> seq 1 12).

(** Twelve joints whose second name is unknown. *)
Definition unknown_second_input : JointState :=
  mkJointState (<[1 := "tail"]> leg_joint_names)
               (Z.of_nat <$> seq 1 12) (Z.of_nat <$> seq 1 12) (Z.of_nat <$> seq 1 12).

End SpotJointMap.

(** ** default_robot_state_client.cpp *)
Module RobotStateClient.

(** [tl::expected<T, E>] *)
Inductive expected (T E : Type) : Type :=
| Expected (v : T)
| Unexpected (e : E).
Arguments Expected {T E} v.
Arguments Unexpected {T E} e.

Definition has_value {T E} (r : expected T E) : bool :=
  match r with Expected _ => true | Unexpected _ => false end.

(** The thirteen state categories, in the order of the aggregate's fields. *)
Inductive Category :=
| Battery | Wifi | Foot | Estop | Joints | Tf | OdomTwist | Odom
| Power | SystemFault | Manipulator | EndEffectorForce | BehaviorFault.

Global Instance Category_eq_dec : EqDecision Category.
Proof. solve_decision. Defined.

Definition all_categories : list Category :=
  [ Battery; Wifi; Foot; Estop; Joints; Tf; OdomTwist; Odom;
    Power; SystemFault; Manipulator; EndEffectorForce; BehaviorFault ].

(** The categories whose translator is handed the clock skew. *)
Definition takes_clock_skew (c : Category) : bool :=
  match c with
  | Wifi | Foot | Manipulator => false
  | _ => true
  end.

(** What [getRobotState] takes from headers that are not part of the sources
    at hand: the SDK's status and raw state types, the message types of the
    aggregate, and the translators of conversions/robot_state.hpp.  They are
    parameters of the development.  A translator is a function of its
    arguments, as the specification has it ("each translator is a pure
    function"). *)
Class Sdk := {
  Status : Type;
  status_ok : Status → bool;
  DebugString : Status → string;
  RawRobotState : Type;
  RawRobotState_default : RawRobotState;
  Duration : Type;
  BatteryStateArray : Type;
  WiFiState : Type;
  FootStateArray : Type;
  EStopStateArray : Type;
  JointStateMsg : Type;
  TFMessage : Type;
  TwistWithCovarianceStamped : Type;
  Odometry : Type;
  PowerState : Type;
  SystemFaultState : Type;
  ManipulatorState : Type;
  Vector3Stamped : Type;
  BehaviorFaultState : Type;
  GetBatteryStates : RawRobotState → Duration → BatteryStateArray;
  GetWifiState : RawRobotState → WiFiState;
  GetFootState : RawRobotState → FootStateArray;
  GetEstopStates : RawRobotState → Duration → EStopStateArray;
  GetJointStates : RawRobotState → Duration → string → JointStateMsg;
  GetTf : RawRobotState → Duration → string → string → TFMessage;
  GetOdomTwist : RawRobotState → Duration → TwistWithCovarianceStamped;
  GetOdom : RawRobotState → Duration → string → bool → Odometry;
  GetPowerState : RawRobotState → Duration → PowerState;
  GetSystemFaultState : RawRobotState → Duration → SystemFaultState;
  GetManipulatorState : RawRobotState → ManipulatorState;
  GetEndEffectorForce : RawRobotState → Duration → string → Vector3Stamped;
  GetBehaviorFaultState : RawRobotState → Duration → BehaviorFaultState;
}.

Section Client.
Context `{sdk : Sdk}.

(** The aggregate [RobotState], one field per category. *)
Record RobotState := mkRobotState
  { battery_states : BatteryStateArray;
    wifi_state : WiFiState;
    foot_state : FootStateArray;
    estop_states : EStopStateArray;
    joint_states : JointStateMsg;
    tf : TFMessage;
    odom_twist : TwistWithCovarianceStamped;
    odom : Odometry;
    power_state : PowerState;
    system_fault_state : SystemFaultState;
    manipulator_state : ManipulatorState;
    end_effector_force : Vector3Stamped;
    behavior_fault_state : BehaviorFaultState }.

(** bosdyn::api::RobotStateResponse and the SDK's result pair. *)
Record RobotStateResponse := mkRobotStateResponse
  { robot_state_field : option RawRobotState }.

Definition has_robot_state (r : RobotStateResponse) : bool :=
  bool_decide (is_Some (robot_state_field r)).

Definition robot_state (r : RobotStateResponse) : RawRobotState :=
  default RawRobotState_default (robot_state_field r).

Record RobotStateResultType := mkRobotStateResult
  { status : Status; response : RobotStateResponse }.

(** The two collaborators the client holds: the SDK's robot-state client and
    the time-sync API.  Both are calls into the world outside, which may
    answer differently each time. *)
Class Robot := {
  World : Type;
  GetRobotStateAsync : World → RobotStateResultType * World;
  getClockSkew : World → expected Duration string * World;
}.
Context `{robot : Robot}.

(** What a translator was handed besides the raw state. *)
Record TranslatorArgs := mkArgs
  { arg_clock_skew : option Duration;
    arg_frame_prefix : option string;
    arg_preferred_odom_frame : option string;
    arg_is_using_vision : option bool }.

(** The calls a run makes, in the order it makes them. *)
Inductive Event :=
| EvGetRobotStateAsync
| EvGetClockSkew
| EvTranslator (c : Category) (a : TranslatorArgs).

(** Computations over the world that record their calls. *)
Definition M (A : Type) : Type := World * list Event → A * (World * list Event).

Global Instance M_ret : MRet M := λ A a s, (a, s).
Global Instance M_bind : MBind M :=
  λ A B f m s, let '(a, s') := m s in f a s'.

Definition call_GetRobotStateAsync : M RobotStateResultType :=
  λ s, let '(r, w) := GetRobotStateAsync s.1 in (r, (w, s.2 ++ [EvGetRobotStateAsync])).

Definition call_getClockSkew : M (expected Duration string) :=
  λ s, let '(r, w) := getClockSkew s.1 in (r, (w, s.2 ++ [EvGetClockSkew])).

Definition run_translator {A} (c : Category) (a : TranslatorArgs) (result : A) : M A :=
  λ s, (result, (s.1, s.2 ++ [EvTranslator c a])).

Definition pass_nothing : TranslatorArgs := mkArgs None None None None.
Definition pass_skew (skew : Duration) : TranslatorArgs :=
  mkArgs (Some skew) None None None.
Definition pass_skew_prefix (skew : Duration) (prefix : string) : TranslatorArgs :=
  mkArgs (Some skew) (Some prefix) None None.

(** The client object; the raw pointers to its collaborators are the world. *)
Record DefaultRobotStateClient := mkClient { frame_prefix_ : string }.

(** The constructor. *)
Definition new_DefaultRobotStateClient (robot_name : string) : DefaultRobotStateClient :=
  mkClient (if decide (robot_name = "") then "" else robot_name +:+ "/").

Definition getRobotState (self : DefaultRobotStateClient) (preferred_odom_frame : string)
  : M (expected RobotState string) :=
  get_robot_state_result ← call_GetRobotStateAsync;
  if negb (status_ok (status get_robot_state_result))
     || negb (has_robot_state (response get_robot_state_result))
  then
    mret (Unexpected ("Failed to get robot state: "
                      +:+ DebugString (status get_robot_state_result)))
  else
    clock_skew_result ← call_getClockSkew;
    match clock_skew_result with
    | Unexpected e => mret (Unexpected ("Failed to get latest clock skew: " +:+ e))
    | Expected skew =>
      let rs := robot_state (response get_robot_state_result) in
      let prefix := frame_prefix_ self in
      let vision := String.eqb preferred_odom_frame (prefix +:+ "vision") in
      f1 ← run_translator Battery (pass_skew skew) (GetBatteryStates rs skew);
      f2 ← run_translator Wifi pass_nothing (GetWifiState rs);
      f3 ← run_translator Foot pass_nothing (GetFootState rs);
      f4 ← run_translator Estop (pass_skew skew) (GetEstopStates rs skew);
      f5 ← run_translator Joints (pass_skew_prefix skew prefix)
             (GetJointStates rs skew prefix);
      f6 ← run_translator Tf
             (mkArgs (Some skew) (Some prefix) (Some preferred_odom_frame) None)
             (GetTf rs skew prefix preferred_odom_frame);
      f7 ← run_translator OdomTwist (pass_skew skew) (GetOdomTwist rs skew);
      f8 ← run_translator Odom (mkArgs (Some skew) (Some prefix) None (Some vision))
             (GetOdom rs skew prefix vision);
      f9 ← run_translator Power (pass_skew skew) (GetPowerState rs skew);
      f10 ← run_translator SystemFault (pass_skew skew) (GetSystemFaultState rs skew);
      f11 ← run_translator Manipulator pass_nothing (GetManipulatorState rs);
      f12 ← run_translator EndEffectorForce (pass_skew_prefix skew prefix)
              (GetEndEffectorForce rs skew prefix);
      f13 ← run_translator BehaviorFault (pass_skew skew) (GetBehaviorFaultState rs skew);
      mret (Expected (mkRobotState f1 f2 f3 f4 f5 f6 f7 f8 f9 f10 f11 f12 f13))
    end.

(** A call from a world [w], with an empty record of calls. *)
Definition run_getRobotState (self : DefaultRobotStateClient)
    (preferred_odom_frame : string) (w : World)
  : expected RobotState string * (World * list Event) :=
  getRobotState self preferred_odom_frame (w, []).

(** The condition under which the call gives up after the fetch. *)
Definition fetch_failed (r : RobotStateResultType) : bool :=
  negb (status_ok (status r)) || negb (has_robot_state (response r)).

(** What the robot answers to the fetch of a call from [w], and what the time
    sync answers when it is asked next. *)
Definition fetch_reply (w : World) : RobotStateResultType := (GetRobotStateAsync w).1.
Definition skew_reply (w : World) : expected Duration string :=
  (getClockSkew (GetRobotStateAsync w).2).1.

Definition result_of (self : DefaultRobotStateClient) (preferred_odom_frame : string)
    (w : World) : expected RobotState string :=
  (run_getRobotState self preferred_odom_frame w).1.
Definition calls_of (self : DefaultRobotStateClient) (preferred_odom_frame : string)
    (w : World) : list Event :=
  (run_getRobotState self preferred_odom_frame w).2.2.

(** *** Reading a record of calls *)

Definition is_fetch (e : Event) : bool :=
  match e with EvGetRobotStateAsync => true | _ => false end.
Definition is_skew_query (e : Event) : bool :=
  match e with EvGetClockSkew => true | _ => false end.
Definition is_translator (e : Event) : bool :=
  match e with EvTranslator _ _ => true | _ => false end.

Definition count_fetches (t : list Event) : nat := length (filter is_fetch t).
Definition count_skew_queries (t : list Event) : nat := length (filter is_skew_query t).
Definition count_translators (t : list Event) : nat := length (filter is_translator t).

(** The categories whose translator ran, in the order of the runs. *)
Definition translated (t : list Event) : list Category :=
  omap (λ e, match e with EvTranslator c _ => Some c | _ => None end) t.

(** The arguments the translator of category [c] was handed, per run. *)
Definition args_of (c : Category) (t : list Event) : list TranslatorArgs :=
  omap (λ e, match e with
             | EvTranslator c' a => if decide (c' = c) then Some a else None
             | _ => None
             end) t.

(** The aggregate the translators give on one raw state, skew, prefix and
    preferred odometry frame. *)
Definition assembled (rs : RawRobotState) (skew : Duration) (prefix : string)
    (preferred_odom_frame : string) : RobotState :=
  mkRobotState
    (GetBatteryStates rs skew) (GetWifiState rs) (GetFootState rs)
    (GetEstopStates rs skew) (GetJointStates rs skew prefix)
    (GetTf rs skew prefix preferred_odom_frame) (GetOdomTwist rs skew)
    (GetOdom rs skew prefix (String.eqb preferred_odom_frame (prefix +:+ "vision")))
    (GetPowerState rs skew) (GetSystemFaultState rs skew) (GetManipulatorState rs)
    (GetEndEffectorForce rs skew prefix) (GetBehaviorFaultState rs skew).

(** *** The three ways a call can go *)

(** The thirteen translator runs of a call that got [skew]. *)
Definition translator_runs (skew : Duration) (prefix pref : string) : list Event :=
  [ EvTranslator Battery (pass_skew skew);
    EvTranslator Wifi pass_nothing;
    EvTranslator Foot pass_nothing;
    EvTranslator Estop (pass_skew skew);
    EvTranslator Joints (pass_skew_prefix skew prefix);
    EvTranslator Tf (mkArgs (Some skew) (Some prefix) (Some pref) None);
    EvTranslator OdomTwist (pass_skew skew);
    EvTranslator Odom
      (mkArgs (Some skew) (Some prefix) None (Some (String.eqb pref (prefix +:+ "vision"))));
    EvTranslator Power (pass_skew skew);
    EvTranslator SystemFault (pass_skew skew);
    EvTranslator Manipulator pass_nothing;
    EvTranslator EndEffectorForce (pass_skew_prefix skew prefix);
    EvTranslator BehaviorFault (pass_skew skew) ].

Inductive run_shape (self : DefaultRobotStateClient) (pref : string) (w : World) : Prop :=
| run_fetch_failed :
    fetch_failed (fetch_reply w) = true →
    result_of self pref w =
      Unexpected ("Failed to get robot state: " +:+ DebugString (status (fetch_reply w))) →
    calls_of self pref w = [EvGetRobotStateAsync] →
    run_shape self pref w
| run_skew_failed e :
    fetch_failed (fetch_reply w) = false →
    skew_reply w = Unexpected e →
    result_of self pref w = Unexpected ("Failed to get latest clock skew: " +:+ e) →
    calls_of self pref w = [EvGetRobotStateAsync; EvGetClockSkew] →
    run_shape self pref w
| run_assembled skew :
    fetch_failed (fetch_reply w) = false →
    skew_reply w = Expected skew →
    result_of self pref w =
      Expected (assembled (robot_state (response (fetch_reply w))) skew
                          (frame_prefix_ self) pref) →
    calls_of self pref w =
      EvGetRobotStateAsync :: EvGetClockSkew
        :: translator_runs skew (frame_prefix_ self) pref →
    run_shape self pref w.

(** *** Running the translators in another order

    The specification speaks of permuting the order in which the translators
    run.  [getRobotState_in_order] below is [getRobotState] with its thirteen
    translator calls issued in a given order, each storing what it returns in
    its own member of an aggregate under construction; [complete] hands the
    aggregate out once every member is there. *)

(** An aggregate under construction: the slots filled so far. *)
Record PartialRobotState := mkPartial
  { p_battery_states : option BatteryStateArray;
    p_wifi_state : option WiFiState;
    p_foot_state : option FootStateArray;
    p_estop_states : option EStopStateArray;
    p_joint_states : option JointStateMsg;
    p_tf : option TFMessage;
    p_odom_twist : option TwistWithCovarianceStamped;
    p_odom : option Odometry;
    p_power_state : option PowerState;
    p_system_fault_state : option SystemFaultState;
    p_manipulator_state : option ManipulatorState;
    p_end_effector_force : option Vector3Stamped;
    p_behavior_fault_state : option BehaviorFaultState }.

Definition nothing_translated : PartialRobotState :=
  mkPartial None None None None None None None None None None None None None.



Definition complete (p : PartialRobotState) : option RobotState :=
  match p with
  | mkPartial (Some f1) (Some f2) (Some f3) (Some f4) (Some f5) (Some f6) (Some f7)
              (Some f8) (Some f9) (Some f10) (Some f11) (Some f12) (Some f13) =>
    Some (mkRobotState f1 f2 f3 f4 f5 f6 f7 f8 f9 f10 f11 f12 f13)
  | _ => None
  end.

(** Modelled from the spec: the translators of conversions/robot_state.hpp,
    which are not part of the sources at hand, as the C++ functions they are:
    besides returning its sub-state a translator may read and change the
    world (statics, caches, the collaborators).  Nothing here makes a
    translator pure. *)
Class TranslatorEffects := {
  DoGetBatteryStates : RawRobotState → Duration → World → BatteryStateArray * World;
  DoGetWifiState : RawRobotState → World → WiFiState * World;
  DoGetFootState : RawRobotState → World → FootStateArray * World;
  DoGetEstopStates : RawRobotState → Duration → World → EStopStateArray * World;
  DoGetJointStates : RawRobotState → Duration → string → World → JointStateMsg * World;
  DoGetTf : RawRobotState → Duration → string → string → World → TFMessage * World;
  DoGetOdomTwist :
    RawRobotState → Duration → World → TwistWithCovarianceStamped * World;
  DoGetOdom : RawRobotState → Duration → string → bool → World → Odometry * World;
  DoGetPowerState : RawRobotState → Duration → World → PowerState * World;
  DoGetSystemFaultState : RawRobotState → Duration → World → SystemFaultState * World;
  DoGetManipulatorState : RawRobotState → World → ManipulatorState * World;
  DoGetEndEffectorForce :
    RawRobotState → Duration → string → World → Vector3Stamped * World;
  DoGetBehaviorFaultState :
    RawRobotState → Duration → World → BehaviorFaultState * World;
}.


Context `{effects : TranslatorEffects}.

(** Modelled from the spec: "each translator is a pure function (RawState
    slice, ClockSkew, framePrefix) -> TranslatedSubState", "no translator may
    recompute or re-query skew independently": every translator returns what
    the function of its arguments gives and leaves the world as it found it.
    The translators' code is not part of the sources at hand. *)
Definition translators_are_pure : Prop :=
  (∀ rs skew w, DoGetBatteryStates rs skew w = (GetBatteryStates rs skew, w)) ∧
  (∀ rs w, DoGetWifiState rs w = (GetWifiState rs, w)) ∧
  (∀ rs w, DoGetFootState rs w = (GetFootState rs, w)) ∧
  (∀ rs skew w, DoGetEstopStates rs skew w = (GetEstopStates rs skew, w)) ∧
  (∀ rs skew prefix w,
     DoGetJointStates rs skew prefix w = (GetJointStates rs skew prefix, w)) ∧
  (∀ rs skew prefix frame w,
     DoGetTf rs skew prefix frame w = (GetTf rs skew prefix frame, w)) ∧
  (∀ rs skew w, DoGetOdomTwist rs skew w = (GetOdomTwist rs skew, w)) ∧
  (∀ rs skew prefix vision w,
     DoGetOdom rs skew prefix vision w = (GetOdom rs skew prefix vision, w)) ∧
  (∀ rs skew w, DoGetPowerState rs skew w = (GetPowerState rs skew, w)) ∧
  (∀ rs skew w, DoGetSystemFaultState rs skew w = (GetSystemFaultState rs skew, w)) ∧
  (∀ rs w, DoGetManipulatorState rs w = (GetManipulatorState rs, w)) ∧
  (∀ rs skew prefix w,
     DoGetEndEffectorForce rs skew prefix w = (GetEndEffectorForce rs skew prefix, w)) ∧
  (∀ rs skew w, DoGetBehaviorFaultState rs skew w = (GetBehaviorFaultState rs skew, w)).

(** The call of a translator that may touch the world, recorded. *)
Definition call_translator {A} (c : Category) (a : TranslatorArgs)
    (translator : World → A * World) : M A :=
  λ s, let '(result, w) := translator s.1 in (result, (w, s.2 ++ [EvTranslator c a])).

(** What [getRobotState] hands the translator of category [c] besides the
    raw state. *)
Definition args_handed (c : Category) (skew : Duration) (prefix : string)
    (preferred_odom_frame : string) : TranslatorArgs :=
  match c with
  | Wifi | Foot | Manipulator => pass_nothing
  | Joints | EndEffectorForce => pass_skew_prefix skew prefix
  | Tf => mkArgs (Some skew) (Some prefix) (Some preferred_odom_frame) None
  | Odom =>
    mkArgs (Some skew) (Some prefix) None
           (Some (String.eqb preferred_odom_frame (prefix +:+ "vision")))
  | _ => pass_skew skew
  end.

(** The translator call of category [c], with the arguments [getRobotState]
    gives it, storing its result in the member of [c]. *)
Definition translator_call (c : Category) (rs : RawRobotState) (skew : Duration)
    (prefix : string) (preferred_odom_frame : string) (p : PartialRobotState)
  : M PartialRobotState :=
  let '(mkPartial f1 f2 f3 f4 f5 f6 f7 f8 f9 f10 f11 f12 f13) := p in
  let vision := String.eqb preferred_odom_frame (prefix +:+ "vision") in
  let a := args_handed c skew prefix preferred_odom_frame in
  match c with
  | Battery =>
    f ← call_translator c a (DoGetBatteryStates rs skew);
    mret (mkPartial (Some f) f2 f3 f4 f5 f6 f7 f8 f9 f10 f11 f12 f13)
  | Wifi =>
    f ← call_translator c a (DoGetWifiState rs);
    mret (mkPartial f1 (Some f) f3 f4 f5 f6 f7 f8 f9 f10 f11 f12 f13)
  | Foot =>
    f ← call_translator c a (DoGetFootState rs);
    mret (mkPartial f1 f2 (Some f) f4 f5 f6 f7 f8 f9 f10 f11 f12 f13)
  | Estop =>
    f ← call_translator c a (DoGetEstopStates rs skew);
    mret (mkPartial f1 f2 f3 (Some f) f5 f6 f7 f8 f9 f10 f11 f12 f13)
  | Joints =>
    f ← call_translator c a (DoGetJointStates rs skew prefix);
    mret (mkPartial f1 f2 f3 f4 (Some f) f6 f7 f8 f9 f10 f11 f12 f13)
  | Tf =>
    f ← call_translator c a (DoGetTf rs skew prefix preferred_odom_frame);
    mret (mkPartial f1 f2 f3 f4 f5 (Some f) f7 f8 f9 f10 f11 f12 f13)
  | OdomTwist =>
    f ← call_translator c a (DoGetOdomTwist rs skew);
    mret (mkPartial f1 f2 f3 f4 f5 f6 (Some f) f8 f9 f10 f11 f12 f13)
  | Odom =>
    f ← call_translator c a (DoGetOdom rs skew prefix vision);
    mret (mkPartial f1 f2 f3 f4 f5 f6 f7 (Some f) f9 f10 f11 f12 f13)
  | Power =>
    f ← call_translator c a (DoGetPowerState rs skew);
    mret (mkPartial f1 f2 f3 f4 f5 f6 f7 f8 (Some f) f10 f11 f12 f13)
  | SystemFault =>
    f ← call_translator c a (DoGetSystemFaultState rs skew);
    mret (mkPartial f1 f2 f3 f4 f5 f6 f7 f8 f9 (Some f) f11 f12 f13)
  | Manipulator =>
    f ← call_translator c a (DoGetManipulatorState rs);
    mret (mkPartial f1 f2 f3 f4 f5 f6 f7 f8 f9 f10 (Some f) f12 f13)
  | EndEffectorForce =>
    f ← call_translator c a (DoGetEndEffectorForce rs skew prefix);
    mret (mkPartial f1 f2 f3 f4 f5 f6 f7 f8 f9 f10 f11 (Some f) f13)
  | BehaviorFault =>
    f ← call_translator c a (DoGetBehaviorFaultState rs skew);
    mret (mkPartial f1 f2 f3 f4 f5 f6 f7 f8 f9 f10 f11 f12 (Some f))
  end.

Fixpoint translator_calls (order : list Category) (rs : RawRobotState) (skew : Duration)
    (prefix : string) (preferred_odom_frame : string) (p : PartialRobotState)
  : M PartialRobotState :=
  match order with
  | [] => mret p
  | c :: rest =>
    p ← translator_call c rs skew prefix preferred_odom_frame p;
    translator_calls rest rs skew prefix preferred_odom_frame p
  end.

(** [getRobotState] with its translator calls issued in [order].  The fetch,
    the clock-skew query and the two early returns are those of the source;
    the aggregate is handed out when every member has been stored, which an
    order that leaves a category out never does ([None]: no such program). *)
Definition getRobotState_in_order (order : list Category)
    (self : DefaultRobotStateClient) (preferred_odom_frame : string)
  : M (option (expected RobotState string)) :=
  get_robot_state_result ← call_GetRobotStateAsync;
  if negb (status_ok (status get_robot_state_result))
     || negb (has_robot_state (response get_robot_state_result))
  then
    mret (Some (Unexpected ("Failed to get robot state: "
                            +:+ DebugString (status get_robot_state_result))))
  else
    clock_skew_result ← call_getClockSkew;
    match clock_skew_result with
    | Unexpected e =>
      mret (Some (Unexpected ("Failed to get latest clock skew: " +:+ e)))
    | Expected skew =>
      let rs := robot_state (response get_robot_state_result) in
      p ← translator_calls order rs skew (frame_prefix_ self) preferred_odom_frame
            nothing_translated;
      mret (Expected <$> complete p)
    end.

End Client.

Arguments RobotState : clear implicits.
Arguments RobotState {sdk}.

End RobotStateClient.

(** ** The translators as the specification describes them *)
Module SpecTranslators.
Import RobotStateClient.

(** Modelled from the spec: the clock-skew correction of
    conversions/robot_state.hpp, which is not part of the sources at hand.
    "Every timestamp field copied from the raw snapshot is shifted by the
    single ClockSkew value"; "raw=100, skew +5 -> output 105".  Times and the
    skew are counted in nanoseconds. *)
Definition applyClockSkew (skew : Z) (raw : Z) : Z := (raw + skew)%Z.

(** Modelled from the spec: a raw snapshot, as far as its embedded robot-clock
    timestamps go: the timestamps of each category. *)
Record RawSnapshot := mkRawSnapshot { raw_times : Category → list Z }.

(** Modelled from the spec: a translated sub-state, as far as its frame and
    its corrected timestamps go. *)
Record Translated := mkTranslated { frame_prefix_used : string; times : list Z }.

(** Modelled from the spec: a translator that takes the skew shifts each
    timestamp of its category by it. *)
Definition translate_times (c : Category) (prefix : string)
    (rs : RawSnapshot) (skew : Z) : Translated :=
  mkTranslated prefix (applyClockSkew skew <$> raw_times rs c).

(** The SDK's status: truthy or not, with its diagnostic text. *)
Record FakeStatus := mkStatus { ok : bool; text : string }.

(** Modelled from the spec: the thirteen translators of
    conversions/robot_state.hpp, which are not part of the sources at hand. *)
Global Instance spec_sdk : Sdk := {|
  Status := FakeStatus;
  status_ok := ok;
  DebugString := text;
  RawRobotState := RawSnapshot;
  RawRobotState_default := mkRawSnapshot (λ _, []);
  Duration := Z;
  BatteryStateArray := Translated;
  WiFiState := unit;
  FootStateArray := unit;
  EStopStateArray := Translated;
  JointStateMsg := Translated;
  TFMessage := Translated;
  TwistWithCovarianceStamped := Translated;
  Odometry := Translated * bool;
  PowerState := Translated;
  SystemFaultState := Translated;
  ManipulatorState := unit;
  Vector3Stamped := Translated;
  BehaviorFaultState := Translated;
  GetBatteryStates := translate_times Battery "";
  GetWifiState := λ _, ();
  GetFootState := λ _, ();
  GetEstopStates := translate_times Estop "";
  GetJointStates := λ rs skew prefix, translate_times Joints prefix rs skew;
  GetTf := λ rs skew prefix _, translate_times Tf prefix rs skew;
  GetOdomTwist := translate_times OdomTwist "";
  GetOdom := λ rs skew prefix vision, (translate_times Odom prefix rs skew, vision);
  GetPowerState := translate_times Power "";
  GetSystemFaultState := translate_times SystemFault "";
  GetManipulatorState := λ _, ();
  GetEndEffectorForce := λ rs skew prefix, translate_times EndEffectorForce prefix rs skew;
  GetBehaviorFaultState := translate_times BehaviorFault "";
|}.

(** The corrected timestamps an aggregate holds for a category. *)
Definition corrected_times (c : Category) (st : RobotState) : list Z :=
  match c with
  | Battery => times (battery_states st)
  | Estop => times (estop_states st)
  | Joints => times (joint_states st)
  | Tf => times (tf st)
  | OdomTwist => times (odom_twist st)
  | Odom => times (odom st).1
  | Power => times (power_state st)
  | SystemFault => times (system_fault_state st)
  | EndEffectorForce => times (end_effector_force st)
  | BehaviorFault => times (behavior_fault_state st)
  | Wifi | Foot | Manipulator => []
  end.

(** A scripted robot: the replies its two services will give, in order.  A
    service that has run out of replies fails. *)
Record Script := mkScript
  { fetch_replies : list RobotStateResultType;
    skew_replies : list (expected Z string) }.

Definition no_reply : RobotStateResultType :=
  mkRobotStateResult (mkStatus false "no reply") (mkRobotStateResponse None).

Global Instance scripted_robot : Robot := {|
  World := Script;
  GetRobotStateAsync w :=
    match fetch_replies w with
    | r :: rest => (r, mkScript rest (skew_replies w))
    | [] => (no_reply, w)
    end;
  getClockSkew w :=
    match skew_replies w with
    | r :: rest => (r, mkScript (fetch_replies w) rest)
    | [] => (Unexpected "no time sync", w)
    end;
|}.

Definition status_fine : FakeStatus := mkStatus true "OK".
Definition status_timeout : FakeStatus := mkStatus false "RPC timed out".

(** A raw state whose battery stamp is 100 and whose joint stamp is 250. *)
Definition sample_raw : RawSnapshot :=
  mkRawSnapshot (λ c, match c with
                      | Battery => [100%Z]
                      | Joints => [250%Z]
                      | _ => []
                      end).

Definition good_reply : RobotStateResultType :=
  mkRobotStateResult status_fine (mkRobotStateResponse (Some sample_raw)).
Definition failed_reply : RobotStateResultType :=
  mkRobotStateResult status_timeout (mkRobotStateResponse None).
Definition empty_reply : RobotStateResultType :=
  mkRobotStateResult status_fine (mkRobotStateResponse None).

(** The time sync would answer 5 first and 7 to a second query. *)
Definition healthy_world : @World spec_sdk scripted_robot :=
  mkScript [good_reply; good_reply] [Expected 5%Z; Expected 7%Z].
Definition unreachable_world : @World spec_sdk scripted_robot :=
  mkScript [failed_reply; good_reply] [Expected 5%Z].
Definition payloadless_world : @World spec_sdk scripted_robot :=
  mkScript [empty_reply; good_reply] [Expected 5%Z].
Definition unsynced_world : @World spec_sdk scripted_robot :=
  mkScript [good_reply] [Unexpected "no sync yet"; Expected 5%Z].

Definition spot1 : DefaultRobotStateClient := new_DefaultRobotStateClient "spot1".


(** The battery stamps of what a call returned. *)
Definition battery_stamps (r : option (expected RobotState string)) : list Z :=
  match r with
  | Some (Expected st) => corrected_times Battery st
  | _ => []
  end.

(** Translators that break the specification's contract: those of the
    battery and of the joints ask the time sync anew and correct by what it
    answers, falling back on the skew they were handed when it fails. *)
Definition requery (skew : Z) (w : Script) : Z * Script :=
  match getClockSkew w with
  | (Expected again, w') => (again, w')
  | (Unexpected _, w') => (skew, w')
  end.

Definition requerying_translators : @TranslatorEffects spec_sdk scripted_robot := {|
  DoGetBatteryStates rs skew w :=
    let '(again, w') := requery skew w in (translate_times Battery "" rs again, w');
  DoGetWifiState rs w := (GetWifiState rs, w);
  DoGetFootState rs w := (GetFootState rs, w);
  DoGetEstopStates rs skew w := (GetEstopStates rs skew, w);
  DoGetJointStates rs skew prefix w :=
    let '(again, w') := requery skew w in (translate_times Joints prefix rs again, w');
  DoGetTf rs skew prefix frame w := (GetTf rs skew prefix frame, w);
  DoGetOdomTwist rs skew w := (GetOdomTwist rs skew, w);
  DoGetOdom rs skew prefix vision w := (GetOdom rs skew prefix vision, w);
  DoGetPowerState rs skew w := (GetPowerState rs skew, w);
  DoGetSystemFaultState rs skew w := (GetSystemFaultState rs skew, w);
  DoGetManipulatorState rs w := (GetManipulatorState rs, w);
  DoGetEndEffectorForce rs skew prefix w := (GetEndEffectorForce rs skew prefix, w);
  DoGetBehaviorFaultState rs skew w := (GetBehaviorFaultState rs skew, w);
|}.

End SpecTranslators.



(** ** Ranges of the protobuf time fields *)
Module ProtoRanges.

Definition int64_range (z : Z) : Prop := (- 2 ^ 63 <= z < 2 ^ 63)%Z.

(** google.protobuf.Timestamp holds an [int64] and an [int32]. *)
Definition wf_Timestamp (ts : Proto.Timestamp) : Prop :=
  int64_range (Proto.seconds ts) ∧ MachineInt.int32_range (Proto.nanos ts).

End ProtoRanges.

(** ** Which translators are handed the frame prefix *)
Module TranslatorFrames.
Import RobotStateClient.

(** The categories whose translator is handed [frame_prefix_]. *)
Definition takes_frame_prefix (c : Category) : bool :=
  match c with
  | Joints | Tf | Odom | EndEffectorForce => true
  | _ => false
  end.

End TranslatorFrames.

(** ** spot_joint_map.hpp: [get_joint_index] *)
Module JointIndex.
Import Stdlib.Strings.Ascii SpotJointMap.

(** [s.find("/")]: the position of the first slash, [None] for [npos]. *)
Fixpoint find_slash (s : string) : option nat :=
  match s with
  | EmptyString => None
  | String c rest => if Ascii.eqb c "/"%char then Some 0 else S <$> find_slash rest
  end.

(** [s.substr(pos)] for a position within the string. *)
Fixpoint substr (pos : nat) (s : string) : string :=
  match pos, s with
  | 0, _ => s
  | S pos', String _ rest => substr pos' rest
  | S _, EmptyString => EmptyString
  end.

(** The joint name with its namespace, if it has one, removed. *)
Definition strip_namespace (joint_str : string) : string :=
  match find_slash joint_str with
  | Some namespace_pos => substr (namespace_pos + 1) joint_str
  | None => joint_str
  end.

(** The call returns an [int], or the [std::out_of_range] of
    [unordered_map::at] leaves it. *)
Inductive index_outcome := JointIndex (i : Z) | IndexThrown.

Definition get_joint_index (joint_str : string) (has_arm : bool) : index_outcome :=
  let joint_name := strip_namespace joint_str in
  if bool_decide (kJointNameToIndexWithArm !! joint_name = None)
     && bool_decide (kJointNameToIndexWithoutArm !! joint_name = None)
  then JointIndex (-1)
  else
    match (if has_arm then kJointNameToIndexWithArm
           else kJointNameToIndexWithoutArm) !! joint_name with
    | Some joint_idx => JointIndex (Z.of_nat joint_idx)
    | None => IndexThrown
    end.

End JointIndex.

(** ** Reading one input joint *)
Module JointReading.
Import SpotJointMap.

(** Round [k] of the loop of [order_joint_states] runs to its end: the
    name is there and known, and so are the velocity and the effort. *)
Definition joint_readable (jm : gmap string nat) (input : JointState) (k : nat) : Prop :=
  ∃ nm, name input !! k = Some nm ∧ is_Some (jm !! nm) ∧
        k < length (velocity input) ∧ k < length (effort input).

(** The index the map gives the [k]-th input name, if any. *)
Definition index_of_joint (jm : gmap string nat) (input : JointState) (k : nat)
  : option nat :=
  name input !! k ≫= λ nm, jm !! nm.

End JointReading.

(** ** wiggle_arm.cpp *)
Module WiggleArm.
Import SpotJointMap.

(** The file's own table of joint names. *)
Definition kJointNameToIndex : gmap string nat :=
  list_to_map
    [ ("front_left_hip_x", 0); ("front_left_hip_y", 1); ("front_left_knee", 2);
      ("front_right_hip_x", 3); ("front_right_hip_y", 4); ("front_right_knee", 5);
      ("rear_left_hip_x", 6); ("rear_left_hip_y", 7); ("rear_left_knee", 8);
      ("rear_right_hip_x", 9); ("rear_right_hip_y", 10); ("rear_right_knee", 11);
      ("arm_sh0", 12); ("arm_sh1", 13); ("arm_el0", 14); ("arm_el1", 15);
      ("arm_wr0", 16); ("arm_wr1", 17); ("arm_f1x", 18) ].

Inductive WiggleState := WIGGLE_DOWN | WIGGLE_MIDDLE | WIGGLE_UP | RESET.

(** The arithmetic on doubles the node uses.  What the operations compute
    is left open: the node is modelled for any floating-point arithmetic. *)
Class DoubleOps := {
  fmul : double → double → double;
  fadd : double → double → double;
  fsub : double → double → double;
  fdiv : double → double → double;
  double_of_int : Z → double;
  int_of_double : double → Z;
  double_one : double;
}.

Section Node.
Context `{ops : DoubleOps}.

(** The members of the node that its callbacks read and write.  [command_]
    is the [data] of the command message. *)
Record Node := mkNode
  { nominal_joint_angles_ : list double;
    joints_to_wiggle_ : list Z;
    wiggle_up_offsets_ : list double;
    wiggle_down_offsets_ : list double;
    njoints_to_wiggle_ : nat;
    command_ : list double;
    wiggle_state_ : WiggleState;
    points_per_motion_ : Z;
    initialized_ : bool;
    count_ : Z }.

(** How the loop of [joint_states_callback] ends: it runs through, it
    breaks out of the handler, or [name.at(i)] throws past it. *)
Inductive loop_end := RanThrough | BrokeOut | Escaped.

Fixpoint read_angles (msg : JointState) (remaining i : nat) (angles : list double)
  : loop_end * list double :=
  match remaining with
  | 0 => (RanThrough, angles)
  | S remaining' =>
    match name msg !! i with
    | None => (Escaped, angles)
    | Some joint_name =>
      match kJointNameToIndex !! joint_name with
      | None => (BrokeOut, angles)
      | Some joint_index =>
        match position msg !! i with
        | None => (BrokeOut, angles)
        | Some p =>
          match at_assign angles joint_index p with
          | None => (BrokeOut, angles)
          | Some angles' => read_angles msg remaining' (S i) angles'
          end
        end
      end
    end
  end.

(** The boolean tells whether the callback returned ([false]: an exception
    left it). *)
Definition joint_states_callback (msg : JointState) (self : Node) : bool * Node :=
  if initialized_ self then (true, self)
  else
    let njoints := length (position msg) in
    let angles := resize njoints double_zero (nominal_joint_angles_ self) in
    let with_angles (angles : list double) (command : list double) (initialized : bool) :=
      mkNode angles (joints_to_wiggle_ self) (wiggle_up_offsets_ self)
             (wiggle_down_offsets_ self) (njoints_to_wiggle_ self) command
             (wiggle_state_ self) (points_per_motion_ self) initialized (count_ self) in
    match read_angles msg njoints 0 angles with
    | (RanThrough, angles) => (true, with_angles angles angles true)
    | (BrokeOut, angles) => (true, with_angles angles (command_ self) false)
    | (Escaped, angles) => (false, with_angles angles (command_ self) false)
    end.

Definition state_transition (self : Node) : Node :=
  let next :=
    match wiggle_state_ self with
    | WIGGLE_DOWN => WIGGLE_MIDDLE
    | WIGGLE_MIDDLE => WIGGLE_UP
    | WIGGLE_UP => RESET
    | RESET => WIGGLE_DOWN
    end in
  mkNode (nominal_joint_angles_ self) (joints_to_wiggle_ self) (wiggle_up_offsets_ self)
         (wiggle_down_offsets_ self) (njoints_to_wiggle_ self) (command_ self)
         next (points_per_motion_ self) (initialized_ self) (count_ self).

(** [v.at(joint)] for an [int64_t] index: a negative index turns into a
    [size_t] beyond any vector, so the access throws. *)
Definition vector_at {A} (v : list A) (joint : Z) : option A :=
  if decide (0 ≤ joint)%Z then v !! Z.to_nat joint else None.

Definition vector_assign {A} (v : list A) (joint : Z) (x : A) : option (list A) :=
  if decide (0 ≤ joint)%Z then at_assign v (Z.to_nat joint) x else None.

(** The loop of [populate_command] from [i] on; [false] when an access
    threw, with the data as written so far. *)
Fixpoint populate_loop (joints : list Z) (nominal offsets : list double)
    (percentage : double) (remaining i : nat) (data : list double)
  : bool * list double :=
  match remaining with
  | 0 => (true, data)
  | S remaining' =>
    match joints !! i with
    | None => (false, data)
    | Some joint =>
      match offsets !! i, vector_at nominal joint with
      | Some offset, Some angle =>
        match vector_assign data joint (fadd (fmul percentage offset) angle) with
        | Some data' =>
          populate_loop joints nominal offsets percentage remaining' (S i) data'
        | None => (false, data)
        end
      | _, _ => (false, data)
      end
    end
  end.

Definition with_command (self : Node) (data : list double) : Node :=
  mkNode (nominal_joint_angles_ self) (joints_to_wiggle_ self) (wiggle_up_offsets_ self)
         (wiggle_down_offsets_ self) (njoints_to_wiggle_ self) data
         (wiggle_state_ self) (points_per_motion_ self) (initialized_ self) (count_ self).

Definition with_count (self : Node) (count : Z) : Node :=
  mkNode (nominal_joint_angles_ self) (joints_to_wiggle_ self) (wiggle_up_offsets_ self)
         (wiggle_down_offsets_ self) (njoints_to_wiggle_ self) (command_ self)
         (wiggle_state_ self) (points_per_motion_ self) (initialized_ self) count.

Definition populate_command (offsets : list double) (percentage : double) (self : Node)
  : bool * Node :=
  let '(ok, data) :=
    populate_loop (joints_to_wiggle_ self) (nominal_joint_angles_ self) offsets
                  percentage (njoints_to_wiggle_ self) 0 (command_ self) in
  (ok, with_command self data).

Definition populate_command_from_state (percentage : double) (self : Node)
  : bool * Node :=
  match wiggle_state_ self with
  | WIGGLE_DOWN => populate_command (wiggle_down_offsets_ self) percentage self
  | WIGGLE_MIDDLE =>
    populate_command (wiggle_down_offsets_ self) (fsub double_one percentage) self
  | WIGGLE_UP => populate_command (wiggle_up_offsets_ self) percentage self
  | RESET => populate_command (wiggle_up_offsets_ self) (fsub double_one percentage) self
  end.

(** One firing of the timer: nothing happens before the node is
    initialized; else a command is published, or an exception leaves. *)
Inductive tick :=
| NotInitialized
| Published (command : list double) (self' : Node)
| TickThrown (self' : Node).

Definition timer_callback (self : Node) : tick :=
  if negb (initialized_ self) then NotInitialized
  else
    let self :=
      if decide (points_per_motion_ self < count_ self)%Z
      then with_count (state_transition self) 0
      else self in
    let percentage :=
      fdiv (double_of_int (count_ self)) (double_of_int (points_per_motion_ self)) in
    match populate_command_from_state percentage self with
    | (true, self) =>
      Published (command_ self) (with_count self (MachineInt.to_int32 (count_ self + 1)))
    | (false, self) => TickThrown self
    end.

(** The timer firing [k] times in a row; [None] once a firing threw or
    found the node not initialized. *)
Fixpoint fire (k : nat) (self : Node) : option Node :=
  match k with
  | 0 => Some self
  | S k' =>
    match timer_callback self with
    | Published _ self' => fire k' self'
    | _ => None
    end
  end.

(** The node can wiggle: its wiggled joints are entries of the command and
    of the nominal angles, and it has an offset for each. *)
Definition can_wiggle (self : Node) : Prop :=
  njoints_to_wiggle_ self = length (joints_to_wiggle_ self) ∧
  length (wiggle_up_offsets_ self) = length (joints_to_wiggle_ self) ∧
  length (wiggle_down_offsets_ self) = length (joints_to_wiggle_ self) ∧
  Forall (λ joint, (0 ≤ joint)%Z ∧
                   Z.to_nat joint < length (command_ self) ∧
                   Z.to_nat joint < length (nominal_joint_angles_ self))
         (joints_to_wiggle_ self).

End Node.

End WiggleArm.

(** ** The phase of the wiggle: its state and the count within it *)
Module WigglePhase.
Import WiggleArm.

Definition next_state (s : WiggleState) : WiggleState :=
  match s with
  | WIGGLE_DOWN => WIGGLE_MIDDLE
  | WIGGLE_MIDDLE => WIGGLE_UP
  | WIGGLE_UP => RESET
  | RESET => WIGGLE_DOWN
  end.

(** What one firing of the timer does to the state and the count. *)
Definition phase_step (points_per_motion : Z) (phase : WiggleState * Z)
  : WiggleState * Z :=
  if decide (points_per_motion < phase.2)%Z then (next_state phase.1, 1%Z)
  else (phase.1, (phase.2 + 1)%Z).

Fixpoint phase_after (points_per_motion : Z) (k : nat) (phase : WiggleState * Z)
  : WiggleState * Z :=
  match k with
  | 0 => phase
  | S k' => phase_after points_per_motion k' (phase_step points_per_motion phase)
  end.

(** What the timer needs, and keeps, from one firing to the next. *)
Definition ready `{ops : DoubleOps} (points_per_motion : Z) (self : Node) : Prop :=
  can_wiggle self ∧ initialized_ self = true ∧
  points_per_motion_ self = points_per_motion ∧
  MachineInt.int32_range (count_ self).

End WigglePhase.

(** ** Sample values for running the models *)
Module Samples.
Import SpotJointMap WiggleArm.

(** A timestamp whose seconds do not fit 32 bits. *)
Definition far_future : Proto.Timestamp := Proto.mkTimestamp 4294967296 7.

(** A request header with a timestamp that is not flagged as set. *)
Definition unflagged_header : Msg.RequestHeader :=
  Msg.mkRequestHeader (Msg.mkTime 12 34) false "client" true.

(** A stand-in for the arithmetic on doubles, to run the node with: the
    integers. *)
Global Instance integer_ops : DoubleOps := {|
  fmul := Z.mul;
  fadd := Z.add;
  fsub := Z.sub;
  fdiv := Z.div;
  double_of_int := id;
  int_of_double := id;
  double_one := 1%Z;
|}.

(** A node that wiggles joints 1 and 4 of twelve, two points per motion. *)
Definition small_node : Node :=
  mkNode (Z.of_nat <$> seq 100 12) [1%Z; 4%Z] [10%Z; 20%Z] [30%Z; 40%Z] 2
         (Z.of_nat <$> seq 100 12) WIGGLE_UP 2 true 3.

(** The same node asked to wiggle an arm joint it has no entry for. *)
Definition overreaching_node : Node :=
  mkNode (Z.of_nat <$> seq 100 12) [1%Z; 15%Z] [10%Z; 20%Z] [30%Z; 40%Z] 2
         (Z.of_nat <$> seq 100 12) WIGGLE_UP 2 true 3.

(** A node that has not received joint states yet, asked to wiggle joints 1
    and 4. *)
Definition fresh_node : Node :=
  mkNode [] [1%Z; 4%Z] [10%Z; 20%Z] [30%Z; 40%Z] 2 [] WIGGLE_DOWN 100 false 77.

(** The twelve leg joints with positions and efforts but no velocities, as
    publishers that leave the velocity array empty send them. *)
Definition legs_without_velocity : JointState :=
  mkJointState leg_joint_names (Z.of_nat <$> seq 1 12) [] (Z.of_nat <$> seq 41 12).

End Samples.

(** * Properties *)

(** ** The robot-state client *)
Section ClientFacts.
Import RobotStateClient.
Context `{sdk : Sdk} `{robot : !Robot}.

Lemma run_getRobotState_unfold self pref w :
  run_getRobotState self pref w =
    let '(r, w1) := GetRobotStateAsync w in
    if fetch_failed r then
      (Unexpected ("Failed to get robot state: " +:+ DebugString (status r)),
       (w1, [EvGetRobotStateAsync]))
    else
      let '(sk, w2) := getClockSkew w1 in
      match sk with
      | Unexpected e =>
        (Unexpected ("Failed to get latest clock skew: " +:+ e),
         (w2, [EvGetRobotStateAsync; EvGetClockSkew]))
      | Expected skew =>
        (Expected (assembled (robot_state (response r)) skew (frame_prefix_ self) pref),
         (w2, EvGetRobotStateAsync :: EvGetClockSkew
                :: translator_runs skew (frame_prefix_ self) pref))
      end.
Proof.
  unfold run_getRobotState, getRobotState, mbind, M_bind, mret, M_ret,
    call_GetRobotStateAsync, call_getClockSkew, run_translator, fetch_failed.
  cbn [fst snd].
  destruct (GetRobotStateAsync w) as [r w1].
  destruct (negb (status_ok (status r)) || negb (has_robot_state (response r)));
    [reflexivity|].
  cbn [fst snd]. destruct (getClockSkew w1) as [[skew|e] w2]; reflexivity.
Qed.

Lemma getRobotState_shape self pref w : run_shape self pref w.
Proof.
  pose proof (run_getRobotState_unfold self pref w) as Hrun.
  destruct (GetRobotStateAsync w) as [r w1] eqn:Hr.
  destruct (fetch_failed r) eqn:Hf.
  - apply run_fetch_failed;
      unfold result_of, calls_of, fetch_reply; rewrite ?Hrun, ?Hr; done.
  - destruct (getClockSkew w1) as [[skew|e] w2] eqn:Hs.
    + apply (run_assembled _ _ _ skew);
        unfold result_of, calls_of, fetch_reply, skew_reply;
        rewrite ?Hrun, ?Hr; cbn [fst snd]; rewrite ?Hs; done.
    + apply (run_skew_failed _ _ _ e);
        unfold result_of, calls_of, fetch_reply, skew_reply;
        rewrite ?Hrun, ?Hr; cbn [fst snd]; rewrite ?Hs; done.
Qed.

Lemma fetch_failed_true (r : RobotStateResultType) :
  fetch_failed r = true ↔
  status_ok (status r) = false ∨ has_robot_state (response r) = false.
Proof.
  unfold fetch_failed.
  destruct (status_ok (status r)), (has_robot_state (response r)); cbn; intuition congruence.
Qed.

Lemma fetch_failed_false (r : RobotStateResultType) :
  fetch_failed r = false ↔
  status_ok (status r) = true ∧ has_robot_state (response r) = true.
Proof.
  unfold fetch_failed.
  destruct (status_ok (status r)), (has_robot_state (response r)); cbn; intuition congruence.
Qed.

(** C1. A failed fetch (falsy status, or a response without the robot_state
    payload) ends the call with an error before the clock skew is asked for
    and before any translator runs; a failed clock-skew query ends it with an
    error before any translator runs; an aggregate is returned exactly when
    both succeed, and then every one of the thirteen translators has run and
    every field of the aggregate holds its translator's output. *)
Theorem getRobotState_all_or_nothing self pref w :
  (status_ok (status (fetch_reply w)) = false ∨
   has_robot_state (response (fetch_reply w)) = false →
     has_value (result_of self pref w) = false ∧
     count_skew_queries (calls_of self pref w) = 0 ∧
     count_translators (calls_of self pref w) = 0) ∧
  (status_ok (status (fetch_reply w)) = true →
   has_robot_state (response (fetch_reply w)) = true →
   has_value (skew_reply w) = false →
     has_value (result_of self pref w) = false ∧
     count_translators (calls_of self pref w) = 0) ∧
  (has_value (result_of self pref w) = true ↔
     (status_ok (status (fetch_reply w)) = true ∧
      has_robot_state (response (fetch_reply w)) = true) ∧
     has_value (skew_reply w) = true) ∧
  (∀ st, result_of self pref w = Expected st →
     translated (calls_of self pref w) = all_categories ∧
     count_translators (calls_of self pref w) = 13 ∧
     ∃ skew, skew_reply w = Expected skew ∧
       st = assembled (robot_state (response (fetch_reply w))) skew
                      (frame_prefix_ self) pref).
Proof.
  rewrite <- fetch_failed_true, <- fetch_failed_false.
  destruct (getRobotState_shape self pref w)
    as [Hf Hr Hc | e Hf Hs Hr Hc | skew Hf Hs Hr Hc];
    rewrite Hr, Hc, Hf; try rewrite Hs; cbn [has_value].
  - split; [done|]. split; [done|]. split; [|done].
    split; [done|]. intros [? _]; done.
  - split; [done|]. split; [done|]. split; [|done].
    split; [done|]. intros [_ ?]; done.
  - split; [done|]. split; [done|]. split; [done|].
    intros st [= <-]. split; [reflexivity|]. split; [reflexivity|].
    exists skew. done.
Qed.

(** C5. The call reports a fetch failure exactly when the status is falsy or
    the response lacks the robot_state payload; the error then carries the
    status's DebugString; and every call issues the fetch once. *)
Theorem getRobotState_fetch_failure self pref w :
  (result_of self pref w =
     Unexpected ("Failed to get robot state: " +:+ DebugString (status (fetch_reply w)))
   ↔ status_ok (status (fetch_reply w)) = false ∨
     has_robot_state (response (fetch_reply w)) = false) ∧
  count_fetches (calls_of self pref w) = 1.
Proof.
  rewrite <- fetch_failed_true.
  destruct (getRobotState_shape self pref w)
    as [Hf Hr Hc | e Hf Hs Hr Hc | skew Hf Hs Hr Hc];
    rewrite Hr, Hc, Hf.
  - done.
  - split; [|done]. split; [|done]. cbn. intros [=].
  - split; [|done]. split; done.
Qed.

Lemma string_length_app (a b : string) :
  String.length (a +:+ b) = String.length a + String.length b.
Proof.
  induction a as [|c a IH]; [reflexivity|].
  change (S (String.length (a +:+ b)) = S (String.length a + String.length b)).
  by f_equal.
Qed.

Lemma odom_is_not_vision (prefix : string) : prefix +:+ "odom" ≠ prefix +:+ "vision".
Proof. intros H%(inj (String.app prefix)). discriminate H. Qed.

Lemma short_name_is_not_vision (prefix other : string) :
  String.length other < 6 → other ≠ prefix +:+ "vision".
Proof.
  intros Hlen ->. rewrite string_length_app in Hlen. cbn in Hlen. lia.
Qed.

(** C3. The boolean handed to the odometry translator is true exactly when
    the preferred odometry frame is the frame prefix followed by "vision";
    the prefix followed by "odom", and a name such as "map", give false; and
    the preferred frame never decides whether the call succeeds. *)
Theorem odometry_frame_choice self pref w :
  (∀ st, result_of self pref w = Expected st →
     ∃ skew vision,
       skew_reply w = Expected skew ∧
       args_of Odom (calls_of self pref w) =
         [mkArgs (Some skew) (Some (frame_prefix_ self)) None (Some vision)] ∧
       odom st = GetOdom (robot_state (response (fetch_reply w))) skew
                         (frame_prefix_ self) vision ∧
       (vision = true ↔ pref = frame_prefix_ self +:+ "vision") ∧
       (pref = frame_prefix_ self +:+ "odom" → vision = false) ∧
       (pref = "map" → vision = false)) ∧
  (∀ pref', has_value (result_of self pref' w) = has_value (result_of self pref w)).
Proof.
  split.
  - intros st Hst.
    destruct (getRobotState_shape self pref w)
      as [Hf Hr Hc | e Hf Hs Hr Hc | skew Hf Hs Hr Hc];
      rewrite Hr in Hst; try discriminate Hst.
    injection Hst as <-.
    exists skew, (String.eqb pref (frame_prefix_ self +:+ "vision")).
    rewrite Hc. split; [done|]. split; [reflexivity|]. split; [reflexivity|].
    split; [apply String.eqb_eq|]. split.
    + intros ->. apply String.eqb_neq, odom_is_not_vision.
    + intros ->. apply String.eqb_neq, short_name_is_not_vision. cbn. lia.
  - intros pref'.
    destruct (getRobotState_shape self pref w)
      as [Hf Hr Hc | e Hf Hs Hr Hc | skew Hf Hs Hr Hc];
    destruct (getRobotState_shape self pref' w)
      as [Hf' Hr' Hc' | e' Hf' Hs' Hr' Hc' | skew' Hf' Hs' Hr' Hc'];
    rewrite Hr, Hr'; cbn; congruence.
Qed.

(** In a call that returns an aggregate the clock skew is asked for once, and
    the value of that one answer is what each translator that takes a skew
    is handed. *)
Lemma one_skew_for_all self pref w st :
  result_of self pref w = Expected st →
  ∃ skew,
    skew_reply w = Expected skew ∧
    count_skew_queries (calls_of self pref w) = 1 ∧
    (∀ c, arg_clock_skew <$> args_of c (calls_of self pref w) =
          [if takes_clock_skew c then Some skew else None]) ∧
    st = assembled (robot_state (response (fetch_reply w))) skew
                   (frame_prefix_ self) pref.
Proof.
  intros Hst.
  destruct (getRobotState_shape self pref w)
    as [Hf Hr Hc | e Hf Hs Hr Hc | skew Hf Hs Hr Hc];
    rewrite Hr in Hst; try discriminate Hst.
  injection Hst as <-. exists skew. rewrite Hc.
  split; [done|]. split; [reflexivity|]. split; [|done].
  intros []; reflexivity.
Qed.




Section Reordering.
Context `{effects : !TranslatorEffects}.








End Reordering.

End ClientFacts.

Section ContractNeeded.
Import RobotStateClient SpecTranslators.

(** The contract is needed: with translators that ask the time sync anew,
    the battery's stamp is corrected by 7 when its translator runs first and
    by 5 when that of the joints has run before it. *)
Lemma requerying_translators_order_matters :
  let run order :=
    getRobotState_in_order (effects := requerying_translators) order
      spot1 "map" (healthy_world, []) in
  battery_stamps (run all_categories).1 = [107%Z] ∧
  battery_stamps (run (reverse all_categories)).1 = [105%Z] ∧
  (run all_categories).1 ≠ (run (reverse all_categories)).1.
Proof.
  cbv zeta. split; [reflexivity|]. split; [reflexivity|].
  intros H. apply (f_equal battery_stamps) in H.
  vm_compute in H. discriminate H.
Qed.

Lemma requerying_translators_are_not_pure :
  ¬ translators_are_pure (effects := requerying_translators).
Proof.
  intros (H & _). specialize (H sample_raw 5%Z healthy_world).
  vm_compute in H. discriminate H.
Qed.

End ContractNeeded.

Section SpecTranslatorFacts.
Import RobotStateClient SpecTranslators.
Context `{robot : !@Robot spec_sdk}.

Lemma corrected_times_assembled (c : Category) rs skew prefix pref :
  corrected_times c (assembled rs skew prefix pref) =
  if takes_clock_skew c then applyClockSkew skew <$> raw_times rs c else [].
Proof. destruct c; reflexivity. Qed.

Lemma corrected_minus_raw (c : Category) rs skew prefix pref (i : nat) (raw corr : Z) :
  raw_times rs c !! i = Some raw →
  corrected_times c (assembled rs skew prefix pref) !! i = Some corr →
  (corr - raw)%Z = skew.
Proof.
  rewrite corrected_times_assembled. intros Hraw.
  destruct (takes_clock_skew c); [|done].
  rewrite list_lookup_fmap, Hraw. cbn. unfold applyClockSkew. intros [= <-]. lia.
Qed.

End SpecTranslatorFacts.

(** C2. In a call that returns an aggregate the clock skew is asked for
    once; the one value it answers is the skew handed to each of the ten
    translators that take one (the other three are handed none), and the
    aggregate is built from it.  With translators that shift each timestamp
    by the skew they are handed, any two timestamps of the aggregate differ
    from their raw ones by that same skew. *)
Theorem single_clock_skew :
  (∀ (sdk : RobotStateClient.Sdk) (robot : RobotStateClient.Robot)
     (self : RobotStateClient.DefaultRobotStateClient) (pref : string)
     (w : RobotStateClient.World) (st : RobotStateClient.RobotState),
     RobotStateClient.result_of self pref w = RobotStateClient.Expected st →
     ∃ skew,
       RobotStateClient.skew_reply w = RobotStateClient.Expected skew ∧
       RobotStateClient.count_skew_queries (RobotStateClient.calls_of self pref w) = 1 ∧
       (∀ c, RobotStateClient.arg_clock_skew
               <$> RobotStateClient.args_of c (RobotStateClient.calls_of self pref w) =
             [if RobotStateClient.takes_clock_skew c then Some skew else None]) ∧
       st = RobotStateClient.assembled
              (RobotStateClient.robot_state
                 (RobotStateClient.response (RobotStateClient.fetch_reply w)))
              skew (RobotStateClient.frame_prefix_ self) pref) ∧
  (∀ (robot : @RobotStateClient.Robot SpecTranslators.spec_sdk)
     (self : RobotStateClient.DefaultRobotStateClient) (pref : string)
     (w : RobotStateClient.World) (st : RobotStateClient.RobotState),
     RobotStateClient.result_of self pref w = RobotStateClient.Expected st →
     ∃ skew,
       RobotStateClient.skew_reply w = RobotStateClient.Expected skew ∧
       ∀ (a b : RobotStateClient.Category) (i j : nat) (a_raw a_corr b_raw b_corr : Z),
         let rs := RobotStateClient.robot_state
                     (RobotStateClient.response (RobotStateClient.fetch_reply w)) in
         SpecTranslators.raw_times rs a !! i = Some a_raw →
         SpecTranslators.corrected_times a st !! i = Some a_corr →
         SpecTranslators.raw_times rs b !! j = Some b_raw →
         SpecTranslators.corrected_times b st !! j = Some b_corr →
         (a_corr - a_raw)%Z = (b_corr - b_raw)%Z ∧ (a_corr - a_raw)%Z = skew).
Proof.
  split.
  - intros sdk robot self pref w st Hst. by apply one_skew_for_all.
  - intros robot self pref w st Hst.
    destruct (one_skew_for_all self pref w st Hst) as (skew & Hs & _ & _ & ->).
    exists skew. split; [done|].
    intros a b i j a_raw a_corr b_raw b_corr rs Ha Ha' Hb Hb'.
    rewrite (corrected_minus_raw _ _ _ _ _ _ _ _ Ha Ha').
    by rewrite (corrected_minus_raw _ _ _ _ _ _ _ _ Hb Hb').
Qed.

(** ** The message conversions *)
Section ConversionFacts.
Import CommonConversions.

(** Whatever the destination held, a joint field of the result is the
    message's value when its flag is set and the destination's own field
    otherwise. *)
Lemma arm_joint_field_after (ros_msg : Msg.ArmJointPosition)
    (proto : Proto.ArmJointPosition) (f : ArmJoint) :
  proto_joint_field f (convertBosdynMsgsArmJointPositionToProto ros_msg proto) =
  if ros_joint_is_set f ros_msg
  then Some (Proto.mkDoubleValue (ros_joint_value f ros_msg))
  else proto_joint_field f proto.
Proof.
  destruct ros_msg as [v0 [] v1 [] v2 [] v3 [] v4 [] v5 []], f; reflexivity.
Qed.

(** C6. Converted into a freshly constructed protobuf message, an arm joint
    position has the field of a joint present exactly when the ROS message
    flags it as set, and then with the message's value; a field that is not
    flagged stays absent, and in any destination is left as it was. *)
Theorem arm_joint_position_presence (ros_msg : Msg.ArmJointPosition) (f : ArmJoint) :
  let proto :=
    convertBosdynMsgsArmJointPositionToProto ros_msg Proto.ArmJointPosition_default in
  (proto_joint_has f proto = true ↔ ros_joint_is_set f ros_msg = true) ∧
  (ros_joint_is_set f ros_msg = true →
     Proto.value <$> proto_joint_field f proto = Some (ros_joint_value f ros_msg)) ∧
  (ros_joint_is_set f ros_msg = false → proto_joint_field f proto = None) ∧
  (∀ dest, ros_joint_is_set f ros_msg = false →
     proto_joint_field f (convertBosdynMsgsArmJointPositionToProto ros_msg dest) =
     proto_joint_field f dest).
Proof.
  cbv zeta. unfold proto_joint_has. rewrite arm_joint_field_after.
  split; [|split; [|split]].
  - destruct (ros_joint_is_set f ros_msg).
    + split; [done|]. intros _. apply bool_decide_eq_true. eauto.
    + split; [|done]. intros [x Hx]%bool_decide_eq_true. by destruct f.
  - by intros ->.
  - intros ->. by destruct f.
  - intros dest Hf. by rewrite arm_joint_field_after, Hf.
Qed.

(** The request header follows the same rule for its timestamp. *)
Lemma request_header_timestamp_presence (ros_msg : Msg.RequestHeader) :
  Proto.has_request_timestamp
    (convertBosdynMsgsRequestHeaderToProto ros_msg Proto.RequestHeader_default)
  = Msg.request_timestamp_is_set ros_msg.
Proof. destruct ros_msg as [t [] c d]; reflexivity. Qed.

Lemma to_int32_of_int64 (z : Z) :
  MachineInt.int32_range z → MachineInt.to_int32 (MachineInt.to_int64 z) = z.
Proof.
  unfold MachineInt.int32_range, MachineInt.to_int32, MachineInt.to_int64,
    MachineInt.to_signed.
  change (2 ^ 31)%Z with 2147483648%Z. change (2 ^ 32)%Z with 4294967296%Z.
  change (2 ^ (32 - 1))%Z with 2147483648%Z.
  change (2 ^ 64)%Z with 18446744073709551616%Z.
  change (2 ^ (64 - 1))%Z with 9223372036854775808%Z.
  intros Hz. repeat case_decide; Z.div_mod_to_equations; lia.
Qed.

Lemma to_uint32_of_int32 (z : Z) :
  MachineInt.uint32_range z → MachineInt.to_uint32 (MachineInt.to_int32 z) = z.
Proof.
  unfold MachineInt.uint32_range, MachineInt.to_int32, MachineInt.to_uint32,
    MachineInt.to_signed, MachineInt.to_unsigned.
  change (2 ^ 32)%Z with 4294967296%Z.
  change (2 ^ (32 - 1))%Z with 2147483648%Z.
  intros Hz. case_decide; Z.div_mod_to_equations; lia.
Qed.

(** C7. A quaternion, a vector, a point, a pose and a time converted to
    protobuf and back come out as they went in, whatever the destinations
    held before; the protobuf in between holds each component under its own
    name (w, x, y, z; x, y, z; seconds and nanoseconds), unscaled. *)
Theorem ros_proto_round_trip :
  (∀ (q : Msg.Quaternion) (p0 : Proto.Quaternion) (r0 : Msg.Quaternion),
     let p := convertGeometryMsgsQuaternionToProto q p0 in
     convertProtoToGeometryMsgsQuaternion p r0 = q ∧
     Proto.qw p = Msg.quat_w q ∧ Proto.qx p = Msg.quat_x q ∧
     Proto.qy p = Msg.quat_y q ∧ Proto.qz p = Msg.quat_z q) ∧
  (∀ (v : Msg.Vector3) (p0 : Proto.Vec3) (r0 : Msg.Vector3),
     let p := convertGeometryMsgsVector3ToProto v p0 in
     convertProtoToGeometryMsgsVector3 p r0 = v ∧
     Proto.x p = Msg.vector3_x v ∧ Proto.y p = Msg.vector3_y v ∧
     Proto.z p = Msg.vector3_z v) ∧
  (∀ (v : Msg.Point) (p0 : Proto.Vec3) (r0 : Msg.Point),
     let p := convertGeometryMsgsPointToProto v p0 in
     convertProtoToGeometryMsgsVector3_Point p r0 = v ∧
     Proto.x p = Msg.point_x v ∧ Proto.y p = Msg.point_y v ∧
     Proto.z p = Msg.point_z v) ∧
  (∀ (pose : Msg.Pose) (p0 : Proto.SE3Pose) (r0 : Msg.Pose),
     convertProtoToGeometryMsgsPose (convertGeometryMsgsPoseToProto pose p0) r0 = pose) ∧
  (∀ (t : Msg.Time) (p0 : Proto.Timestamp) (r0 : Msg.Time),
     Msg.wf_Time t →
     let p := convertBuiltinInterfacesTimeToProto t p0 in
     convertProtoToBuiltinInterfacesTime p r0 = t ∧
     Proto.seconds p = Msg.sec t).
Proof.
  split; [|split; [|split; [|split]]].
  - by intros [] [] [].
  - by intros [] [] [].
  - by intros [] [] [].
  - by intros [[] []] [[[]|] [[]|]] [[] []].
  - intros [s n] p0 r0 [Hs Hn]. cbn in Hs, Hn. cbv zeta.
    unfold convertProtoToBuiltinInterfacesTime, convertBuiltinInterfacesTimeToProto.
    cbn. rewrite to_int32_of_int64, to_uint32_of_int32 by done. split; [done|].
    revert Hs. unfold MachineInt.int32_range, MachineInt.to_int64, MachineInt.to_signed.
    change (2 ^ 31)%Z with 2147483648%Z.
    change (2 ^ 64)%Z with 18446744073709551616%Z.
    change (2 ^ (64 - 1))%Z with 9223372036854775808%Z.
    intros Hs. case_decide; Z.div_mod_to_equations; lia.
Qed.

(** C9. Converting a response header (and the request header inside it) to
    ROS copies the value of every optional sub-field from the protobuf
    accessor whether or not the field is present, so that an absent field
    leaves the protobuf default (zeros, empty text) in the ROS value, and
    sets each [_is_set] flag to the field's has-bit.  An absent timestamp and
    a present all-zero one thus give the same value and differ in the flag
    alone. *)
Theorem header_flags_carry_presence :
  (∀ (proto : Proto.ResponseHeader) (ros0 : Msg.ResponseHeader),
     let out := convertProtoToBosdynMsgsResponseHeader proto ros0 in
     (Msg.request_header_is_set out = Proto.has_request_header proto ∧
      Msg.request_received_timestamp_is_set out =
        Proto.has_request_received_timestamp proto ∧
      Msg.response_timestamp_is_set out = Proto.has_response_timestamp proto ∧
      Msg.error_is_set out = Proto.has_error proto) ∧
     (Msg.request_header out =
        convertProtoToBosdynMsgsRequestHeader
          (Proto.get_request_header proto) (Msg.request_header ros0) ∧
      Msg.request_received_timestamp out =
        (let ts := Proto.get_request_received_timestamp proto in
         Msg.mkTime (MachineInt.to_int32 (Proto.seconds ts))
                    (MachineInt.to_uint32 (Proto.nanos ts))) ∧
      Msg.response_timestamp out =
        (let ts := Proto.get_response_timestamp proto in
         Msg.mkTime (MachineInt.to_int32 (Proto.seconds ts))
                    (MachineInt.to_uint32 (Proto.nanos ts))) ∧
      Msg.error out =
        Msg.mkCommonError (Proto.code (Proto.get_error proto))
                          (Proto.message (Proto.get_error proto))) ∧
     (Proto.request_header proto = None →
        Msg.request_header out =
          Msg.mkRequestHeader (Msg.mkTime 0 0) false "" false) ∧
     (Proto.request_received_timestamp proto = None →
        Msg.request_received_timestamp out = Msg.mkTime 0 0) ∧
     (Proto.response_timestamp proto = None →
        Msg.response_timestamp out = Msg.mkTime 0 0) ∧
     (Proto.error proto = None → Msg.error out = Msg.mkCommonError 0 "")) ∧
  (∀ (proto : Proto.RequestHeader) (ros0 : Msg.RequestHeader),
     let out := convertProtoToBosdynMsgsRequestHeader proto ros0 in
     Msg.request_timestamp_is_set out = Proto.has_request_timestamp proto ∧
     Msg.request_timestamp out =
       (let ts := Proto.get_request_timestamp proto in
        Msg.mkTime (MachineInt.to_int32 (Proto.seconds ts))
                   (MachineInt.to_uint32 (Proto.nanos ts))) ∧
     (Proto.request_timestamp proto = None →
        Msg.request_timestamp out = Msg.mkTime 0 0)) ∧
  (∀ (ros0 : Msg.RequestHeader),
     let absent := Proto.mkRequestHeader None "" false in
     let zero := Proto.mkRequestHeader (Some (Proto.mkTimestamp 0 0)) "" false in
     Msg.request_timestamp (convertProtoToBosdynMsgsRequestHeader absent ros0) =
     Msg.request_timestamp (convertProtoToBosdynMsgsRequestHeader zero ros0) ∧
     Msg.request_timestamp_is_set (convertProtoToBosdynMsgsRequestHeader absent ros0)
       = false ∧
     Msg.request_timestamp_is_set (convertProtoToBosdynMsgsRequestHeader zero ros0)
       = true).
Proof.
  split; [|split].
  - intros [rh rr rt e] ros0. cbv zeta. split; [done|]. split; [done|].
    cbn [Proto.request_header Proto.request_received_timestamp
         Proto.response_timestamp Proto.error].
    split; [by intros ->|]. split; [by intros ->|]. split; by intros ->.
  - intros [ts c d] ros0. cbv zeta. split; [done|]. split; [done|].
    cbn [Proto.request_timestamp]. by intros ->.
  - done.
Qed.

End ConversionFacts.

(** ** The joint map *)
Section JointMapFacts.
Import SpotJointMap.

Lemma foldr_insert_prefixed (prefix : string) (l : list (string * nat)) :
  foldr (uncurry (λ first second (m : gmap string nat), <[prefix +:+ first := second]> m))
        ∅ l
  = list_to_map (prod_map (String.app prefix) id <$> l).
Proof. induction l as [|[k v] l IH]; cbn; [done | by rewrite IH]. Qed.

Lemma namespaced_joint_map_kmap (spot_name : string) (has_arm : bool) :
  spot_name ≠ "" →
  get_namespaced_joint_map spot_name has_arm =
  kmap (String.app (spot_name +:+ "/")) (default_joint_map has_arm).
Proof.
  intros Hne. unfold get_namespaced_joint_map.
  rewrite decide_False by done. fold (default_joint_map has_arm).
  cbv zeta. rewrite map_fold_foldr. apply foldr_insert_prefixed.
Qed.

Lemma namespaced_joint_map_lookup (spot_name : string) (has_arm : bool)
    (key : string) (idx : nat) :
  get_namespaced_joint_map spot_name has_arm !! key = Some idx ↔
  ∃ base,
    key = RobotStateClient.frame_prefix_
            (RobotStateClient.new_DefaultRobotStateClient spot_name) +:+ base ∧
    default_joint_map has_arm !! base = Some idx.
Proof.
  unfold RobotStateClient.new_DefaultRobotStateClient. cbn.
  destruct (decide (spot_name = "")) as [->|Hne].
  - unfold get_namespaced_joint_map. rewrite decide_True by done.
    fold (default_joint_map has_arm). split.
    + intros H. by exists key.
    + by intros (base & -> & H).
  - rewrite namespaced_joint_map_kmap by done. apply lookup_kmap_Some, _.
Qed.

(** C4. The frame prefix of a client is empty for an empty robot name and
    the name followed by "/" otherwise.  The namespaced joint map obeys the
    same rule: it is the base map itself for an empty namespace, and
    otherwise its keys are exactly the base names behind the namespace and
    "/", each with the index of its base name. *)
Theorem frame_prefix_and_joint_map :
  RobotStateClient.frame_prefix_ (RobotStateClient.new_DefaultRobotStateClient "") = "" ∧
  (∀ robot_name, robot_name ≠ "" →
     RobotStateClient.frame_prefix_
       (RobotStateClient.new_DefaultRobotStateClient robot_name) = robot_name +:+ "/") ∧
  (∀ has_arm, get_namespaced_joint_map "" has_arm = default_joint_map has_arm) ∧
  (∀ spot_name has_arm, spot_name ≠ "" →
     (∀ base, get_namespaced_joint_map spot_name has_arm !! ((spot_name +:+ "/") +:+ base)
              = default_joint_map has_arm !! base) ∧
     (∀ key idx, get_namespaced_joint_map spot_name has_arm !! key = Some idx →
                 ∃ base, key = (spot_name +:+ "/") +:+ base ∧
                         default_joint_map has_arm !! base = Some idx)).
Proof.
  split; [done|]. split; [|split].
  - intros robot_name Hne. cbn. by rewrite decide_False.
  - done.
  - intros spot_name has_arm Hne. rewrite namespaced_joint_map_kmap by done. split.
    + intros base. apply (lookup_kmap (String.app (spot_name +:+ "/"))).
    + intros key idx. by intros ?%lookup_kmap_Some; [|apply _].
Qed.

Ltac joint_cases H :=
  repeat (apply elem_of_cons in H as [H|H]; [injection H as -> ->|]);
  try (by apply elem_of_nil in H).

Lemma default_joint_map_inverse (has_arm : bool) (base : string) (idx : nat) :
  default_joint_map has_arm !! base = Some idx →
  joint_names_by_index !! idx = Some base ∧
  idx < (if has_arm then kNjointsArm else kNjointsNoArm).
Proof.
  destruct has_arm; intros H%elem_of_list_to_map_2;
    joint_cases H; (split; [reflexivity | cbv; lia]).
Qed.

Lemma namespaced_index_bound spot_name has_arm key idx :
  get_namespaced_joint_map spot_name has_arm !! key = Some idx →
  idx < (if has_arm then kNjointsArm else kNjointsNoArm).
Proof.
  intros (base & _ & H)%namespaced_joint_map_lookup.
  by apply default_joint_map_inverse in H as [_ ?].
Qed.

Lemma namespaced_joint_map_inj spot_name has_arm key1 key2 idx :
  get_namespaced_joint_map spot_name has_arm !! key1 = Some idx →
  get_namespaced_joint_map spot_name has_arm !! key2 = Some idx →
  key1 = key2.
Proof.
  intros (b1 & -> & H1)%namespaced_joint_map_lookup
         (b2 & -> & H2)%namespaced_joint_map_lookup.
  apply default_joint_map_inverse in H1 as [H1 _].
  apply default_joint_map_inverse in H2 as [H2 _].
  congruence.
Qed.

Lemma try_block_unknown jm input i joint_name out :
  jm !! joint_name = None → try_block jm input i joint_name out = (false, out).
Proof. intros H. unfold try_block. by rewrite H. Qed.

Lemma try_block_known jm input i joint_name out idx n p v e :
  jm !! joint_name = Some idx → idx < n → sized n out →
  position input !! i = Some p → velocity input !! i = Some v →
  effort input !! i = Some e →
  try_block jm input i joint_name out =
    (true, mkJointState (<[idx := joint_name]> (name out)) (<[idx := p]> (position out))
                        (<[idx := v]> (velocity out)) (<[idx := e]> (effort out))).
Proof.
  intros Hjm Hidx (Hn & Hp & Hv & He) Hpi Hvi Hei.
  unfold try_block, at_assign. rewrite Hjm. cbn.
  rewrite Hn, Hp, Hv, He, Hpi, Hvi, Hei. by rewrite !decide_True by done.
Qed.

(** The loop, for a map whose indices stay below the number of joints. *)
Section OrderLoop.
Variables (jm : gmap string nat) (input : JointState).
Local Abbreviation n := (length (position input)).
Hypothesis jm_bound : ∀ key idx, jm !! key = Some idx → idx < n.
Hypothesis covered : arrays_cover_positions input.

Lemma order_loop_correct (remaining : nat) :
  ∀ i out, i + remaining = n → sized n out →
  ∃ b out',
    order_loop jm input remaining i out = (Returned b, out') ∧
    sized n out' ∧
    (b = true ↔ ∀ k nm, i ≤ k < n → name input !! k = Some nm → is_Some (jm !! nm)) ∧
    (b = true →
       (∀ k nm idx, i ≤ k < n → name input !! k = Some nm → jm !! nm = Some idx →
                    untouched_from jm input (S k) idx →
                    joint_row out' idx = joint_row input k) ∧
       (∀ idx, untouched_from jm input i idx → joint_row out' idx = joint_row out idx)).
Proof.
  induction remaining as [|remaining IH]; intros i out Hi Hout.
  - exists true, out. cbn. split; [done|]. split; [done|]. split.
    + split; [|done]. intros _ k nm ?. lia.
    + intros _. split; [|done]. intros k nm idx ?. lia.
  - destruct covered as (Hcn & Hcv & Hce). fold n in Hcn, Hcv, Hce.
    destruct (lookup_lt_is_Some_2 (name input) i) as [nm Hnm]; [lia|].
    destruct (lookup_lt_is_Some_2 (position input) i) as [p Hp]; [fold n; lia|].
    destruct (lookup_lt_is_Some_2 (velocity input) i) as [v Hv]; [lia|].
    destruct (lookup_lt_is_Some_2 (effort input) i) as [e He]; [lia|].
    cbn [order_loop]. rewrite Hnm.
    destruct (jm !! nm) as [idx0|] eqn:Hjm.
    + pose proof (jm_bound _ _ Hjm) as Hidx0.
      rewrite (try_block_known _ _ _ _ _ _ n p v e) by done.
      set (out1 := mkJointState _ _ _ _).
      assert (sized n out1) as Hout1.
      { destruct Hout as (? & ? & ? & ?). unfold sized, out1; cbn.
        by rewrite !length_insert. }
      destruct (IH (S i) out1) as (b & out' & Hrun & Hsz & Hb & Hrows);
        [lia | done |].
      exists b, out'. split; [done|]. split; [done|]. split.
      * rewrite Hb. split.
        -- intros Hall k nm' Hk Hk'. destruct (decide (k = i)) as [->|].
           ++ rewrite Hnm in Hk'. injection Hk' as <-. by rewrite Hjm.
           ++ apply (Hall k); [lia | done].
        -- intros Hall k nm' Hk. apply Hall. lia.
      * intros Hbt. destruct (Hrows Hbt) as [Hlater Hkeep]. split.
        -- intros k nm' idx Hk Hk' Hidx Hun. destruct (decide (k = i)) as [->|].
           ++ rewrite Hnm in Hk'. injection Hk' as <-.
              rewrite Hjm in Hidx. injection Hidx as <-.
              rewrite (Hkeep idx0 Hun). unfold joint_row, out1; cbn.
              destruct Hout as (? & ? & ? & ?).
              rewrite !list_lookup_insert_eq by lia. by rewrite Hnm, Hp, Hv, He.
           ++ apply (Hlater k nm'); [lia | done..].
        -- intros idx Hun.
           assert (idx ≠ idx0) as Hne.
           { intros ->. apply (Hun i nm); [lia | done..]. }
           rewrite Hkeep.
           ++ unfold joint_row, out1; cbn. by rewrite !list_lookup_insert_ne.
           ++ intros k nm' Hk. apply Hun. lia.
    + rewrite try_block_unknown by done.
      exists false, out. split; [done|]. split; [done|]. split; [|done].
      split; [done|]. intros Hall.
      destruct (Hall i nm) as [x Hx]; [lia | done |]. congruence.
Qed.

End OrderLoop.

(** C10, as amended.  For an input whose name, velocity and effort arrays
    are at least as long as its position array, the call returns (it does not
    throw), and it returns true exactly when there are 19 or 12 positions and
    each of the first that many names is a key of the namespaced joint map.
    On success the four output arrays have that length, and every input joint
    whose name does not occur again later in the input is found, with its
    data, at the map's index for its name.  A failure on an unknown name
    leaves the joints before it written to the output. *)
Theorem order_joint_states_amended :
  (∀ (spot_name : string) (input output : JointState),
     arrays_cover_positions input →
     let n := length (position input) in
     let jm := get_namespaced_joint_map spot_name (bool_decide (n = kNjointsArm)) in
     ∃ b out,
       order_joint_states spot_name input output = (Returned b, out) ∧
       (b = true ↔
          (n = kNjointsArm ∨ n = kNjointsNoArm) ∧
          ∀ k nm, k < n → name input !! k = Some nm → is_Some (jm !! nm)) ∧
       (b = true →
          sized n out ∧
          ∀ k nm idx,
            k < n → name input !! k = Some nm → jm !! nm = Some idx →
            (∀ k', k < k' < n → name input !! k' ≠ Some nm) →
            joint_row out idx = joint_row input k)) ∧
  (∃ out,
     arrays_cover_positions unknown_second_input ∧
     order_joint_states "" unknown_second_input empty_JointState = (Returned false, out) ∧
     out ≠ empty_JointState ∧
     joint_row out 0 = joint_row unknown_second_input 0).
Proof.
  split.
  - intros spot_name input output Hcov n jm.
    unfold order_joint_states. fold n.
    assert (∀ has_arm : bool,
              n = (if has_arm then kNjointsArm else kNjointsNoArm) →
              bool_decide (n = kNjointsArm) = has_arm) as Harm.
    { intros [] ->; by vm_compute. }
    set (resized := mkJointState _ _ _ _).
    assert (sized n resized) as Hsized.
    { unfold sized, resized; cbn. by rewrite !length_resize. }
    assert (∀ has_arm : bool,
              n = (if has_arm then kNjointsArm else kNjointsNoArm) →
              ∃ b out,
                order_loop (get_namespaced_joint_map spot_name has_arm) input n 0 resized
                  = (Returned b, out) ∧
                (b = true ↔
                   (n = kNjointsArm ∨ n = kNjointsNoArm) ∧
                   ∀ k nm, k < n → name input !! k = Some nm → is_Some (jm !! nm)) ∧
                (b = true →
                   sized n out ∧
                   ∀ k nm idx,
                     k < n → name input !! k = Some nm → jm !! nm = Some idx →
                     (∀ k', k < k' < n → name input !! k' ≠ Some nm) →
                     joint_row out idx = joint_row input k)) as Hloop.
    { intros has_arm Hn. unfold jm. rewrite (Harm has_arm Hn).
      destruct (order_loop_correct (get_namespaced_joint_map spot_name has_arm) input)
        with (remaining := n) (i := 0) (out := resized)
        as (b & out & Hrun & Hsz & Hb & Hrows); [| done | done | done |].
      { intros key idx Hk. fold n. rewrite Hn.
        by apply namespaced_index_bound in Hk. }
      exists b, out. split; [done|]. split.
      - rewrite Hb. split.
        + intros Hall. split; [destruct has_arm; auto|].
          intros k nm Hk. apply Hall. fold n. lia.
        + intros [_ Hall] k nm Hk. apply Hall. fold n in Hk. lia.
      - intros Hbt. split; [done|]. destruct (Hrows Hbt) as [Hrow _].
        intros k nm idx Hk Hnm Hidx Hlast. apply (Hrow k nm idx); [fold n; lia | done..|].
        intros k' nm' Hk' Hnm' Hidx'.
        apply (Hlast k'); [fold n in Hk'; lia|].
        by rewrite (namespaced_joint_map_inj _ _ _ _ _ Hidx Hidx'). }
    destruct (decide (n = kNjointsArm)) as [Hn|Hn19].
    { apply (Hloop true Hn). }
    destruct (decide (n = kNjointsNoArm)) as [Hn|Hn12].
    { apply (Hloop false Hn). }
    exists false, output. split; [done|]. split; [|done].
    split; [done|]. intros [[?|?] _]; done.
  - eexists. split; [|split; [vm_compute; reflexivity | split; [done | reflexivity]]].
    unfold arrays_cover_positions. cbn. lia.
Qed.

(** The claim as it stands fails on repeated names: twelve joints that all
    carry the name of joint 0 are accepted, and the data found at index 0 is
    that of the last of them, not that of the first. *)
Lemma repeated_joint_name_overwrites :
  arrays_cover_positions repeated_name_input ∧
  ∃ out,
    order_joint_states "" repeated_name_input empty_JointState = (Returned true, out) ∧
    name repeated_name_input !! 0 = Some "front_left_hip_x" ∧
    get_namespaced_joint_map "" false !! "front_left_hip_x" = Some 0 ∧
    position repeated_name_input !! 0 = Some 1%Z ∧
    position out !! 0 = Some 12%Z ∧
    joint_row out 0 ≠ joint_row repeated_name_input 0.
Proof.
  split; [unfold arrays_cover_positions; cbn; lia|].
  eexists. split; [vm_compute; reflexivity|].
  split; [reflexivity|]. split; [by vm_compute|].
  split; [reflexivity|]. split; [reflexivity|]. discriminate.
Qed.

(** Names beyond the number of positions are never looked at: a thirteenth,
    unknown name does not make the call fail. *)
Lemma surplus_names_ignored :
  arrays_cover_positions surplus_name_input ∧
  name surplus_name_input !! 12 = Some "tail" ∧
  get_namespaced_joint_map "" false !! "tail" = None ∧
  (order_joint_states "" surplus_name_input empty_JointState).1 = Returned true.
Proof.
  split; [unfold arrays_cover_positions; cbn; lia|].
  split; [reflexivity|]. split; by vm_compute.
Qed.

End JointMapFacts.

(** ** The statements at concrete inputs *)
Section Witnesses.
Import RobotStateClient SpecTranslators CommonConversions SpotJointMap.

Lemma getRobotState_all_or_nothing_witness :
  (has_value (result_of spot1 "map" unreachable_world) = false ∧
   count_skew_queries (calls_of spot1 "map" unreachable_world) = 0 ∧
   count_translators (calls_of spot1 "map" unreachable_world) = 0) ∧
  (has_value (result_of spot1 "map" payloadless_world) = false ∧
   count_skew_queries (calls_of spot1 "map" payloadless_world) = 0 ∧
   count_translators (calls_of spot1 "map" payloadless_world) = 0) ∧
  (has_value (result_of spot1 "map" unsynced_world) = false ∧
   count_translators (calls_of spot1 "map" unsynced_world) = 0) ∧
  has_value (result_of spot1 "map" healthy_world) = true.
Proof.
  split; [|split; [|split]].
  - apply (getRobotState_all_or_nothing spot1 "map" unreachable_world).
    left. reflexivity.
  - apply (getRobotState_all_or_nothing spot1 "map" payloadless_world).
    right. reflexivity.
  - apply (getRobotState_all_or_nothing spot1 "map" unsynced_world); reflexivity.
  - apply (getRobotState_all_or_nothing spot1 "map" healthy_world).
    repeat split; reflexivity.
Defined.

Lemma single_clock_skew_witness :
  (∃ skew,
     skew_reply healthy_world = Expected skew ∧
     count_skew_queries (calls_of spot1 "spot1/vision" healthy_world) = 1 ∧
     (∀ c, arg_clock_skew <$> args_of c (calls_of spot1 "spot1/vision" healthy_world) =
           [if takes_clock_skew c then Some skew else None]) ∧
     assembled sample_raw 5%Z "spot1/" "spot1/vision" =
       assembled (robot_state (response (fetch_reply healthy_world))) skew
                 (frame_prefix_ spot1) "spot1/vision") ∧
  (∃ skew,
     skew_reply healthy_world = Expected skew ∧
     ∀ (a b : Category) (i j : nat) (a_raw a_corr b_raw b_corr : Z),
       let rs := robot_state (response (fetch_reply healthy_world)) in
       raw_times rs a !! i = Some a_raw →
       corrected_times a
         (assembled sample_raw 5%Z "spot1/" "spot1/vision") !! i = Some a_corr →
       raw_times rs b !! j = Some b_raw →
       corrected_times b
         (assembled sample_raw 5%Z "spot1/" "spot1/vision") !! j = Some b_corr →
       (a_corr - a_raw)%Z = (b_corr - b_raw)%Z ∧ (a_corr - a_raw)%Z = skew).
Proof.
  split.
  - apply (proj1 single_clock_skew spec_sdk scripted_robot spot1 "spot1/vision"
                 healthy_world).
    reflexivity.
  - apply (proj2 single_clock_skew scripted_robot spot1 "spot1/vision" healthy_world).
    reflexivity.
Defined.

Lemma odometry_frame_choice_witness :
  ∃ skew vision,
    skew_reply healthy_world = Expected skew ∧
    args_of Odom (calls_of spot1 "spot1/vision" healthy_world) =
      [mkArgs (Some skew) (Some (frame_prefix_ spot1)) None (Some vision)] ∧
    odom (assembled sample_raw 5%Z "spot1/" "spot1/vision") =
      GetOdom (robot_state (response (fetch_reply healthy_world))) skew
              (frame_prefix_ spot1) vision ∧
    (vision = true ↔ "spot1/vision" = frame_prefix_ spot1 +:+ "vision") ∧
    ("spot1/vision" = frame_prefix_ spot1 +:+ "odom" → vision = false) ∧
    ("spot1/vision" = "map" → vision = false).
Proof.
  apply (proj1 (odometry_frame_choice spot1 "spot1/vision" healthy_world)).
  reflexivity.
Defined.


Lemma frame_prefix_and_joint_map_witness :
  frame_prefix_ (new_DefaultRobotStateClient "spot1") = "spot1" +:+ "/" ∧
  (∀ base, get_namespaced_joint_map "spot1" true !! (("spot1" +:+ "/") +:+ base)
           = default_joint_map true !! base).
Proof.
  destruct frame_prefix_and_joint_map as (_ & Hprefix & _ & Hmap). split.
  - apply Hprefix. discriminate.
  - apply (Hmap "spot1" true). discriminate.
Defined.

Lemma arm_joint_position_presence_witness :
  Proto.value
    <$> proto_joint_field El0
          (convertBosdynMsgsArmJointPositionToProto elbow_only
             Proto.ArmJointPosition_default)
  = Some 33%Z ∧
  proto_joint_field Sh0
    (convertBosdynMsgsArmJointPositionToProto elbow_only Proto.ArmJointPosition_default)
  = None.
Proof.
  split.
  - apply (arm_joint_position_presence elbow_only El0). reflexivity.
  - apply (arm_joint_position_presence elbow_only Sh0). reflexivity.
Defined.

Lemma ros_proto_round_trip_witness :
  Msg.wf_Time late_time ∧
  convertProtoToBuiltinInterfacesTime
    (convertBuiltinInterfacesTimeToProto late_time Proto.Timestamp_default)
    (Msg.mkTime 0 0) = late_time.
Proof.
  assert (Msg.wf_Time late_time) as Hwf.
  { unfold Msg.wf_Time, MachineInt.int32_range, MachineInt.uint32_range. cbn. lia. }
  split; [exact Hwf|].
  destruct ros_proto_round_trip as (_ & _ & _ & _ & Htime).
  apply (Htime late_time Proto.Timestamp_default (Msg.mkTime 0 0) Hwf).
Defined.

Lemma header_flags_carry_presence_witness :
  Msg.request_received_timestamp
    (convertProtoToBosdynMsgsResponseHeader bare_response stale_response_msg)
    = Msg.mkTime 0 0 ∧
  Msg.error (convertProtoToBosdynMsgsResponseHeader bare_response stale_response_msg)
    = Msg.mkCommonError 0 "".
Proof.
  destruct header_flags_carry_presence as (Hresp & _ & _).
  destruct (Hresp bare_response stale_response_msg) as (_ & _ & _ & Hrr & _ & Herr).
  split; [apply Hrr | apply Herr]; reflexivity.
Defined.

Lemma order_joint_states_amended_witness :
  arrays_cover_positions ordered_legs ∧
  ∃ b out,
    order_joint_states "" ordered_legs empty_JointState = (Returned b, out) ∧
    (b = true ↔
       (12 = kNjointsArm ∨ 12 = kNjointsNoArm) ∧
       ∀ k nm, k < 12 → name ordered_legs !! k = Some nm →
               is_Some (get_namespaced_joint_map "" false !! nm)) ∧
    (b = true →
       sized 12 out ∧
       ∀ k nm idx,
         k < 12 → name ordered_legs !! k = Some nm →
         get_namespaced_joint_map "" false !! nm = Some idx →
         (∀ k', k < k' < 12 → name ordered_legs !! k' ≠ Some nm) →
         joint_row out idx = joint_row ordered_legs k).
Proof.
  assert (arrays_cover_positions ordered_legs) as Hcov.
  { unfold arrays_cover_positions. cbn. lia. }
  split; [exact Hcov|].
  apply (proj1 order_joint_states_amended "" ordered_legs empty_JointState Hcov).
Defined.

End Witnesses.

(** * Further properties of the conversions *)
Section MoreConversionFacts.
Import CommonConversions ProtoRanges.

Lemma to_int32_range (z : Z) : MachineInt.int32_range (MachineInt.to_int32 z).
Proof.
  unfold MachineInt.int32_range, MachineInt.to_int32, MachineInt.to_signed.
  change (2 ^ 31)%Z with 2147483648%Z. change (2 ^ 32)%Z with 4294967296%Z.
  change (2 ^ (32 - 1))%Z with 2147483648%Z.
  case_decide; Z.div_mod_to_equations; lia.
Qed.

Lemma to_int32_fixed (z : Z) : MachineInt.to_int32 z = z ↔ MachineInt.int32_range z.
Proof.
  split.
  - intros <-. apply to_int32_range.
  - unfold MachineInt.int32_range, MachineInt.to_int32, MachineInt.to_signed.
    change (2 ^ 31)%Z with 2147483648%Z. change (2 ^ 32)%Z with 4294967296%Z.
    change (2 ^ (32 - 1))%Z with 2147483648%Z.
    intros Hz. case_decide; Z.div_mod_to_equations; lia.
Qed.

Lemma to_int64_of_int32 (z : Z) :
  MachineInt.int32_range z → MachineInt.to_int64 z = z.
Proof.
  unfold MachineInt.int32_range, MachineInt.to_int64, MachineInt.to_signed.
  change (2 ^ 31)%Z with 2147483648%Z.
  change (2 ^ 64)%Z with 18446744073709551616%Z.
  change (2 ^ (64 - 1))%Z with 9223372036854775808%Z.
  intros Hz. case_decide; Z.div_mod_to_equations; lia.
Qed.

Lemma to_int32_of_uint32 (z : Z) :
  MachineInt.int32_range z → MachineInt.to_int32 (MachineInt.to_uint32 z) = z.
Proof.
  unfold MachineInt.int32_range, MachineInt.to_int32, MachineInt.to_uint32,
    MachineInt.to_signed, MachineInt.to_unsigned.
  change (2 ^ 31)%Z with 2147483648%Z. change (2 ^ 32)%Z with 4294967296%Z.
  change (2 ^ (32 - 1))%Z with 2147483648%Z.
  intros Hz. case_decide; Z.div_mod_to_equations; lia.
Qed.

(** X1. A protobuf timestamp converted to a ROS time and back is the
    timestamp it was exactly when its seconds fit the 32-bit [sec] field of
    the ROS time; the nanoseconds always come back. *)
Theorem timestamp_via_ros_lossless_iff
    (ts : Proto.Timestamp) (r0 : Msg.Time) (p0 : Proto.Timestamp) :
  wf_Timestamp ts →
  let back :=
    convertBuiltinInterfacesTimeToProto (convertProtoToBuiltinInterfacesTime ts r0) p0 in
  Proto.nanos back = Proto.nanos ts ∧
  (back = ts ↔ MachineInt.int32_range (Proto.seconds ts)).
Proof.
  destruct ts as [s n]. intros [Hs Hn]. cbn in Hs, Hn. cbv zeta.
  unfold convertBuiltinInterfacesTimeToProto, convertProtoToBuiltinInterfacesTime,
    Proto.set_seconds, Proto.set_nanos. cbn.
  rewrite to_int32_of_uint32 by done. split; [done|].
  rewrite (to_int64_of_int32 (MachineInt.to_int32 s)) by apply to_int32_range.
  rewrite <- to_int32_fixed. split; [by intros [= ->] | by intros ->].
Qed.

(** X2. A ROS request header converted into a fresh protobuf header and
    back keeps its client name, its logging switch and its timestamp flag;
    the timestamp itself comes back when it is flagged as set and as zero
    when it is not.  The header as a whole comes back unchanged exactly when
    its timestamp is flagged or already zero. *)
Theorem request_header_via_proto
    (h : Msg.RequestHeader) (r0 : Msg.RequestHeader) :
  Msg.wf_Time (Msg.request_timestamp h) →
  let back :=
    convertProtoToBosdynMsgsRequestHeader
      (convertBosdynMsgsRequestHeaderToProto h Proto.RequestHeader_default) r0 in
  Msg.client_name back = Msg.client_name h ∧
  Msg.disable_rpc_logging back = Msg.disable_rpc_logging h ∧
  Msg.request_timestamp_is_set back = Msg.request_timestamp_is_set h ∧
  Msg.request_timestamp back =
    (if Msg.request_timestamp_is_set h then Msg.request_timestamp h
     else Msg.mkTime 0 0) ∧
  (back = h ↔
     Msg.request_timestamp_is_set h = true ∨ Msg.request_timestamp h = Msg.mkTime 0 0).
Proof.
  destruct h as [[s n] flag name logging]. intros [Hs Hn]. cbn in Hs, Hn. cbv zeta.
  destruct flag; cbn.
  - unfold convertProtoToBosdynMsgsRequestHeader, convertProtoToBuiltinInterfacesTime.
    cbn. rewrite to_int32_of_int64, to_uint32_of_int32 by done.
    repeat (split; [done|]). split; [by left | done].
  - repeat (split; [done|]). split.
    + intros [= <- <-]. by right.
    + intros [[=]|[= -> ->]]. done.
Qed.

(** X3. A protobuf pose converted to a ROS pose and back has both its
    position and its rotation present, holding what the accessors of the
    original gave; so it is the original exactly when the original had both
    present, and an absent rotation comes back as a present all-zero one. *)
Theorem pose_via_ros (p : Proto.SE3Pose) (r0 : Msg.Pose) (p0 : Proto.SE3Pose) :
  let back := convertGeometryMsgsPoseToProto (convertProtoToGeometryMsgsPose p r0) p0 in
  Proto.position back = Some (Proto.get_position p) ∧
  Proto.rotation back = Some (Proto.get_rotation p) ∧
  (back = p ↔ is_Some (Proto.position p) ∧ is_Some (Proto.rotation p)) ∧
  (Proto.rotation p = None →
     Proto.rotation back = Some (Proto.mkQuaternion 0%Z 0%Z 0%Z 0%Z)).
Proof.
  cbv zeta.
  assert (convertGeometryMsgsPoseToProto (convertProtoToGeometryMsgsPose p r0) p0
          = Proto.mkSE3Pose (Some (Proto.get_position p)) (Some (Proto.get_rotation p)))
    as ->.
  { destruct p as [[[]|] [[]|]], p0 as [[[]|] [[]|]]; reflexivity. }
  split; [done|]. split; [done|]. split.
  - destruct p as [[v|] [q|]]; cbn; split;
      try (intros [= ]; done); try (intros [[? ?] [? ?]]; done); try done.
  - destruct p as [pos rot]; cbn. by intros ->.
Qed.

(** X4. Converting two arm joint positions one after the other into the same
    protobuf message merges them field by field: a field holds the second
    message's value if the second flags it, else the first's if the first
    flags it, else what the destination held.  Converting the same message a
    second time changes nothing. *)
Theorem arm_joint_position_merge
    (m1 m2 : Msg.ArmJointPosition) (dest : Proto.ArmJointPosition) :
  (∀ f,
     proto_joint_field f
       (convertBosdynMsgsArmJointPositionToProto m2
          (convertBosdynMsgsArmJointPositionToProto m1 dest)) =
     if ros_joint_is_set f m2 then Some (Proto.mkDoubleValue (ros_joint_value f m2))
     else if ros_joint_is_set f m1 then Some (Proto.mkDoubleValue (ros_joint_value f m1))
     else proto_joint_field f dest) ∧
  convertBosdynMsgsArmJointPositionToProto m1
    (convertBosdynMsgsArmJointPositionToProto m1 dest)
  = convertBosdynMsgsArmJointPositionToProto m1 dest.
Proof.
  split.
  - intros f. by rewrite !arm_joint_field_after.
  - destruct m1 as [v0 [] v1 [] v2 [] v3 [] v4 [] v5 []], dest; reflexivity.
Qed.

End MoreConversionFacts.

(** * Further properties of the robot-state client *)
Section MoreClientFacts.
Import RobotStateClient TranslatorFrames.
Context `{sdk : Sdk} `{robot : !Robot}.

(** X5. In a call that returns an aggregate, the client's frame prefix is
    handed to the translators of joints, transforms, odometry and
    end-effector force and to no other, and the preferred odometry frame
    goes, as the string it is, to the transform translator alone.  This
    holds of the calls made and of the aggregate returned: its four framed
    sub-states are the translators' values at the client's prefix (the
    transforms also at the preferred frame, the odometry at the vision
    flag), and its nine other sub-states are those a client of any other
    frame prefix and any other preferred frame gets from the same world. *)
Theorem frame_inputs_of_translators self pref w st :
  result_of self pref w = Expected st →
  (∀ c,
     arg_frame_prefix <$> args_of c (calls_of self pref w) =
       [if takes_frame_prefix c then Some (frame_prefix_ self) else None] ∧
     arg_preferred_odom_frame <$> args_of c (calls_of self pref w) =
       [if decide (c = Tf) then Some pref else None]) ∧
  (∃ skew,
     skew_reply w = Expected skew ∧
     joint_states st =
       GetJointStates (robot_state (response (fetch_reply w))) skew (frame_prefix_ self) ∧
     tf st =
       GetTf (robot_state (response (fetch_reply w))) skew (frame_prefix_ self) pref ∧
     odom st =
       GetOdom (robot_state (response (fetch_reply w))) skew (frame_prefix_ self)
               (String.eqb pref (frame_prefix_ self +:+ "vision")) ∧
     end_effector_force st =
       GetEndEffectorForce (robot_state (response (fetch_reply w))) skew
                           (frame_prefix_ self)) ∧
  (∀ self' pref' st',
     result_of self' pref' w = Expected st' →
     battery_states st' = battery_states st ∧
     wifi_state st' = wifi_state st ∧
     foot_state st' = foot_state st ∧
     estop_states st' = estop_states st ∧
     odom_twist st' = odom_twist st ∧
     power_state st' = power_state st ∧
     system_fault_state st' = system_fault_state st ∧
     manipulator_state st' = manipulator_state st ∧
     behavior_fault_state st' = behavior_fault_state st).
Proof.
  intros Hst.
  destruct (getRobotState_shape self pref w)
    as [Hf Hr Hc | e Hf Hs Hr Hc | skew Hf Hs Hr Hc];
    rewrite Hr in Hst; try discriminate Hst.
  injection Hst as <-. split; [|split].
  - rewrite Hc. intros []; split; reflexivity.
  - exists skew. by repeat split.
  - intros self' pref' st' Hst'.
    destruct (one_skew_for_all self' pref' w st' Hst') as (skew' & Hs' & _ & _ & ->).
    rewrite Hs in Hs'. injection Hs' as <-. by repeat split.
Qed.

Lemma string_prefix_app (a b : string) : String.prefix a (a +:+ b) = true.
Proof.
  induction a as [|c a IH]; [by destruct b|].
  change (String c a +:+ b) with (String c (a +:+ b)). cbn [String.prefix].
  by destruct (Ascii.ascii_dec c c).
Qed.

(** X6. An error names its cause.  The message of a failed call is either
    the fetch text followed by the status's DebugString, and then the fetch
    had failed, or the clock-skew text followed by the time sync's own error,
    and then the fetch had succeeded; the message starts with the fetch text
    exactly when the fetch failed. *)
Theorem error_names_its_cause self pref w msg :
  result_of self pref w = Unexpected msg →
  ((fetch_failed (fetch_reply w) = true ∧
    msg = "Failed to get robot state: " +:+ DebugString (status (fetch_reply w))) ∨
   (fetch_failed (fetch_reply w) = false ∧
    ∃ e, skew_reply w = Unexpected e ∧
         msg = "Failed to get latest clock skew: " +:+ e)) ∧
  String.prefix "Failed to get robot state: " msg = fetch_failed (fetch_reply w).
Proof.
  intros Hmsg.
  destruct (getRobotState_shape self pref w)
    as [Hf Hr Hc | e Hf Hs Hr Hc | skew Hf Hs Hr Hc];
    rewrite Hr in Hmsg; try discriminate Hmsg; injection Hmsg as <-; rewrite Hf.
  - split; [by left | apply string_prefix_app].
  - split; [right; eauto | by vm_compute].
Qed.

End MoreClientFacts.

(** * Further properties of the joint map *)
Section MoreJointMapFacts.
Import Stdlib.Strings.Ascii SpotJointMap JointIndex.

Lemma string_app_cons (c : ascii) (a b : string) :
  String c a +:+ b = String c (a +:+ b).
Proof. reflexivity. Qed.

Lemma string_app_assoc (a b c : string) : (a +:+ b) +:+ c = a +:+ (b +:+ c).
Proof.
  induction a as [|x a IH]; [reflexivity|].
  rewrite !string_app_cons. by f_equal.
Qed.

Lemma find_slash_app (a b : string) :
  find_slash (a +:+ b) =
  match find_slash a with
  | Some p => Some p
  | None => (λ q, String.length a + q) <$> find_slash b
  end.
Proof.
  induction a as [|x a IH].
  - change ("" +:+ b) with b. cbn. by destruct (find_slash b).
  - rewrite string_app_cons. cbn. destruct (Ascii.eqb x "/"%char); [done|].
    rewrite IH. destruct (find_slash a); [done|]. by destruct (find_slash b).
Qed.

Lemma substr_app_length (a b : string) : substr (String.length a) (a +:+ b) = b.
Proof.
  induction a as [|x a IH]; [reflexivity|]. rewrite string_app_cons. exact IH.
Qed.

(** Where the first slash of a string sits. *)
Lemma find_slash_Some (s : string) (p : nat) :
  find_slash s = Some p →
  ∃ a c, s = a +:+ String "/"%char c ∧ String.length a = p ∧ find_slash a = None.
Proof.
  revert p. induction s as [|x s IH]; intros p; cbn; [done|].
  destruct (Ascii.eqb x "/"%char) eqn:Hx.
  - intros [= <-]. apply Ascii.eqb_eq in Hx as ->. by exists "", s.
  - destruct (find_slash s) as [q|] eqn:Hq; [|done]. cbn. intros [= <-].
    destruct (IH q eq_refl) as (a & c & -> & Hlen & Ha).
    exists (String x a), c. rewrite string_app_cons. cbn. by rewrite Hx, Ha, Hlen.
Qed.

Ltac each_joint H :=
  repeat (apply elem_of_cons in H as [H|H]; [injection H as -> ->|]);
  try (by apply elem_of_nil in H).

Lemma base_joint_names (has_arm : bool) (base : string) (idx : nat) :
  default_joint_map has_arm !! base = Some idx →
  find_slash base = None ∧
  kJointNameToIndexWithArm !! base = Some idx ∧
  kJointNameToIndexWithoutArm !! base =
    (if decide (idx < kNjointsNoArm) then Some idx else None).
Proof.
  destruct has_arm; intros H%elem_of_list_to_map_2;
    each_joint H; by vm_compute.
Qed.

Lemma slashed_name_unknown (has_arm : bool) (nm : string) :
  find_slash nm ≠ None → default_joint_map has_arm !! nm = None.
Proof.
  intros Hslash. destruct (default_joint_map has_arm !! nm) as [idx|] eqn:H; [|done].
  by apply base_joint_names in H as [? _].
Qed.

(** X9. [get_joint_index] looks the name behind the first slash up.  It
    returns -1 exactly when that name is no joint of the robot with an arm;
    asked without an arm for an arm joint it does not return -1 but throws;
    in every other case it returns the index the base map has for the name. *)
Theorem get_joint_index_cases (joint_str : string) (has_arm : bool) :
  let nm := strip_namespace joint_str in
  (get_joint_index joint_str has_arm = JointIndex (-1) ↔
     kJointNameToIndexWithArm !! nm = None) ∧
  (get_joint_index joint_str has_arm = IndexThrown ↔
     has_arm = false ∧
     ∃ idx, kJointNameToIndexWithArm !! nm = Some idx ∧ (kNjointsNoArm ≤ idx)%nat) ∧
  (∀ idx, get_joint_index joint_str has_arm = JointIndex (Z.of_nat idx) ↔
          default_joint_map has_arm !! nm = Some idx).
Proof.
  cbv zeta. unfold get_joint_index. set (nm := strip_namespace joint_str).
  pose proof (base_joint_names true nm) as Hwith_facts.
  pose proof (base_joint_names false nm) as Hwithout_facts.
  cbn [default_joint_map] in Hwith_facts, Hwithout_facts.
  assert (∀ (o1 o2 : option nat),
            bool_decide (o1 = None) && bool_decide (o2 = None) =
            match o1, o2 with None, None => true | _, _ => false end) as Hdec.
  { by intros [?|] [?|]. }
  rewrite Hdec.
  destruct (kJointNameToIndexWithArm !! nm) as [i|] eqn:Hwith;
    destruct (kJointNameToIndexWithoutArm !! nm) as [j|] eqn:Hwithout.
  - destruct (Hwith_facts i eq_refl) as (_ & _ & Hj).
    case_decide as Hi; [|done]. injection Hj as ->.
    destruct has_arm; cbn [default_joint_map]; rewrite ?Hwith, ?Hwithout.
    + split; [split; [intros [=]; lia | done]|].
      split; [split; [done | by intros [? _]]|].
      intros idx. split; [intros [= ?%Nat2Z.inj]; by subst | by intros [= ->]].
    + split; [split; [intros [=]; lia | done]|]. split.
      * split; [done|]. intros (_ & idx & [= <-] & ?). lia.
      * intros idx. split; [intros [= ?%Nat2Z.inj]; by subst | by intros [= ->]].
  - destruct (Hwith_facts i eq_refl) as (_ & _ & Hj).
    case_decide as Hi; [done|].
    destruct has_arm; cbn [default_joint_map]; rewrite ?Hwith, ?Hwithout.
    + split; [split; [intros [=]; lia | done]|].
      split; [split; [done | by intros [? _]]|].
      intros idx. split; [intros [= ?%Nat2Z.inj]; by subst | by intros [= ->]].
    + split; [done|]. split.
      * split; [|done]. intros _. split; [done|]. exists i. split; [done | lia].
      * intros idx. split; done.
  - destruct (Hwithout_facts j eq_refl) as (_ & [=] & _).
  - split; [done|]. split.
    + split; [done|]. by intros (_ & idx & [=] & _).
    + intros idx. destruct has_arm; cbn [default_joint_map];
        rewrite ?Hwith, ?Hwithout; (split; [intros [=]; lia | done]).
Qed.

Lemma get_joint_index_found (joint_str : string) (has_arm : bool) (idx : nat) :
  default_joint_map has_arm !! strip_namespace joint_str = Some idx →
  get_joint_index joint_str has_arm = JointIndex (Z.of_nat idx).
Proof.
  intros H. unfold get_joint_index.
  destruct (base_joint_names _ _ _ H) as (_ & Hwith & _).
  rewrite Hwith. rewrite bool_decide_eq_false_2 by done. cbn [andb].
  fold (default_joint_map has_arm). by rewrite H.
Qed.

Lemma get_joint_index_unknown (joint_str : string) (has_arm : bool) :
  find_slash (strip_namespace joint_str) ≠ None →
  get_joint_index joint_str has_arm = JointIndex (-1).
Proof.
  intros H. unfold get_joint_index.
  pose proof (slashed_name_unknown true _ H) as Hwith.
  pose proof (slashed_name_unknown false _ H) as Hwithout.
  cbn [default_joint_map] in Hwith, Hwithout. rewrite Hwith, Hwithout.
  by rewrite !bool_decide_eq_true_2.
Qed.

(** X10. For a namespace without a slash, [get_joint_index] undoes the
    namespacing: every key of the namespaced joint map is given the index
    the map has for it. *)
Theorem get_joint_index_of_namespaced_key
    (spot_name : string) (has_arm : bool) (key : string) (idx : nat) :
  find_slash spot_name = None →
  get_namespaced_joint_map spot_name has_arm !! key = Some idx →
  get_joint_index key has_arm = JointIndex (Z.of_nat idx).
Proof.
  intros Hns (base & -> & Hbase)%namespaced_joint_map_lookup.
  apply get_joint_index_found.
  destruct (base_joint_names _ _ _ Hbase) as (Hslash & _).
  unfold RobotStateClient.new_DefaultRobotStateClient. cbn.
  unfold strip_namespace. case_decide as Hempty.
  - change ("" +:+ base) with base. by rewrite Hslash.
  - rewrite find_slash_app, (find_slash_app spot_name "/"), Hns. cbn.
    replace (String.length spot_name + 0 + 1) with (String.length (spot_name +:+ "/"))
      by (rewrite string_length_app; cbn; lia).
    by rewrite substr_app_length.
Qed.

(** X11. A namespace that itself contains a slash defeats the lookup: the
    name is cut behind the first slash, what remains is no joint name, and
    every key of that namespaced joint map is answered with -1. *)
Theorem get_joint_index_nested_namespace
    (spot_name : string) (has_arm has_arm' : bool) (key : string) (idx p : nat) :
  find_slash spot_name = Some p →
  get_namespaced_joint_map spot_name has_arm !! key = Some idx →
  get_joint_index key has_arm' = JointIndex (-1).
Proof.
  intros Hns (base & -> & Hbase)%namespaced_joint_map_lookup.
  apply get_joint_index_unknown.
  unfold RobotStateClient.new_DefaultRobotStateClient. cbn.
  rewrite decide_False by (by intros ->).
  destruct (find_slash_Some _ _ Hns) as (a & c & -> & Hlen & Ha).
  assert (((a +:+ String "/"%char c) +:+ "/") +:+ base
          = (a +:+ "/") +:+ ((c +:+ "/") +:+ base)) as ->.
  { rewrite !string_app_assoc. reflexivity. }
  unfold strip_namespace.
  rewrite find_slash_app, (find_slash_app a "/"), Ha. cbn.
  replace (String.length a + 0 + 1) with (String.length (a +:+ "/"))
    by (rewrite string_length_app; cbn; lia).
  rewrite substr_app_length, find_slash_app, (find_slash_app c "/"). cbn.
  by destruct (find_slash c).
Qed.

(** X7. The namespaced joint map pairs its keys one to one with the indices
    below the number of joints: every index it gives is below 19 (with an
    arm) or 12 (without), no two keys share an index, and every index below
    that number belongs to a key. *)
Theorem namespaced_joint_map_bijection (spot_name : string) (has_arm : bool) :
  let n := if has_arm then kNjointsArm else kNjointsNoArm in
  let jm := get_namespaced_joint_map spot_name has_arm in
  (∀ key idx, jm !! key = Some idx → idx < n) ∧
  (∀ key1 key2 idx, jm !! key1 = Some idx → jm !! key2 = Some idx → key1 = key2) ∧
  (∀ idx, idx < n → ∃ key, jm !! key = Some idx).
Proof.
  cbv zeta. split; [|split].
  - intros key idx. apply namespaced_index_bound.
  - intros key1 key2 idx. apply namespaced_joint_map_inj.
  - intros idx Hidx.
    assert (∃ base, default_joint_map has_arm !! base = Some idx) as [base Hbase].
    { exists (default "" (joint_names_by_index !! idx)).
      destruct has_arm;
        do 19 (destruct idx as [|idx];
               [first [by vm_compute | exfalso; cbv in Hidx; lia]|]);
        exfalso; cbv in Hidx; lia. }
    eexists. apply namespaced_joint_map_lookup. eauto.
Qed.

Lemma string_app_nil_r (a : string) : a +:+ "" = a.
Proof. induction a as [|x a IH]; [done|]. rewrite string_app_cons. by f_equal. Qed.

Lemma string_app_eq_split (a b c d : string) :
  a +:+ b = c +:+ d →
  (∃ e, a = c +:+ e ∧ d = e +:+ b) ∨ (∃ e, c = a +:+ e ∧ b = e +:+ d).
Proof.
  revert c. induction a as [|x a IH]; intros c.
  - change ("" +:+ b) with b. intros ->. right. by exists c.
  - destruct c as [|y c].
    + change ("" +:+ d) with d. intros <-. left. by exists (String x a).
    + rewrite !string_app_cons. intros [= -> H].
      destruct (IH c H) as [(e & -> & ->)|(e & -> & ->)]; [left | right];
        by exists e.
Qed.

Lemma suffix_of_slashed (x y e : string) :
  x +:+ "/" = y +:+ e → e ≠ "" → find_slash e ≠ None.
Proof.
  revert x. induction y as [|ch y IH]; intros x.
  - change ("" +:+ e) with e. intros <- _.
    rewrite find_slash_app. cbn. by destruct (find_slash x).
  - destruct x as [|ch' x].
    + change ("" +:+ "/") with "/". rewrite string_app_cons. intros [= _ H] He.
      destruct y; [|done]. by destruct e.
    + rewrite !string_app_cons. intros [= _ H] He. by apply (IH x).
Qed.

Lemma string_app_inv_tail (a b c : string) : a +:+ c = b +:+ c → a = b.
Proof.
  intros H. destruct (string_app_eq_split _ _ _ _ H) as [(e & -> & He)|(e & -> & He)].
  - apply (f_equal String.length) in He. rewrite string_length_app in He.
    destruct e; [by rewrite string_app_nil_r | cbn in He; lia].
  - apply (f_equal String.length) in He. rewrite string_length_app in He.
    destruct e; [by rewrite string_app_nil_r | cbn in He; lia].
Qed.

Lemma joint_prefix_clash (ns1 ns2 b1 b2 e : string) :
  ns1 ≠ ns2 →
  (if decide (ns1 = "") then "" else ns1 +:+ "/")
    = (if decide (ns2 = "") then "" else ns2 +:+ "/") +:+ e →
  b2 = e +:+ b1 → find_slash b2 = None → False.
Proof.
  intros Hne Hprefix -> Hb2.
  destruct e as [|ch e].
  - rewrite string_app_nil_r in Hprefix. apply Hne.
    repeat case_decide; subst; try done.
    + by destruct ns2.
    + by destruct ns1.
    + by apply string_app_inv_tail in Hprefix.
  - rewrite find_slash_app in Hb2.
    destruct (find_slash (String ch e)) eqn:He; [done|].
    case_decide as H1.
    + destruct (decide (ns2 = "")); by destruct ns2.
    + eapply suffix_of_slashed; [exact Hprefix | done | done].
Qed.

(** X8. Two robots with different names share no key: the joint maps
    namespaced with two different names, with or without an arm, never hold
    the same key. *)
Theorem namespaced_joint_maps_disjoint
    (ns1 ns2 : string) (arm1 arm2 : bool) (key : string) :
  ns1 ≠ ns2 →
  ¬ (is_Some (get_namespaced_joint_map ns1 arm1 !! key) ∧
     is_Some (get_namespaced_joint_map ns2 arm2 !! key)).
Proof.
  intros Hne [[i1 H1] [i2 H2]].
  apply namespaced_joint_map_lookup in H1 as (b1 & Hk1 & Hb1).
  apply namespaced_joint_map_lookup in H2 as (b2 & Hk2 & Hb2).
  unfold RobotStateClient.new_DefaultRobotStateClient in Hk1, Hk2. cbn in Hk1, Hk2.
  apply base_joint_names in Hb1 as (Hs1 & _). apply base_joint_names in Hb2 as (Hs2 & _).
  rewrite Hk1 in Hk2.
  destruct (string_app_eq_split _ _ _ _ Hk2) as [(e & Hp & Hb)|(e & Hp & Hb)].
  - by apply (joint_prefix_clash ns1 ns2 b1 b2 e).
  - by apply (joint_prefix_clash ns2 ns1 b2 b1 e).
Qed.

End MoreJointMapFacts.

(** * Further properties of the joint ordering *)
Section MoreOrderingFacts.
Import SpotJointMap JointReading.

Lemma order_joint_states_unfold (spot_name : string) (input output : JointState)
    (has_arm : bool) :
  length (position input) = (if has_arm then kNjointsArm else kNjointsNoArm) →
  order_joint_states spot_name input output =
  order_loop (get_namespaced_joint_map spot_name has_arm) input
    (length (position input)) 0
    (mkJointState
       (resize (length (position input)) "" (name output))
       (resize (length (position input)) double_zero (position output))
       (resize (length (position input)) double_zero (velocity output))
       (resize (length (position input)) double_zero (effort output))).
Proof.
  intros Hn. unfold order_joint_states. rewrite Hn. by destruct has_arm.
Qed.

Lemma order_joint_states_bad_count (spot_name : string) (input output : JointState) :
  length (position input) ≠ kNjointsArm → length (position input) ≠ kNjointsNoArm →
  order_joint_states spot_name input output = (Returned false, output).
Proof.
  intros H19 H12. unfold order_joint_states. by rewrite !decide_False.
Qed.

Lemma try_block_short jm input i joint_name out idx n p :
  jm !! joint_name = Some idx → idx < n → sized n out →
  position input !! i = Some p →
  velocity input !! i = None ∨ effort input !! i = None →
  (try_block jm input i joint_name out).1 = false.
Proof.
  intros Hjm Hidx (Hn & Hp & Hv & He) Hpi Hshort.
  unfold try_block, at_assign. rewrite Hjm. cbn.
  rewrite Hn, Hp, Hpi. rewrite !decide_True by done. cbn.
  destruct (velocity input !! i) as [v|]; [|done].
  rewrite Hv. rewrite decide_True by done. cbn.
  destruct Hshort as [|Heff]; [done|]. by rewrite Heff.
Qed.

(** How the loop ends, for any input. *)
Section LoopOutcome.
Variables (jm : gmap string nat) (input : JointState).
Local Abbreviation n := (length (position input)).
Hypothesis jm_bound : ∀ key idx, jm !! key = Some idx → idx < n.

Lemma order_loop_outcome (remaining : nat) :
  ∀ i out, i + remaining = n → sized n out →
  ((order_loop jm input remaining i out).1 = Returned true ↔
     ∀ k, i ≤ k < n → joint_readable jm input k) ∧
  ((order_loop jm input remaining i out).1 = Thrown ↔
     ∃ k, i ≤ k < n ∧ name input !! k = None ∧
          ∀ j, i ≤ j < k → joint_readable jm input j).
Proof.
  induction remaining as [|remaining IH]; intros i out Hi Hout.
  - cbn. split.
    + split; [|done]. intros _ k ?. lia.
    + split; [done|]. intros (k & ? & _). lia.
  - cbn [order_loop].
    destruct (name input !! i) as [nm|] eqn:Hnm.
    2:{ cbn. split.
        - split; [done|]. intros Hall. destruct (Hall i) as (nm & Hnm' & _); [lia|].
          congruence.
        - split; [|done]. intros _. exists i. split; [lia|]. split; [done|].
          intros j ?. lia. }
    assert (∀ r : outcome,
              ¬ joint_readable jm input i → r ≠ Returned true → r ≠ Thrown →
              (r = Returned true ↔ ∀ k, i ≤ k < n → joint_readable jm input k) ∧
              (r = Thrown ↔
                 ∃ k, i ≤ k < n ∧ name input !! k = None ∧
                      ∀ j, i ≤ j < k → joint_readable jm input j)) as Hstop.
    { intros r Hnot Hr1 Hr2. split.
      - split; [done|]. intros Hall. destruct Hnot. apply Hall. lia.
      - split; [done|]. intros (k & Hk & Hnone & Hall).
        destruct (decide (k = i)) as [->|]; [congruence|].
        destruct Hnot. apply Hall. lia. }
    destruct (jm !! nm) as [idx0|] eqn:Hjm.
    2:{ rewrite try_block_unknown by done. cbn. apply Hstop; [|done..].
        intros (nm' & Hnm' & [x Hx] & _). congruence. }
    pose proof (jm_bound _ _ Hjm) as Hidx0.
    destruct (lookup_lt_is_Some_2 (position input) i) as [p Hp]; [lia|].
    destruct (velocity input !! i) as [v|] eqn:Hv.
    2:{ pose proof (try_block_short jm input i nm out idx0 n p Hjm Hidx0 Hout Hp
                      (or_introl Hv)) as Hfalse.
        destruct (try_block jm input i nm out) as [[] out1]; [done|].
        cbn. apply Hstop; [|done..].
        intros (_ & _ & _ & Hlt & _). apply lookup_ge_None in Hv. lia. }
    destruct (effort input !! i) as [e|] eqn:He.
    2:{ pose proof (try_block_short jm input i nm out idx0 n p Hjm Hidx0 Hout Hp
                      (or_intror He)) as Hfalse.
        destruct (try_block jm input i nm out) as [[] out1]; [done|].
        cbn. apply Hstop; [|done..].
        intros (_ & _ & _ & _ & Hlt). apply lookup_ge_None in He. lia. }
    rewrite (try_block_known _ _ _ _ _ _ n p v e) by done.
    set (out1 := mkJointState _ _ _ _).
    assert (sized n out1) as Hout1.
    { destruct Hout as (? & ? & ? & ?). unfold sized, out1; cbn.
      by rewrite !length_insert. }
    assert (joint_readable jm input i) as Hread.
    { exists nm. split; [done|]. split; [by rewrite Hjm|].
      split; eapply lookup_lt_Some; eauto. }
    destruct (IH (S i) out1) as [Htrue Hthrown]; [lia | done |].
    rewrite Htrue, Hthrown. split.
    + split.
      * intros Hall k Hk. destruct (decide (k = i)) as [->|]; [done|].
        apply Hall. lia.
      * intros Hall k Hk. apply Hall. lia.
    + split.
      * intros (k & Hk & Hnone & Hall). exists k. split; [lia|]. split; [done|].
        intros j Hj. destruct (decide (j = i)) as [->|]; [done|]. apply Hall. lia.
      * intros (k & Hk & Hnone & Hall).
        destruct (decide (k = i)) as [->|]; [congruence|].
        exists k. split; [lia|]. split; [done|]. intros j Hj. apply Hall. lia.
Qed.

End LoopOutcome.

(** X12. How [order_joint_states] ends, for any message.  It returns true
    exactly when there are 19 or 12 positions and each of that many joints
    has a name the joint map knows, a velocity and an effort.  It throws
    exactly when, with 19 or 12 positions, the names run out first: there
    are fewer names than positions and every joint that has a name can be
    read.  So a message with fewer velocities or efforts than positions is
    never accepted, and is answered with false when its names suffice. *)
Theorem order_joint_states_outcome (spot_name : string) (input output : JointState) :
  let n := length (position input) in
  let jm := get_namespaced_joint_map spot_name (bool_decide (n = kNjointsArm)) in
  let r := (order_joint_states spot_name input output).1 in
  (r = Returned true ↔
     (n = kNjointsArm ∨ n = kNjointsNoArm) ∧ ∀ k, (k < n)%nat → joint_readable jm input k) ∧
  (r = Thrown ↔
     (n = kNjointsArm ∨ n = kNjointsNoArm) ∧ (length (name input) < n)%nat ∧
     ∀ k, (k < length (name input))%nat → joint_readable jm input k) ∧
  ((length (velocity input) < n)%nat ∨ (length (effort input) < n)%nat →
     r ≠ Returned true ∧ ((n ≤ length (name input))%nat → r = Returned false)).
Proof.
  intros n jm r.
  assert (r = Thrown ↔
          (n = kNjointsArm ∨ n = kNjointsNoArm) ∧
          ∃ k, 0 ≤ k < n ∧ name input !! k = None ∧
               ∀ j, 0 ≤ j < k → joint_readable jm input j) as Hthrown_raw.
  { unfold r, jm.
    destruct (decide (n = kNjointsArm)) as [Hn|Hn19];
      [|destruct (decide (n = kNjointsNoArm)) as [Hn|Hn12]].
    - rewrite (order_joint_states_unfold _ _ _ true) by done. fold n.
      rewrite bool_decide_eq_true_2 by done.
      edestruct (order_loop_outcome (get_namespaced_joint_map spot_name true) input)
        as [_ ->]; [| | | by intuition ].
      + intros key idx Hk. fold n. rewrite Hn. by apply namespaced_index_bound in Hk.
      + done.
      + unfold sized; cbn. by rewrite !length_resize.
    - rewrite (order_joint_states_unfold _ _ _ false) by done. fold n.
      rewrite bool_decide_eq_false_2 by done.
      edestruct (order_loop_outcome (get_namespaced_joint_map spot_name false) input)
        as [_ ->]; [| | | by intuition ].
      + intros key idx Hk. fold n. rewrite Hn. by apply namespaced_index_bound in Hk.
      + done.
      + unfold sized; cbn. by rewrite !length_resize.
    - rewrite order_joint_states_bad_count by done. cbn. split; [done|].
      intros [[?|?] _]; done. }
  assert (r = Returned true ↔
          (n = kNjointsArm ∨ n = kNjointsNoArm) ∧
          ∀ k, k < n → joint_readable jm input k) as Htrue.
  { unfold r, jm.
    destruct (decide (n = kNjointsArm)) as [Hn|Hn19];
      [|destruct (decide (n = kNjointsNoArm)) as [Hn|Hn12]].
    - rewrite (order_joint_states_unfold _ _ _ true) by done. fold n.
      rewrite bool_decide_eq_true_2 by done.
      edestruct (order_loop_outcome (get_namespaced_joint_map spot_name true) input)
        as [-> _].
      + intros key idx Hk. fold n. rewrite Hn. by apply namespaced_index_bound in Hk.
      + done.
      + unfold sized; cbn. by rewrite !length_resize.
      + fold n. split.
        * intros Hall. split; [by left|]. intros k Hk. apply Hall. lia.
        * intros [_ Hall] k Hk. apply Hall. lia.
    - rewrite (order_joint_states_unfold _ _ _ false) by done. fold n.
      rewrite bool_decide_eq_false_2 by done.
      edestruct (order_loop_outcome (get_namespaced_joint_map spot_name false) input)
        as [-> _].
      + intros key idx Hk. fold n. rewrite Hn. by apply namespaced_index_bound in Hk.
      + done.
      + unfold sized; cbn. by rewrite !length_resize.
      + fold n. split.
        * intros Hall. split; [by right|]. intros k Hk. apply Hall. lia.
        * intros [_ Hall] k Hk. apply Hall. lia.
    - rewrite order_joint_states_bad_count by done. cbn. split; [done|].
      intros [[?|?] _]; done. }
  assert (r = Thrown ↔
          (n = kNjointsArm ∨ n = kNjointsNoArm) ∧ (length (name input) < n)%nat ∧
          ∀ k, (k < length (name input))%nat → joint_readable jm input k) as Hthrown.
  { rewrite Hthrown_raw. split.
    - intros (Hn & k & Hk & Hnone & Hall). split; [done|].
      apply lookup_ge_None in Hnone.
      assert (k = length (name input)) as ->.
      { destruct (decide (length (name input) < k)) as [Hlt|]; [|lia].
        destruct (Hall (length (name input))) as (nm & Hnm & _); [lia|].
        apply lookup_lt_Some in Hnm. lia. }
      split; [lia|]. intros j Hj. apply Hall. lia.
    - intros (Hn & Hlt & Hall). split; [done|].
      exists (length (name input)). split; [lia|].
      split; [by apply lookup_ge_None|]. intros j Hj. apply Hall. lia. }
  split; [exact Htrue|]. split; [exact Hthrown|].
  intros Hshort.
  assert (r ≠ Returned true) as Hnot.
  { rewrite Htrue. intros [_ Hall].
    destruct Hshort as [Hlt|Hlt].
    - destruct (Hall (length (velocity input)) Hlt) as (_ & _ & _ & ? & _). lia.
    - destruct (Hall (length (effort input)) Hlt) as (_ & _ & _ & _ & ?). lia. }
  split; [done|]. intros Hnames.
  assert (r ≠ Thrown) as Hnot'.
  { rewrite Hthrown. intros (_ & ? & _). lia. }
  by destruct r as [[]|].
Qed.

Lemma all_below_present (l : list nat) (n : nat) :
  NoDup l → (∀ x, x ∈ l → x < n) → length l = n → ∀ i, i < n → i ∈ l.
Proof.
  intros Hnd Hlt Hlen i Hi.
  assert (l ≡ₚ seq 0 n) as ->.
  { apply submseteq_length_Permutation; [|by rewrite length_seq, Hlen].
    apply NoDup_submseteq; [done|]. intros x Hx. apply elem_of_seq.
    specialize (Hlt x Hx). lia. }
  apply elem_of_seq. lia.
Qed.

Lemma sized_rows_eq (n : nat) (o1 o2 : JointState) :
  sized n o1 → sized n o2 →
  (∀ idx, idx < n → joint_row o1 idx = joint_row o2 idx) → o1 = o2.
Proof.
  destruct o1 as [n1 p1 v1 e1], o2 as [n2 p2 v2 e2].
  intros (Hn1 & Hp1 & Hv1 & He1) (Hn2 & Hp2 & Hv2 & He2) Hrows. cbn in *.
  assert (∀ idx, n1 !! idx = n2 !! idx ∧ p1 !! idx = p2 !! idx ∧
                 v1 !! idx = v2 !! idx ∧ e1 !! idx = e2 !! idx) as Hall.
  { intros idx. destruct (decide (idx < n)) as [Hlt|Hge].
    - specialize (Hrows idx Hlt). unfold joint_row in Hrows. cbn in Hrows.
      by injection Hrows.
    - rewrite !lookup_ge_None_2 by lia. done. }
  f_equal; apply list_eq; intros idx; apply Hall.
Qed.

(** A success on pairwise distinct names: every slot of the output is
    written, by the one joint the map sends there. *)
Lemma distinct_names_rows (spot_name : string) (input output out : JointState) :
  arrays_cover_positions input →
  NoDup (take (length (position input)) (name input)) →
  order_joint_states spot_name input output = (Returned true, out) →
  ∃ has_arm : bool,
    length (position input) = (if has_arm then kNjointsArm else kNjointsNoArm) ∧
    sized (length (position input)) out ∧
    ∀ idx, idx < length (position input) →
      ∃ k nm, k < length (position input) ∧ name input !! k = Some nm ∧
              get_namespaced_joint_map spot_name has_arm !! nm = Some idx ∧
              joint_row out idx = joint_row input k.
Proof.
  intros Hcov Hnd Hrun. set (n := length (position input)) in *.
  assert (∃ has_arm : bool, n = if has_arm then kNjointsArm else kNjointsNoArm)
    as [has_arm Hn].
  { destruct (decide (n = kNjointsArm)); [by exists true|].
    destruct (decide (n = kNjointsNoArm)); [by exists false|].
    by rewrite order_joint_states_bad_count in Hrun. }
  exists has_arm. split; [done|].
  rewrite (order_joint_states_unfold _ _ _ has_arm) in Hrun by done. fold n in Hrun.
  set (jm := get_namespaced_joint_map spot_name has_arm) in *.
  destruct (order_loop_correct jm input) with (remaining := n) (i := 0)
    (out := mkJointState (resize n "" (name output))
                         (resize n double_zero (position output))
                         (resize n double_zero (velocity output))
                         (resize n double_zero (effort output)))
    as (b & out' & Hrun' & Hsized & Hb & Hrows).
  { intros key idx Hk. fold n. rewrite Hn. by apply namespaced_index_bound in Hk. }
  { done. }
  { done. }
  { unfold sized; cbn. by rewrite !length_resize. }
  rewrite Hrun in Hrun'. injection Hrun' as <- <-.
  split; [done|].
  destruct (Hrows eq_refl) as [Hrow _]. destruct Hb as [Hknown _].
  specialize (Hknown eq_refl). fold n in Hknown, Hrow.
  destruct Hcov as (Hcn & _). fold n in Hcn.
  (* the index of each of the first n joints *)
  assert (∀ k, k < n → ∃ nm idx, name input !! k = Some nm ∧ jm !! nm = Some idx)
    as Hidx.
  { intros k Hk. destruct (lookup_lt_is_Some_2 (name input) k) as [nm Hnm]; [lia|].
    destruct (Hknown k nm) as [idx Hi]; [lia | done |]. eauto. }
  assert (∀ k k' nm nm' idx, k < n → k' < n →
            name input !! k = Some nm → name input !! k' = Some nm' →
            jm !! nm = Some idx → jm !! nm' = Some idx → k = k') as Hinj.
  { intros k k' nm nm' idx Hk Hk' Hnm Hnm' Hi Hi'.
    rewrite (namespaced_joint_map_inj _ _ _ _ _ Hi Hi') in Hnm.
    apply (NoDup_lookup _ _ _ nm' Hnd); by rewrite lookup_take_lt. }
  set (f := λ k, default 0 (name input !! k ≫= λ nm, jm !! nm)).
  assert (∀ k nm idx, name input !! k = Some nm → jm !! nm = Some idx → f k = idx)
    as Hf.
  { intros k nm idx Hnm Hi. unfold f. rewrite Hnm. cbn. by rewrite Hi. }
  intros idx Hlt.
  assert (idx ∈ f <$> seq 0 n) as Hin.
  { apply (all_below_present _ n); [| |by rewrite length_fmap, length_seq|done].
    - apply NoDup_fmap_2_strong; [|apply NoDup_seq].
      intros k k' Hk%elem_of_seq Hk'%elem_of_seq Heq.
      destruct (Hidx k) as (nm & i & Hnm & Hi); [lia|].
      destruct (Hidx k') as (nm' & i' & Hnm' & Hi'); [lia|].
      rewrite (Hf _ _ _ Hnm Hi), (Hf _ _ _ Hnm' Hi') in Heq. subst i'.
      apply (Hinj k k' nm nm' i); try done; lia.
    - intros x (k & -> & Hk%elem_of_seq)%list_elem_of_fmap.
      destruct (Hidx k) as (nm & i & Hnm & Hi); [lia|].
      rewrite (Hf _ _ _ Hnm Hi). unfold jm in Hi.
      apply namespaced_index_bound in Hi. rewrite Hn. done. }
  apply list_elem_of_fmap in Hin as (k & -> & Hk%elem_of_seq).
  destruct (Hidx k) as (nm & i & Hnm & Hi); [lia|].
  rewrite (Hf _ _ _ Hnm Hi). exists k, nm. split; [lia|]. split; [done|].
  split; [done|]. apply (Hrow k nm i); [lia | done | done |].
  intros k' nm' Hk' Hnm' Hi'. assert (k = k'); [|lia].
  apply (Hinj k k' nm nm' i); try done; lia.
Qed.

(** X13. When the joint names of a message are pairwise distinct, a
    successful ordering writes every slot of the output: each index below
    the number of joints holds the name and the data of the one input joint
    the map sends there.  Nothing of what the output held before is left, so
    the result is the same for any previous content of the output. *)
Theorem distinct_names_fill_the_output
    (spot_name : string) (input output out : JointState) :
  arrays_cover_positions input →
  NoDup (take (length (position input)) (name input)) →
  order_joint_states spot_name input output = (Returned true, out) →
  let n := length (position input) in
  let jm := get_namespaced_joint_map spot_name (bool_decide (n = kNjointsArm)) in
  sized n out ∧
  (∀ idx, idx < n →
     ∃ k, k < n ∧ index_of_joint jm input k = Some idx ∧
          joint_row out idx = joint_row input k) ∧
  (∀ output', order_joint_states spot_name input output' = (Returned true, out)).
Proof.
  intros Hcov Hnd Hrun n jm.
  destruct (distinct_names_rows _ _ _ _ Hcov Hnd Hrun) as (has_arm & Hn & Hsized & Hrows).
  fold n in Hn, Hsized, Hrows.
  assert (bool_decide (n = kNjointsArm) = has_arm) as Harm.
  { rewrite Hn. by destruct has_arm. }
  unfold jm. rewrite Harm. split; [done|]. split.
  - intros idx Hidx. destruct (Hrows idx Hidx) as (k & nm & Hk & Hnm & Hi & Hrow).
    exists k. split; [done|]. split; [|done].
    unfold index_of_joint. rewrite Hnm. cbn. done.
  - intros output'.
    (* the run on the other output succeeds as well *)
    destruct (order_loop_correct (get_namespaced_joint_map spot_name has_arm) input)
      with (remaining := n) (i := 0)
      (out := mkJointState (resize n "" (name output'))
                           (resize n double_zero (position output'))
                           (resize n double_zero (velocity output'))
                           (resize n double_zero (effort output')))
      as (b & out' & Hrun' & Hsized' & Hb & _).
    { intros key idx Hk. fold n. rewrite Hn. by apply namespaced_index_bound in Hk. }
    { done. }
    { done. }
    { unfold sized; cbn. by rewrite !length_resize. }
    assert (b = true) as ->.
    { apply Hb. fold n. intros k nm Hk Hnm.
      destruct (Hcov) as (Hcn & _). fold n in Hcn.
      rewrite (order_joint_states_unfold _ _ _ has_arm) in Hrun by done.
      destruct (order_loop_correct (get_namespaced_joint_map spot_name has_arm) input)
        with (remaining := n) (i := 0)
        (out := mkJointState (resize n "" (name output))
                             (resize n double_zero (position output))
                             (resize n double_zero (velocity output))
                             (resize n double_zero (effort output)))
        as (b0 & out0 & Hrun0 & _ & Hb0 & _).
      { intros key idx Hk'. fold n. rewrite Hn. by apply namespaced_index_bound in Hk'. }
      { done. }
      { done. }
      { unfold sized; cbn. by rewrite !length_resize. }
      fold n in Hrun. rewrite Hrun in Hrun0. injection Hrun0 as <- <-.
      by apply (proj1 Hb0 eq_refl k nm). }
    rewrite (order_joint_states_unfold _ _ _ has_arm) by done. fold n.
    rewrite Hrun'. f_equal.
    assert (order_joint_states spot_name input output' = (Returned true, out')) as Hrun2.
    { by rewrite (order_joint_states_unfold _ _ _ has_arm). }
    destruct (distinct_names_rows _ _ _ _ Hcov Hnd Hrun2)
      as (has_arm' & Hn' & _ & Hrows').
    fold n in Hn', Hrows'.
    assert (has_arm' = has_arm) as ->.
    { rewrite Hn in Hn'. by destruct has_arm, has_arm'. }
    apply (sized_rows_eq n); [done..|].
    intros idx Hidx.
    destruct (Hrows idx Hidx) as (k & nm & Hk & Hnm & Hi & Hrow).
    destruct (Hrows' idx Hidx) as (k' & nm' & Hk' & Hnm' & Hi' & Hrow').
    rewrite Hrow, Hrow'.
    rewrite (namespaced_joint_map_inj _ _ _ _ _ Hi Hi') in Hnm.
    assert (k = k') as ->; [|done].
    apply (NoDup_lookup _ _ _ nm' Hnd); by rewrite lookup_take_lt.
Qed.

(** X14. Ordering is idempotent on distinct names: the message a successful
    ordering produced is accepted when it is ordered once more, and comes
    out as it went in. *)
Theorem ordering_an_ordered_message
    (spot_name : string) (input output out : JointState) :
  arrays_cover_positions input →
  NoDup (take (length (position input)) (name input)) →
  order_joint_states spot_name input output = (Returned true, out) →
  ∀ output', order_joint_states spot_name out output' = (Returned true, out).
Proof.
  intros Hcov Hnd Hrun output'.
  destruct (distinct_names_rows _ _ _ _ Hcov Hnd Hrun) as (has_arm & Hn & Hsized & Hrows).
  set (n := length (position input)) in *.
  set (jm := get_namespaced_joint_map spot_name has_arm) in *.
  destruct Hsized as (Hln & Hlp & Hlv & Hle).
  assert (∀ idx, idx < n → ∃ nm, name out !! idx = Some nm ∧ jm !! nm = Some idx)
    as Hnames.
  { intros idx Hidx. destruct (Hrows idx Hidx) as (k & nm & _ & Hnm & Hi & Hrow).
    exists nm. split; [|done]. unfold joint_row in Hrow.
    injection Hrow as Hname _ _ _. by rewrite Hname. }
  rewrite (order_joint_states_unfold _ _ _ has_arm) by (by rewrite Hlp).
  rewrite Hlp. fold jm.
  destruct (order_loop_correct jm out) with (remaining := n) (i := 0)
    (out := mkJointState (resize n "" (name output'))
                         (resize n double_zero (position output'))
                         (resize n double_zero (velocity output'))
                         (resize n double_zero (effort output')))
    as (b & out2 & Hrun2 & Hsized2 & Hb & Hrows2).
  { intros key idx Hk. rewrite Hlp, Hn. by apply namespaced_index_bound in Hk. }
  { unfold arrays_cover_positions. lia. }
  { by rewrite Hlp. }
  { rewrite Hlp. unfold sized; cbn. by rewrite !length_resize. }
  rewrite Hlp in Hsized2, Hb, Hrows2.
  assert (b = true) as ->.
  { apply Hb. intros k nm Hk Hnm. destruct (Hnames k) as (nm' & Hnm' & Hi); [lia|].
    rewrite Hnm in Hnm'. injection Hnm' as <-. by rewrite Hi. }
  rewrite Hrun2. f_equal. apply (sized_rows_eq n); [done | done |].
  intros idx Hidx. destruct (Hrows2 eq_refl) as [Hrow2 _].
  destruct (Hnames idx Hidx) as (nm & Hnm & Hi).
  apply (Hrow2 idx nm idx); [lia | done | done |].
  intros k' nm' Hk' Hnm' Hi'. rewrite Hlp in Hk'.
  destruct (Hnames k') as (nm'' & Hnm'' & Hi''); [lia|].
  rewrite Hnm' in Hnm''. injection Hnm'' as <-. rewrite Hi' in Hi''.
  injection Hi'' as ->. lia.
Qed.

End MoreOrderingFacts.

(** * The arm-wiggling node *)
Section WiggleFacts.
Import SpotJointMap WiggleArm WigglePhase.
Local Open Scope nat_scope.
Context `{ops : DoubleOps}.

(** [state_transition] walks the four states round in the order down,
    middle, up, reset: four transitions lead back to the state they started
    from, and one, two or three never do; no other member changes. *)
Lemma state_transition_cycle (self : Node) :
  state_transition (state_transition (state_transition (state_transition self))) = self ∧
  wiggle_state_ (state_transition self) ≠ wiggle_state_ self ∧
  wiggle_state_ (state_transition (state_transition self)) ≠ wiggle_state_ self ∧
  wiggle_state_ (state_transition (state_transition (state_transition self)))
    ≠ wiggle_state_ self ∧
  wiggle_state_ (state_transition self) = next_state (wiggle_state_ self) ∧
  next_state WIGGLE_DOWN = WIGGLE_MIDDLE ∧ next_state WIGGLE_MIDDLE = WIGGLE_UP ∧
  next_state WIGGLE_UP = RESET ∧ next_state RESET = WIGGLE_DOWN.
Proof. by destruct self as [? ? ? ? ? ? [] ? ? ?]. Qed.

(** The loop of [populate_command] keeps the length of the data and writes
    to wiggled joints only, whether or not it runs to its end. *)
Lemma populate_loop_frame (joints : list Z) (nominal offsets : list double)
    (percentage : double) (remaining : nat) :
  ∀ i data,
    length (populate_loop joints nominal offsets percentage remaining i data).2
      = length data ∧
    ∀ j, Z.of_nat j ∉ joints →
         (populate_loop joints nominal offsets percentage remaining i data).2 !! j
         = data !! j.
Proof.
  induction remaining as [|remaining IH]; intros i data; [done|].
  cbn [populate_loop].
  destruct (joints !! i) as [joint|] eqn:Hjoint; [|done].
  destruct (offsets !! i) as [offset|]; [|done].
  destruct (vector_at nominal joint) as [angle|]; [|done].
  unfold vector_assign, at_assign.
  case_decide as Hpos; [|done]. case_decide as Hlen; [|done].
  destruct (IH (S i) (<[Z.to_nat joint := fadd (fmul percentage offset) angle]> data))
    as [Hl Hf].
  split; [by rewrite Hl, length_insert|].
  intros j Hj. rewrite Hf by done. apply list_lookup_insert_ne.
  intros Heq. apply Hj. apply list_elem_of_lookup. exists i.
  rewrite Hjoint. f_equal. lia.
Qed.

(** With every wiggled joint in range and an offset for each, the loop runs
    to its end and leaves at each wiggled joint the value computed in the
    last round that names it. *)
Lemma populate_loop_values (joints : list Z) (nominal offsets : list double)
    (percentage : double) (remaining : nat) :
  ∀ i data,
    i + remaining = length joints →
    (length joints ≤ length offsets)%nat →
    Forall (λ joint, (0 ≤ joint)%Z ∧ Z.to_nat joint < length data ∧
                     Z.to_nat joint < length nominal) joints →
    (populate_loop joints nominal offsets percentage remaining i data).1 = true ∧
    ∀ k joint offset angle,
      i ≤ k → joints !! k = Some joint → offsets !! k = Some offset →
      nominal !! Z.to_nat joint = Some angle →
      (∀ k', k < k' → joints !! k' ≠ Some joint) →
      (populate_loop joints nominal offsets percentage remaining i data).2
        !! Z.to_nat joint
      = Some (fadd (fmul percentage offset) angle).
Proof.
  induction remaining as [|remaining IH]; intros i data Hi Hoff Hrange.
  - split; [done|]. intros k joint offset angle Hk Hjoint.
    apply lookup_lt_Some in Hjoint. lia.
  - cbn [populate_loop].
    destruct (lookup_lt_is_Some_2 joints i) as [joint Hjoint]; [lia|].
    destruct (lookup_lt_is_Some_2 offsets i) as [offset Hoffset]; [lia|].
    rewrite Hjoint, Hoffset.
    pose proof (proj1 (Forall_lookup _ _) Hrange i joint Hjoint) as (Hpos & Hd & Hn).
    destruct (lookup_lt_is_Some_2 nominal (Z.to_nat joint)) as [angle Hangle]; [done|].
    unfold vector_at, vector_assign, at_assign.
    rewrite !decide_True by done. rewrite Hangle. cbn.
    rewrite !decide_True by done. cbn.
    set (data' := <[Z.to_nat joint := _]> data).
    destruct (IH (S i) data') as [Hok Hvalues]; [lia | done | |].
    { eapply Forall_impl; [exact Hrange|]. intros j (? & ? & ?).
      unfold data'. by rewrite length_insert. }
    split; [done|].
    intros k joint' offset' angle' Hk Hjoint' Hoffset' Hangle' Hlast.
    destruct (decide (k = i)) as [->|Hne].
    + rewrite Hjoint in Hjoint'. injection Hjoint' as <-.
      rewrite Hoffset in Hoffset'. injection Hoffset' as <-.
      rewrite Hangle in Hangle'. injection Hangle' as <-.
      destruct (populate_loop_frame joints nominal offsets percentage remaining
                  (S i) data') as [_ Hframe].
      destruct (decide (joint ∈ drop (S i) joints)) as [Hin|Hnotin].
      * apply list_elem_of_lookup in Hin as [d Hd'].
        rewrite lookup_drop in Hd'. by destruct (Hlast (S i + d)); [lia|].
      * (* the later rounds name other joints: use the values of the rest *)
        clear Hframe.
        assert (∀ r i' d,
                  (∀ k', i' ≤ k' → joints !! k' ≠ Some joint) →
                  (populate_loop joints nominal offsets percentage r i' d).2
                    !! Z.to_nat joint = d !! Z.to_nat joint) as Hkeep.
        { clear -ops Hpos. induction r as [|r IHr]; intros i' d Hfree; [done|].
          cbn [populate_loop].
          destruct (joints !! i') as [j'|] eqn:Hj'; [|done].
          destruct (offsets !! i') as [o'|]; [|done].
          destruct (vector_at nominal j') as [a'|]; [|done].
          unfold vector_assign, at_assign.
          case_decide as Hpos'; [|done]. case_decide as Hlen'; [|done].
          rewrite IHr by (intros k' ?; apply Hfree; lia).
          apply list_lookup_insert_ne. intros Heq.
          apply (Hfree i'); [lia|]. rewrite Hj'. f_equal. lia. }
        rewrite Hkeep by (intros k' ?; apply Hlast; lia).
        unfold data'. by rewrite list_lookup_insert_eq.
    + apply (Hvalues k joint' offset' angle'); try done. lia.
Qed.

(** X15. [populate_command] keeps the length of the command and writes to
    wiggled joints only, and leaves every other member of the node alone,
    even when an access throws.  When every wiggled joint is an entry of the
    command and of the nominal angles and there is an offset for each, it
    does not throw, and each wiggled joint ends at its nominal angle plus the
    percentage times its offset (for a joint listed twice, the offset of its
    last listing). *)
Theorem populate_command_effect (offsets : list double) (percentage : double)
    (self : Node) :
  let self' := (populate_command offsets percentage self).2 in
  (length (command_ self') = length (command_ self) ∧
   (∀ j, Z.of_nat j ∉ joints_to_wiggle_ self → command_ self' !! j = command_ self !! j) ∧
   self' = with_command self (command_ self')) ∧
  (can_wiggle self → length offsets = length (joints_to_wiggle_ self) →
   (populate_command offsets percentage self).1 = true ∧
   ∀ k joint offset angle,
     joints_to_wiggle_ self !! k = Some joint → offsets !! k = Some offset →
     nominal_joint_angles_ self !! Z.to_nat joint = Some angle →
     (∀ k', k < k' → joints_to_wiggle_ self !! k' ≠ Some joint) →
     command_ self' !! Z.to_nat joint = Some (fadd (fmul percentage offset) angle)).
Proof.
  cbv zeta. unfold populate_command.
  pose proof (populate_loop_frame (joints_to_wiggle_ self) (nominal_joint_angles_ self)
                offsets percentage (njoints_to_wiggle_ self) 0 (command_ self)) as Hframe.
  pose proof (populate_loop_values (joints_to_wiggle_ self) (nominal_joint_angles_ self)
                offsets percentage (njoints_to_wiggle_ self) 0 (command_ self)) as Hvalues.
  destruct (populate_loop _ _ _ _ _ _ _) as [ok data]. cbn [fst snd] in *.
  split.
  - destruct Hframe as [Hlen Hother]. by destruct self.
  - intros (Hn & _ & _ & Hrange) Hoffsets.
    destruct Hvalues as [Hok Hval]; [by rewrite Hn | lia | done |].
    split; [done|]. intros k joint offset angle. apply Hval. lia.
Qed.

Lemma populate_command_from_state_ok (percentage : double) (self : Node) :
  can_wiggle self →
  ∃ data,
    populate_command_from_state percentage self = (true, with_command self data) ∧
    length data = length (command_ self).
Proof.
  intros (Hn & Hup & Hdown & Hrange).
  assert (∀ offsets pct,
            length offsets = length (joints_to_wiggle_ self) →
            ∃ data,
              populate_command offsets pct self = (true, with_command self data) ∧
              length data = length (command_ self)) as Hgo.
  { intros offsets pct Hoff. unfold populate_command.
    pose proof (populate_loop_frame (joints_to_wiggle_ self) (nominal_joint_angles_ self)
                  offsets pct (njoints_to_wiggle_ self) 0 (command_ self)) as [Hlen _].
    destruct (populate_loop_values (joints_to_wiggle_ self) (nominal_joint_angles_ self)
                offsets pct (njoints_to_wiggle_ self) 0 (command_ self))
      as [Hok _]; [by rewrite Hn | lia | done |].
    destruct (populate_loop _ _ _ _ _ _ _) as [ok data]. cbn [fst snd] in *.
    subst ok. by exists data. }
  unfold populate_command_from_state. destruct (wiggle_state_ self); by apply Hgo.
Qed.

Lemma timer_callback_step (ppm : Z) (self : Node) :
  (ppm < 2 ^ 31 - 1)%Z → ready ppm self →
  ∃ self',
    timer_callback self = Published (command_ self') self' ∧
    ready ppm self' ∧
    (wiggle_state_ self', count_ self')
      = phase_step ppm (wiggle_state_ self, count_ self) ∧
    nominal_joint_angles_ self' = nominal_joint_angles_ self ∧
    length (command_ self') = length (command_ self).
Proof.
  intros Hppm (Hcan & Hinit & <- & Hcount).
  unfold timer_callback. rewrite Hinit. cbn [negb].
  set (self1 := if decide (points_per_motion_ self < count_ self)%Z
                then with_count (state_transition self) 0 else self).
  assert (can_wiggle self1 ∧ initialized_ self1 = true ∧
          points_per_motion_ self1 = points_per_motion_ self ∧
          nominal_joint_angles_ self1 = nominal_joint_angles_ self ∧
          command_ self1 = command_ self ∧
          (wiggle_state_ self1, (count_ self1 + 1)%Z)
            = phase_step (points_per_motion_ self) (wiggle_state_ self, count_ self) ∧
          (- 2 ^ 31 ≤ count_ self1 < 2 ^ 31 - 1)%Z) as
    (Hcan1 & Hinit1 & Hppm1 & Hnom1 & Hcmd1 & Hphase1 & Hrange1).
  { unfold self1, phase_step. cbn [fst snd].
    unfold MachineInt.int32_range in Hcount. case_decide.
    - split; [exact Hcan|]. split; [exact Hinit|]. split; [done|].
      split; [done|]. split; [done|]. split; [done|]. cbn. lia.
    - split; [exact Hcan|]. split; [exact Hinit|]. split; [done|].
      split; [done|]. split; [done|]. split; [done|]. lia. }
  clearbody self1.
  destruct (populate_command_from_state_ok
              (fdiv (double_of_int (count_ self1))
                    (double_of_int (points_per_motion_ self1))) self1 Hcan1)
    as (data & -> & Hlen).
  exists (with_count (with_command self1 data)
                     (MachineInt.to_int32 (count_ self1 + 1))).
  split; [reflexivity|]. cbn.
  assert (MachineInt.to_int32 (count_ self1 + 1) = (count_ self1 + 1)%Z) as ->.
  { apply to_int32_fixed. unfold MachineInt.int32_range. lia. }
  split; [|split; [done | split; [done | by rewrite Hlen, Hcmd1]]].
  split; [|split; [done | split; [done | unfold MachineInt.int32_range; cbn; lia]]].
  destruct Hcan1 as (? & ? & ? & Hrange). repeat split; try done. cbn.
  eapply Forall_impl; [exact Hrange|]. intros j (? & ? & ?). by rewrite Hlen.
Qed.

Lemma fire_phase (ppm : Z) (k : nat) :
  (ppm < 2 ^ 31 - 1)%Z →
  ∀ self, ready ppm self →
  ∃ self',
    fire k self = Some self' ∧ ready ppm self' ∧
    (wiggle_state_ self', count_ self')
      = phase_after ppm k (wiggle_state_ self, count_ self) ∧
    nominal_joint_angles_ self' = nominal_joint_angles_ self ∧
    length (command_ self') = length (command_ self).
Proof.
  intros Hppm. induction k as [|k IH]; intros self Hready.
  - by exists self.
  - destruct (timer_callback_step ppm self Hppm Hready)
      as (self1 & Htick & Hready1 & Hphase1 & Hnom1 & Hlen1).
    destruct (IH self1 Hready1) as (self' & Hfire & Hready' & Hphase' & Hnom' & Hlen').
    exists self'. cbn [fire phase_after]. rewrite Htick.
    split; [done|]. split; [done|]. rewrite <- Hphase1.
    split; [done|]. split; congruence.
Qed.

Lemma phase_after_add (ppm : Z) (a b : nat) (phase : WiggleState * Z) :
  phase_after ppm (a + b) phase = phase_after ppm b (phase_after ppm a phase).
Proof. revert phase. induction a as [|a IH]; intros phase; cbn; [done | apply IH]. Qed.

Lemma phase_climb (ppm : Z) (d : nat) :
  ∀ st c, (c + Z.of_nat d ≤ ppm + 1)%Z →
          phase_after ppm d (st, c) = (st, (c + Z.of_nat d)%Z).
Proof.
  induction d as [|d IH]; intros st c Hc; cbn [phase_after].
  - f_equal. lia.
  - unfold phase_step. cbn [fst snd]. rewrite decide_False by lia.
    rewrite IH by lia. f_equal. lia.
Qed.

Lemma phase_one_motion (ppm : Z) (st : WiggleState) (c : Z) :
  (1 ≤ c ≤ ppm + 1)%Z →
  phase_after ppm (Z.to_nat ppm + 1) (st, c) = (next_state st, c).
Proof.
  intros Hc.
  replace (Z.to_nat ppm + 1) with (Z.to_nat (ppm + 1 - c) + (1 + Z.to_nat (c - 1)))
    by lia.
  rewrite phase_after_add, phase_climb by lia.
  replace (c + Z.of_nat (Z.to_nat (ppm + 1 - c)))%Z with (ppm + 1)%Z by lia.
  cbn [Nat.add phase_after]. unfold phase_step. cbn [fst snd].
  rewrite decide_True by lia. rewrite phase_climb by lia. f_equal. lia.
Qed.

(** X16. For a node that is initialized and able to wiggle, with
    points_per_motion below the largest int and the count between 1 and
    points_per_motion + 1, each state lasts points_per_motion + 1 firings of
    the timer, all of which publish and none of which throws: after that
    many the node is in the next state with the same count, and after four
    times as many it is back in the state and at the count it started from,
    its nominal angles and the length of its command unchanged. *)
Theorem timer_period (self : Node) :
  let ppm := points_per_motion_ self in
  can_wiggle self → initialized_ self = true →
  (0 ≤ ppm < 2 ^ 31 - 1)%Z → (1 ≤ count_ self ≤ ppm + 1)%Z →
  (∃ self1,
     fire (Z.to_nat ppm + 1) self = Some self1 ∧
     wiggle_state_ self1 = next_state (wiggle_state_ self) ∧
     count_ self1 = count_ self) ∧
  (∃ self4,
     fire (4 * (Z.to_nat ppm + 1)) self = Some self4 ∧
     wiggle_state_ self4 = wiggle_state_ self ∧
     count_ self4 = count_ self ∧
     nominal_joint_angles_ self4 = nominal_joint_angles_ self ∧
     length (command_ self4) = length (command_ self)).
Proof.
  intros ppm Hcan Hinit Hppm Hcount.
  assert (ready ppm self) as Hready.
  { repeat split; try done; unfold MachineInt.int32_range in *; try apply Hcan; lia. }
  split.
  - destruct (fire_phase ppm (Z.to_nat ppm + 1) (proj2 Hppm) self Hready)
      as (self1 & Hfire & _ & Hphase & _).
    rewrite phase_one_motion in Hphase by done. injection Hphase as Hst Hc.
    by exists self1.
  - destruct (fire_phase ppm (4 * (Z.to_nat ppm + 1)) (proj2 Hppm) self Hready)
      as (self4 & Hfire & _ & Hphase & Hnom & Hlen).
    pose proof (λ st, phase_one_motion ppm st (count_ self) Hcount) as Hone.
    set (N := Z.to_nat ppm + 1) in *.
    replace (4 * N) with (N + (N + (N + N))) in Hphase by lia.
    rewrite (phase_after_add ppm N (N + (N + N))), Hone,
      (phase_after_add ppm N (N + N)), Hone, (phase_after_add ppm N N), !Hone
      in Hphase.
    injection Hphase as Hst Hc. exists self4.
    split; [done|]. split; [|done]. rewrite Hst. by destruct (wiggle_state_ self).
Qed.

Lemma populate_loop_out_of_range (joints : list Z) (nominal offsets : list double)
    (percentage : double) (remaining : nat) :
  ∀ i data,
    i + remaining = length joints →
    (∃ k joint, i ≤ k ∧ joints !! k = Some joint ∧
                ((joint < 0)%Z ∨ length data ≤ Z.to_nat joint)) →
    (populate_loop joints nominal offsets percentage remaining i data).1 = false.
Proof.
  induction remaining as [|remaining IH]; intros i data Hi (k & joint & Hk & Hjoint & Hbad).
  - apply lookup_lt_Some in Hjoint. lia.
  - cbn [populate_loop].
    destruct (joints !! i) as [joint_i|] eqn:Hjoint_i; [|done].
    destruct (offsets !! i) as [offset|]; [|done].
    destruct (vector_at nominal joint_i) as [angle|]; [|done].
    unfold vector_assign, at_assign.
    case_decide as Hpos; [|done]. case_decide as Hlen; [|done].
    apply IH; [lia|]. exists k, joint.
    split; [|split; [done | by rewrite length_insert]].
    destruct (decide (k = i)) as [->|]; [|lia].
    rewrite Hjoint_i in Hjoint. injection Hjoint as ->. lia.
Qed.

(** X17. A firing of the timer throws when the node is initialized but one
    of its wiggled joints is no entry of the command, be it a negative index
    or one beyond the end: no command is published. *)
Theorem timer_throws_out_of_range (self : Node) (joint : Z) :
  initialized_ self = true →
  njoints_to_wiggle_ self = length (joints_to_wiggle_ self) →
  joint ∈ joints_to_wiggle_ self →
  (joint < 0)%Z ∨ length (command_ self) ≤ Z.to_nat joint →
  ∃ self', timer_callback self = TickThrown self'.
Proof.
  intros Hinit Hn [k Hk]%list_elem_of_lookup Hbad.
  unfold timer_callback. rewrite Hinit. cbn [negb].
  set (self1 := if decide (points_per_motion_ self < count_ self)%Z
                then with_count (state_transition self) 0 else self).
  assert (joints_to_wiggle_ self1 = joints_to_wiggle_ self ∧
          njoints_to_wiggle_ self1 = njoints_to_wiggle_ self ∧
          command_ self1 = command_ self) as (Hj & Hn1 & Hc).
  { unfold self1. by case_decide. }
  clearbody self1.
  assert (∀ offsets pct, (populate_command offsets pct self1).1 = false) as Hfail.
  { intros offsets pct. unfold populate_command.
    pose proof (populate_loop_out_of_range (joints_to_wiggle_ self1)
                  (nominal_joint_angles_ self1) offsets pct (njoints_to_wiggle_ self1)
                  0 (command_ self1)) as Hloop.
    destruct (populate_loop _ _ _ _ _ _ _) as [ok data]. cbn [fst snd] in *.
    apply Hloop; [by rewrite Hn1, Hj|]. exists k, joint.
    rewrite Hj, Hc. split; [lia | done]. }
  assert ((populate_command_from_state
             (fdiv (double_of_int (count_ self1))
                   (double_of_int (points_per_motion_ self1))) self1).1 = false) as Hf.
  { unfold populate_command_from_state. destruct (wiggle_state_ self1); apply Hfail. }
  destruct (populate_command_from_state _ self1) as [ok self2]. cbn in Hf. subst ok.
  by exists self2.
Qed.

Ltac wiggle_joint H :=
  repeat (apply elem_of_cons in H as [H|H]; [injection H as -> ->|]);
  try (by apply elem_of_nil in H).

Lemma wiggle_joint_names_inverse (joint_name : string) (idx : nat) :
  kJointNameToIndex !! joint_name = Some idx →
  joint_names_by_index !! idx = Some joint_name.
Proof. intros H%elem_of_list_to_map_2. wiggle_joint H; reflexivity. Qed.

(** The loop of the callback, for a message with a name for each position. *)
Lemma read_angles_correct (msg : JointState) (remaining : nat) :
  length (position msg) ≤ length (name msg) →
  ∀ i angles,
    i + remaining = length (position msg) →
    length angles = length (position msg) →
    ∃ e angles',
      read_angles msg remaining i angles = (e, angles') ∧
      e ≠ Escaped ∧ length angles' = length (position msg) ∧
      (e = RanThrough ↔
         ∀ k nm, i ≤ k < length (position msg) → name msg !! k = Some nm →
                 ∃ idx, kJointNameToIndex !! nm = Some idx ∧
                        idx < length (position msg)) ∧
      (e = RanThrough →
         (∀ k nm idx,
            i ≤ k < length (position msg) → name msg !! k = Some nm →
            kJointNameToIndex !! nm = Some idx →
            (∀ k', k < k' < length (position msg) → name msg !! k' ≠ Some nm) →
            angles' !! idx = position msg !! k) ∧
         (∀ idx,
            (∀ k nm, i ≤ k < length (position msg) → name msg !! k = Some nm →
                     kJointNameToIndex !! nm ≠ Some idx) →
            angles' !! idx = angles !! idx)).
Proof.
  intros Hnames. set (n := length (position msg)) in *.
  induction remaining as [|remaining IH]; intros i angles Hi Hlen.
  - exists RanThrough, angles. cbn. split; [done|]. split; [done|]. split; [done|].
    split.
    + split; [|done]. intros _ k nm ?. lia.
    + intros _. split; [|done]. intros k nm idx ?. lia.
  - cbn [read_angles].
    destruct (lookup_lt_is_Some_2 (name msg) i) as [nm Hnm]; [lia|].
    destruct (lookup_lt_is_Some_2 (position msg) i) as [p Hp]; [fold n; lia|].
    rewrite Hnm.
    assert (∀ angles0 : list double,
              length angles0 = n →
              ¬ (∃ idx, kJointNameToIndex !! nm = Some idx ∧ idx < n) →
              ∃ e angles',
                (BrokeOut, angles0) = (e, angles') ∧ e ≠ Escaped ∧ length angles' = n ∧
                (e = RanThrough ↔
                   ∀ k nm, i ≤ k < n → name msg !! k = Some nm →
                           ∃ idx, kJointNameToIndex !! nm = Some idx ∧ idx < n) ∧
                (e = RanThrough →
                   (∀ k nm idx,
                      i ≤ k < n → name msg !! k = Some nm →
                      kJointNameToIndex !! nm = Some idx →
                      (∀ k', k < k' < n → name msg !! k' ≠ Some nm) →
                      angles' !! idx = position msg !! k) ∧
                   (∀ idx,
                      (∀ k nm, i ≤ k < n → name msg !! k = Some nm →
                               kJointNameToIndex !! nm ≠ Some idx) →
                      angles' !! idx = angles !! idx))) as Hstop.
    { intros angles0 Hlen0 Hbad. exists BrokeOut, angles0.
      split; [done|]. split; [done|]. split; [done|]. split; [|done].
      split; [done|]. intros Hall. destruct Hbad. apply (Hall i nm); [lia | done]. }
    destruct (kJointNameToIndex !! nm) as [idx0|] eqn:Hidx0.
    2:{ apply Hstop; [done|]. by intros (idx & [=] & _). }
    rewrite Hp. unfold at_assign. case_decide as Hbound.
    2:{ apply Hstop; [done|]. intros (idx & [= <-] & ?). lia. }
    destruct (IH (S i) (<[idx0 := p]> angles)) as (e & angles' & Hrun & Hesc & Hlen' & He & Hrows);
      [lia | by rewrite length_insert |].
    exists e, angles'. split; [done|]. split; [done|]. split; [done|]. split.
    + rewrite He. split.
      * intros Hall k nm' Hk Hnm'. destruct (decide (k = i)) as [->|].
        -- rewrite Hnm in Hnm'. injection Hnm' as <-. exists idx0. split; [done | lia].
        -- apply (Hall k); [lia | done].
      * intros Hall k nm' Hk. apply Hall. lia.
    + intros Hthrough. destruct (Hrows Hthrough) as [Hlater Hkeep]. split.
      * intros k nm' idx Hk Hnm' Hidx Hlast. destruct (decide (k = i)) as [->|].
        -- rewrite Hnm in Hnm'. injection Hnm' as <-.
           rewrite Hidx0 in Hidx. injection Hidx as <-.
           rewrite Hkeep.
           ++ rewrite list_lookup_insert_eq by lia. done.
           ++ intros k' nm' Hk' Hnm' Hidx'.
              apply (Hlast k'); [lia|]. rewrite Hnm'. f_equal.
              apply wiggle_joint_names_inverse in Hidx0, Hidx'. congruence.
        -- apply (Hlater k nm'); [lia | done..].
      * intros idx Hun.
        assert (idx ≠ idx0) as Hne.
        { intros ->. apply (Hun i nm); [lia | done..]. }
        rewrite Hkeep.
        -- by rewrite list_lookup_insert_ne.
        -- intros k nm' Hk. apply Hun. lia.
Qed.


Lemma callback_initializes (msg : JointState) (self : Node) :
  initialized_ self = false →
  length (position msg) ≤ length (name msg) →
  initialized_ (joint_states_callback msg self).2 = true →
  ∃ angles,
    length angles = length (position msg) ∧
    (joint_states_callback msg self).2 =
      mkNode angles (joints_to_wiggle_ self) (wiggle_up_offsets_ self)
             (wiggle_down_offsets_ self) (njoints_to_wiggle_ self) angles
             (wiggle_state_ self) (points_per_motion_ self) true (count_ self).
Proof.
  intros Hinit Hnames. unfold joint_states_callback. rewrite Hinit.
  destruct (read_angles_correct msg (length (position msg)) Hnames 0
              (resize (length (position msg)) double_zero (nominal_joint_angles_ self)))
    as (e & angles' & -> & Hesc & Hlen & _); [done | by rewrite length_resize |].
  destruct e; cbn; [|done..]. intros _. by exists angles'.
Qed.

Lemma populate_command_from_state_frame (percentage : double) (self : Node) :
  (populate_command_from_state percentage self).2
    = with_command self (command_ (populate_command_from_state percentage self).2) ∧
  length (command_ (populate_command_from_state percentage self).2)
    = length (command_ self) ∧
  ∀ j, Z.of_nat j ∉ joints_to_wiggle_ self →
       command_ (populate_command_from_state percentage self).2 !! j = command_ self !! j.
Proof.
  unfold populate_command_from_state, populate_command.
  destruct (wiggle_state_ self);
    match goal with
    | |- context [populate_loop ?a ?b ?c ?d ?e ?f ?g] =>
      pose proof (populate_loop_frame a b c d e f g) as [Hlen Hother];
      destruct (populate_loop a b c d e f g) as [ok data]
    end; cbn [fst snd] in *; by destruct self.
Qed.

(** X19. From the first joint states to the first command.  Before a node
    is initialized a firing of its timer does nothing.  Once a message with
    a name for each of its positions has initialized it, and the node has an
    offset of either kind for each wiggled joint and every wiggled joint is
    an index below the number of positions of that message, the node can
    wiggle and the next firing of its timer publishes, whatever the state
    and whatever [count_], which has no initializer, and
    [points_per_motion_] hold.  The command published has an entry for each
    position of the message; the entries of the joints that are not wiggled
    are the nominal angles read from the message; the count afterwards is
    one more than the count the firing used, which is 0 when the count had
    passed [points_per_motion_]. *)
Theorem first_command_after_joint_states (msg : JointState) (node : Node) :
  initialized_ node = false →
  njoints_to_wiggle_ node = length (joints_to_wiggle_ node) →
  length (wiggle_up_offsets_ node) = length (joints_to_wiggle_ node) →
  length (wiggle_down_offsets_ node) = length (joints_to_wiggle_ node) →
  length (position msg) ≤ length (name msg) →
  initialized_ (joint_states_callback msg node).2 = true →
  Forall (λ joint, (0 ≤ joint < Z.of_nat (length (position msg)))%Z)
         (joints_to_wiggle_ node) →
  timer_callback node = NotInitialized ∧
  can_wiggle (joint_states_callback msg node).2 ∧
  ∃ data node',
    timer_callback (joint_states_callback msg node).2 = Published data node' ∧
    command_ node' = data ∧
    length data = length (position msg) ∧
    nominal_joint_angles_ node' =
      nominal_joint_angles_ (joint_states_callback msg node).2 ∧
    (∀ j, Z.of_nat j ∉ joints_to_wiggle_ node →
          data !! j = nominal_joint_angles_ node' !! j) ∧
    count_ node' =
      MachineInt.to_int32
        ((if decide (points_per_motion_ node < count_ node)%Z then 0 else count_ node)
         + 1).
Proof.
  intros Hfresh Hn Hup Hdown Hnames Hinit Hjoints.
  split; [unfold timer_callback; by rewrite Hfresh|].
  destruct (callback_initializes msg node Hfresh Hnames Hinit)
    as (angles & Hlen & Hnode).
  rewrite Hnode.
  set (node1 := mkNode _ _ _ _ _ _ _ _ _ _).
  assert (can_wiggle node1) as Hcan.
  { unfold can_wiggle, node1; cbn. repeat split; try done.
    eapply Forall_impl; [exact Hjoints|]. intros joint Hj. cbv beta in Hj.
    cbn. rewrite Hlen. lia. }
  split; [done|].
  unfold timer_callback. cbn [initialized_ negb node1]. fold node1.
  set (node2 := if decide (points_per_motion_ node1 < count_ node1)%Z
                then with_count (state_transition node1) 0 else node1).
  assert (can_wiggle node2) as Hcan2.
  { unfold node2. by case_decide. }
  assert (nominal_joint_angles_ node2 = angles ∧ command_ node2 = angles ∧
          joints_to_wiggle_ node2 = joints_to_wiggle_ node ∧
          count_ node2 = if decide (points_per_motion_ node < count_ node)%Z
                         then 0%Z else count_ node) as (Hnom & Hcmd & Hj & Hcount).
  { unfold node2, node1; cbn. by case_decide. }
  set (percentage := fdiv (double_of_int (count_ node2))
                          (double_of_int (points_per_motion_ node2))).
  destruct (populate_command_from_state_ok percentage node2 Hcan2)
    as (data & Hpop & Hdata).
  destruct (populate_command_from_state_frame percentage node2) as (_ & _ & Hother).
  rewrite Hpop in Hother |- *. cbn [snd] in Hother.
  exists data, (with_count (with_command node2 data)
                           (MachineInt.to_int32 (count_ node2 + 1))).
  split; [by destruct node2|]. split; [by destruct node2|].
  split; [by rewrite Hdata, Hcmd|]. split; [by cbn; rewrite Hnom|].
  split.
  - intros j Hnot. cbn. rewrite Hnom, <- Hcmd. replace data with
      (command_ (with_command node2 data)) by (by destruct node2).
    apply Hother. by rewrite Hj.
  - cbn. by rewrite Hcount.
Qed.

End WiggleFacts.

(** * The further statements at concrete inputs *)
Section MoreWitnesses.
Import RobotStateClient SpecTranslators CommonConversions SpotJointMap.
Import ProtoRanges TranslatorFrames JointIndex JointReading WiggleArm WigglePhase Samples.
Local Open Scope nat_scope.

Lemma timestamp_via_ros_lossless_iff_witness :
  wf_Timestamp far_future ∧
  let back :=
    convertBuiltinInterfacesTimeToProto
      (convertProtoToBuiltinInterfacesTime far_future (Msg.mkTime 0 0))
      Proto.Timestamp_default in
  Proto.nanos back = Proto.nanos far_future ∧
  (back = far_future ↔ MachineInt.int32_range (Proto.seconds far_future)).
Proof.
  assert (wf_Timestamp far_future) as Hwf.
  { unfold wf_Timestamp, int64_range, MachineInt.int32_range. cbn. lia. }
  split; [exact Hwf|].
  apply (timestamp_via_ros_lossless_iff far_future (Msg.mkTime 0 0)
           Proto.Timestamp_default Hwf).
Defined.

Lemma request_header_via_proto_witness :
  Msg.wf_Time (Msg.request_timestamp unflagged_header) ∧
  Msg.request_timestamp
    (convertProtoToBosdynMsgsRequestHeader
       (convertBosdynMsgsRequestHeaderToProto unflagged_header Proto.RequestHeader_default)
       unflagged_header)
  = Msg.mkTime 0 0.
Proof.
  assert (Msg.wf_Time (Msg.request_timestamp unflagged_header)) as Hwf.
  { unfold Msg.wf_Time, MachineInt.int32_range, MachineInt.uint32_range. cbn. lia. }
  split; [exact Hwf|].
  apply (request_header_via_proto unflagged_header unflagged_header Hwf).
Defined.

Lemma frame_inputs_of_translators_witness :
  result_of spot1 "map" healthy_world = Expected (assembled sample_raw 5%Z "spot1/" "map") ∧
  (∀ c,
     arg_frame_prefix <$> args_of c (calls_of spot1 "map" healthy_world) =
       [if takes_frame_prefix c then Some (frame_prefix_ spot1) else None] ∧
     arg_preferred_odom_frame <$> args_of c (calls_of spot1 "map" healthy_world) =
       [if decide (c = Tf) then Some "map" else None]) ∧
  (∃ skew,
     skew_reply healthy_world = Expected skew ∧
     joint_states (assembled sample_raw 5%Z "spot1/" "map") =
       GetJointStates (robot_state (response (fetch_reply healthy_world))) skew
                      (frame_prefix_ spot1) ∧
     tf (assembled sample_raw 5%Z "spot1/" "map") =
       GetTf (robot_state (response (fetch_reply healthy_world))) skew
             (frame_prefix_ spot1) "map" ∧
     odom (assembled sample_raw 5%Z "spot1/" "map") =
       GetOdom (robot_state (response (fetch_reply healthy_world))) skew
               (frame_prefix_ spot1) (String.eqb "map" (frame_prefix_ spot1 +:+ "vision")) ∧
     end_effector_force (assembled sample_raw 5%Z "spot1/" "map") =
       GetEndEffectorForce (robot_state (response (fetch_reply healthy_world))) skew
                           (frame_prefix_ spot1)) ∧
  (∀ self' pref' st',
     result_of self' pref' healthy_world = Expected st' →
     battery_states st' = battery_states (assembled sample_raw 5%Z "spot1/" "map") ∧
     wifi_state st' = wifi_state (assembled sample_raw 5%Z "spot1/" "map") ∧
     foot_state st' = foot_state (assembled sample_raw 5%Z "spot1/" "map") ∧
     estop_states st' = estop_states (assembled sample_raw 5%Z "spot1/" "map") ∧
     odom_twist st' = odom_twist (assembled sample_raw 5%Z "spot1/" "map") ∧
     power_state st' = power_state (assembled sample_raw 5%Z "spot1/" "map") ∧
     system_fault_state st' =
       system_fault_state (assembled sample_raw 5%Z "spot1/" "map") ∧
     manipulator_state st' = manipulator_state (assembled sample_raw 5%Z "spot1/" "map") ∧
     behavior_fault_state st' =
       behavior_fault_state (assembled sample_raw 5%Z "spot1/" "map")).
Proof.
  split; [reflexivity|].
  apply (frame_inputs_of_translators (robot := scripted_robot) spot1 "map" healthy_world).
  reflexivity.
Defined.

Lemma error_names_its_cause_witness :
  String.prefix "Failed to get robot state: " "Failed to get robot state: RPC timed out"
  = fetch_failed (fetch_reply unreachable_world).
Proof.
  apply (error_names_its_cause spot1 "map" unreachable_world
           "Failed to get robot state: RPC timed out").
  reflexivity.
Defined.

Lemma get_joint_index_of_namespaced_key_witness :
  get_joint_index "spot1/arm_wr0" true = JointIndex 16.
Proof.
  apply (get_joint_index_of_namespaced_key "spot1" true "spot1/arm_wr0" 16).
  - reflexivity.
  - by vm_compute.
Defined.

Lemma get_joint_index_nested_namespace_witness :
  get_joint_index "fleet/spot1/arm_wr0" false = JointIndex (-1).
Proof.
  apply (get_joint_index_nested_namespace "fleet/spot1" true false
           "fleet/spot1/arm_wr0" 16 5).
  - reflexivity.
  - by vm_compute.
Defined.

Lemma namespaced_joint_maps_disjoint_witness :
  ¬ (is_Some (get_namespaced_joint_map "spot1" true !! "spot1/arm_wr0") ∧
     is_Some (get_namespaced_joint_map "spot2" false !! "spot1/arm_wr0")).
Proof.
  apply (namespaced_joint_maps_disjoint "spot1" "spot2" true false "spot1/arm_wr0").
  discriminate.
Defined.

Lemma ordered_legs_run :
  arrays_cover_positions ordered_legs ∧
  NoDup (take (length (position ordered_legs)) (name ordered_legs)) ∧
  order_joint_states "" ordered_legs empty_JointState
  = (Returned true, (order_joint_states "" ordered_legs empty_JointState).2).
Proof.
  split; [unfold arrays_cover_positions; cbn; lia|]. split.
  - apply (bool_decide_unpack _). by vm_compute.
  - by vm_compute.
Defined.

Lemma distinct_names_fill_the_output_witness :
  order_joint_states "" ordered_legs repeated_name_input
  = (Returned true, (order_joint_states "" ordered_legs empty_JointState).2).
Proof.
  destruct ordered_legs_run as (Hcov & Hnd & Hrun).
  apply (distinct_names_fill_the_output "" ordered_legs empty_JointState _
           Hcov Hnd Hrun).
Defined.

Lemma ordering_an_ordered_message_witness :
  order_joint_states "" (order_joint_states "" ordered_legs empty_JointState).2
                     repeated_name_input
  = (Returned true, (order_joint_states "" ordered_legs empty_JointState).2).
Proof.
  destruct ordered_legs_run as (Hcov & Hnd & Hrun).
  apply (ordering_an_ordered_message "" ordered_legs empty_JointState _
           Hcov Hnd Hrun).
Defined.

Lemma small_node_can_wiggle : can_wiggle small_node.
Proof.
  unfold can_wiggle. cbn. repeat split; try done.
  repeat constructor; cbn; lia.
Defined.

Lemma timer_period_witness :
  (∃ self1,
     fire 3 small_node = Some self1 ∧
     wiggle_state_ self1 = RESET ∧ count_ self1 = 3%Z) ∧
  (∃ self4,
     fire 12 small_node = Some self4 ∧
     wiggle_state_ self4 = WIGGLE_UP ∧ count_ self4 = 3%Z ∧
     nominal_joint_angles_ self4 = nominal_joint_angles_ small_node ∧
     length (command_ self4) = length (command_ small_node)).
Proof.
  apply (timer_period small_node small_node_can_wiggle eq_refl); cbn; lia.
Defined.

Lemma timer_throws_out_of_range_witness :
  ∃ self', timer_callback overreaching_node = TickThrown self'.
Proof.
  apply (timer_throws_out_of_range overreaching_node 15%Z eq_refl eq_refl).
  - apply list_elem_of_lookup. by exists 1.
  - right. cbn. lia.
Defined.

Lemma order_joint_states_outcome_witness :
  (order_joint_states "" legs_without_velocity empty_JointState).1 ≠ Returned true ∧
  (order_joint_states "" legs_without_velocity empty_JointState).1 = Returned false.
Proof.
  destruct (order_joint_states_outcome "" legs_without_velocity empty_JointState)
    as (_ & _ & Hshort).
  destruct Hshort as [Hnot Hfalse]; [left; cbn; lia|].
  split; [exact Hnot|]. apply Hfalse. cbn. lia.
Defined.

Lemma populate_command_effect_witness :
  (populate_command [30%Z; 40%Z] 2%Z small_node).1 = true.
Proof.
  exact (proj1 (proj2 (populate_command_effect [30%Z; 40%Z] 2%Z small_node)
                      small_node_can_wiggle eq_refl)).
Defined.


Lemma first_command_after_joint_states_witness :
  timer_callback fresh_node = NotInitialized ∧
  can_wiggle (joint_states_callback ordered_legs fresh_node).2 ∧
  ∃ data node',
    timer_callback (joint_states_callback ordered_legs fresh_node).2
      = Published data node' ∧
    command_ node' = data ∧
    length data = length (position ordered_legs) ∧
    nominal_joint_angles_ node' =
      nominal_joint_angles_ (joint_states_callback ordered_legs fresh_node).2 ∧
    (∀ j, Z.of_nat j ∉ joints_to_wiggle_ fresh_node →
          data !! j = nominal_joint_angles_ node' !! j) ∧
    count_ node' =
      MachineInt.to_int32
        ((if decide (points_per_motion_ fresh_node < count_ fresh_node)%Z
          then 0 else count_ fresh_node) + 1).
Proof.
  apply (first_command_after_joint_states ordered_legs fresh_node).
  - reflexivity.
  - reflexivity.
  - reflexivity.
  - reflexivity.
  - cbn. lia.
  - reflexivity.
  - repeat constructor; cbn; lia.
Defined.

End MoreWitnesses.
